(** * HPO wrapper of EvoX: a shallow embedding of [src/problems/hpo_wrapper.py]

    The development follows the Python module top to bottom:
    - [HPOMonitor] and [HPOFitnessMonitor] (constructor, [setup], [pre_tell],
      [tell_fitness]), on IEEE-754 values, with the type promotion of
      [torch.min];
    - [HPOProblemWrapper.__init__], [setup] (monitor check, identity-based
      resolution of the monitor keys, choice of the first-step function),
      [evaluate] and [extract_parameters].

    Python dictionaries that are only looked up and updated are [gmap]s;
    where the code iterates [items()] and the order is observable, an
    association list is used.  Exceptions are values of [result]; code that
    calls into the tracing / batching / compilation layer runs in a small
    state-and-error monad whose state is the world in which these calls
    run, together with the record of the calls that were made.

    [evaluate] is embedded twice: on states as values ([HPOProblemWrapper]),
    to follow the rollout and the independence of the instances, and on a
    store of dictionary and tensor objects ([Store]), to see what a call
    writes.  The second does what the first does
    ([evaluate_on_store_corresponds]).

    The package [core] is not part of the sources; [setup] and [evaluate]
    take its functions as parameters, and module [Core] models them from the
    specification.

    Two further modules of the repository are embedded after that:
    - [GenesisProblem] ([evox/problems/neuroevolution/genesis.py]): the size
      check and the rollout loop of [_evaluate_gene], and [evaluate], over an
      environment object and a batched policy that are parameters;
    - [HoverEnv] ([evox/problems/neuroevolution/Genv/hover.py]): the flags
      and the episode counters of [__init__], [reset_idx], [reset] and
      [step], over the physics of the scene as parameters. *)

From stdpp Require Import base option list strings gmap fin_maps.
From Stdlib Require Import ZArith Lia Ascii Floats.SpecFloat.

Set Default Proof Using "Type".
Local Open Scope string_scope.
Local Open Scope list_scope.

(* ===================================================================== *)
(** ** Exceptions and the state-and-error monad *)
(* ===================================================================== *)

Inductive exn :=
  | AssertionError
  | KeyError
  | AttributeError
  | RuntimeError
  | NotImplementedError.

Inductive result (A : Type) :=
  | Ok (a : A)
  | Raise (e : exn).
Arguments Ok {A} a.
Arguments Raise {A} e.

Definition result_bind {A B} (r : result A) (k : A → result B) : result B :=
  match r with
  | Ok a => k a
  | Raise e => Raise e
  end.

(** [assert c] : Python's [assert c, msg]. *)
Definition assert (c : bool) : result unit :=
  if c then Ok () else Raise AssertionError.

(** A computation over a mutable environment [S] that may raise. *)
Definition M (S A : Type) : Type := S → S * result A.

Definition ret {S A} (a : A) : M S A := λ s, (s, Ok a).
Definition raise {S A} (e : exn) : M S A := λ s, (s, Raise e).
Definition bind {S A B} (c : M S A) (k : A → M S B) : M S B :=
  λ s, match c s with
       | (s', Ok a) => k a s'
       | (s', Raise e) => (s', Raise e)
       end.
Definition lift {S A} (r : result A) : M S A := λ s, (s, r).
Definition modify {S} (f : S → S) : M S unit := λ s, (f s, Ok ()).

Notation "'let*' x ':=' c 'in' k" := (bind c (λ x, k))
  (at level 10, x name, c at level 100, k at level 200, only parsing).
Notation "'let?' x ':=' c 'in' k" := (result_bind c (λ x, k))
  (at level 10, x name, c at level 100, k at level 200, only parsing).

(** [for x in xs: acc = body(x, acc)] *)
Fixpoint for_loop {S X A} (xs : list X) (body : X → A → M S A) (acc : A) : M S A :=
  match xs with
  | [] => ret acc
  | x :: rest => bind (body x acc) (for_loop rest body)
  end.

(** [for x in xs: body(x)] for a body that can only raise. *)
Fixpoint for_each {X} (xs : list X) (body : X → result unit) : result unit :=
  match xs with
  | [] => Ok ()
  | x :: rest => let? _ := body x in for_each rest body
  end.

(** Python's [range(n)]: empty when [n <= 0]. *)
Definition range (n : Z) : list Z := Z.of_nat <$> seq 0 (Z.to_nat n).

(* ===================================================================== *)
(** ** [str.capitalize] on byte strings *)
(* ===================================================================== *)

(** Strings are sequences of bytes and the case mappings are those of
    ASCII; other bytes are left as they are. *)

Definition is_upper (c : ascii) : bool :=
  let n := nat_of_ascii c in (65 <=? n)%nat && (n <=? 90)%nat.
Definition is_lower (c : ascii) : bool :=
  let n := nat_of_ascii c in (97 <=? n)%nat && (n <=? 122)%nat.

Definition to_lower (c : ascii) : ascii :=
  if is_upper c then ascii_of_nat (nat_of_ascii c + 32) else c.
Definition to_upper (c : ascii) : ascii :=
  if is_lower c then ascii_of_nat (nat_of_ascii c - 32) else c.

Fixpoint lower (s : string) : string :=
  match s with
  | EmptyString => EmptyString
  | String c r => String (to_lower c) (lower r)
  end.

(** [s.capitalize()]: first character upper-cased, the rest lower-cased. *)
Definition capitalize (s : string) : string :=
  match s with
  | EmptyString => EmptyString
  | String c r => String (to_upper c) (lower r)
  end.

(* ===================================================================== *)
(** ** Tensors of floats, [torch.min] *)
(* ===================================================================== *)

(** IEEE-754 values without payloads ([SpecFloat.spec_float]); the ranks
    that reach [pre_tell] are 0 (a scalar), 1 (single objective) and
    2 (one row per individual, one column per objective).  The elements
    of a tensor of floats are written in the canonical form of binary64,
    in which every number of a floating-point dtype is written exactly
    and on which [SFcompare] is the order of the numbers; so the
    conversion from one floating-point dtype to a larger one changes
    nothing.  [Vector] is a one-dimensional tensor of a floating-point
    dtype up to float32 (float16, bfloat16, float32), [Vector64] one of
    dtype float64, [IntVector] one of an integer dtype or of booleans.
    [torch.min] takes no complex tensors. *)
Inductive Tensor :=
  | Scalar (x : spec_float)
  | Vector (xs : list spec_float)
  | Matrix (rows : list (list spec_float))
  | Vector64 (xs : list spec_float)
  | IntVector (zs : list Z).

Definition ndim (t : Tensor) : nat :=
  match t with
  | Scalar _ => 0
  | Vector _ => 1
  | Matrix _ => 2
  | Vector64 _ => 1
  | IntVector _ => 1
  end.

(** The dtype of a 0-dimensional tensor of floats, as far as type
    promotion with the buffer of the monitor tells dtypes apart:
    [float32] stands for the floating-point dtypes up to float32. *)
Inductive dtype := float32 | float64.

(** The element of a 0-dimensional tensor, with its dtype. *)
Inductive number :=
  | Float (d : dtype) (x : spec_float)
  | Int (z : Z).

Definition inf : spec_float := S754_infinity false.

Definition is_nan (x : spec_float) : bool :=
  match x with
  | S754_nan => true
  | _ => false
  end.

(** A float in the canonical form of binary64. *)
Definition canonical (x : spec_float) : spec_float :=
  match x with
  | S754_finite s m e =>
      binary_normalize 53 1024 (if s then Z.neg m else Z.pos m) e s
  | _ => x
  end.

(** The conversion of an integer to a floating-point dtype: the nearest
    number of binary32 (24 bits of precision) or of binary64 (53 bits),
    ties to even. *)
Definition of_int (d : dtype) (z : Z) : spec_float :=
  match d with
  | float32 => canonical (binary_normalize 24 128 z 0 false)
  | float64 => binary_normalize 53 1024 z 0 false
  end.

(** Type promotion of [torch.min(a, b)] for two 0-dimensional tensors, of
    which [b] is a tensor of floats of dtype [d]: the dtype of the
    result. *)
Definition result_type (a : number) (d : dtype) : dtype :=
  match a with
  | Float float64 _ => float64
  | _ => d
  end.

(** The element of [a] converted to the floating-point dtype [d]. *)
Definition promote (d : dtype) (a : number) : spec_float :=
  match a with
  | Float _ x => x
  | Int z => of_int d z
  end.

(** [torch.min(a, b)] on two scalars of one floating-point dtype, i.e.
    [torch.minimum]: a NaN operand is returned, otherwise the smaller
    one. *)
Definition minimum (a b : spec_float) : spec_float :=
  if is_nan a then a
  else if is_nan b then b
  else if SFltb b a then b else a.

(** [torch.min(t)]: the minimum of all elements, in the dtype of [t];
    NaN propagates; an empty tensor has no minimum and the call raises. *)
Definition min_all (t : Tensor) : result number :=
  match t with
  | Scalar x => Ok (Float float32 x)
  | Vector [] => Raise RuntimeError
  | Vector (x :: xs) => Ok (Float float32 (foldl minimum x xs))
  | Matrix rows =>
      match concat rows with
      | [] => Raise RuntimeError
      | x :: xs => Ok (Float float32 (foldl minimum x xs))
      end
  | Vector64 [] => Raise RuntimeError
  | Vector64 (x :: xs) => Ok (Float float64 (foldl minimum x xs))
  | IntVector [] => Raise RuntimeError
  | IntVector (z :: zs) => Ok (Int (foldl Z.min z zs))
  end.

(* ===================================================================== *)
(** ** [HPOFitnessMonitor] *)
(* ===================================================================== *)

Module HPOFitnessMonitor.

(** [best_fitness] is [None] until [setup] creates the buffer, a
    0-dimensional tensor, given by its dtype and its element. *)
Record t := Build {
  multi_obj_indicator : option string;
  best_fitness : option (dtype * spec_float);
}.

(** [__init__(self, multi_obj_indicator=None)] *)
Definition __init__ (multi_obj_indicator : option string) : result t :=
  match multi_obj_indicator with
  | None => Ok (Build None None)
  | Some s =>
      let s := capitalize s in
      let? _ := assert (bool_decide (s ∈ ["IGD"; "HV"])) in
      Ok (Build (Some s) None)
  end.

(** [setup(self)]: [torch.tensor(torch.inf)] has the default dtype,
    float32. *)
Definition setup (self : t) : t :=
  Build (multi_obj_indicator self) (Some (float32, inf)).

(** [self.best_fitness] *)
Definition get_best_fitness (self : t) : result (dtype * spec_float) :=
  match best_fitness self with
  | Some b => Ok b
  | None => Raise AttributeError
  end.

(** [pre_tell(self, fitness)]; the arguments of the outer [torch.min] are
    evaluated left to right, and both are converted to the dtype of the
    result. *)
Definition pre_tell (self : t) (fitness : Tensor) : result t :=
  if (ndim fitness =? 1)%nat then
    let? m := min_all fitness in
    let? b := get_best_fitness self in
    let d := result_type m b.1 in
    Ok (Build (multi_obj_indicator self) (Some (d, minimum (promote d m) b.2)))
  else Ok self.

(** [tell_fitness(self)]: the element of the tensor that is returned. *)
Definition tell_fitness (self : t) : result spec_float :=
  let? b := get_best_fitness self in Ok b.2.

(** The monitor as the caller sees it once a [pre_tell] call has returned
    or raised: a call that raises has assigned nothing. *)
Definition after_pre_tell (self : t) (fitness : Tensor) : t :=
  match pre_tell self fitness with
  | Ok self' => self'
  | Raise _ => self
  end.

Definition run (self : t) (calls : list Tensor) : t :=
  foldl after_pre_tell self calls.

End HPOFitnessMonitor.

(* ===================================================================== *)
(** ** Objects of the live workflow *)
(* ===================================================================== *)

(** A tensor object: [addr] is what Python's [is] compares, [is_param]
    tells an [nn.Parameter] from a plain buffer, [value] is the content. *)
Record tensor_obj (T : Type) := TensorObj {
  addr : nat;
  is_param : bool;
  value : T;
}.
Arguments TensorObj {T} addr is_param value.
Arguments addr {T} t.
Arguments is_param {T} t.
Arguments value {T} t.

(** [a is b] *)
Definition is_ {T} (a b : tensor_obj T) : bool := (addr a =? addr b)%nat.

(** An insertion-ordered dictionary with string keys, for the places where
    the code iterates [items()]. *)
Definition odict (A : Type) : Type := list (string * A).

Fixpoint odict_set {A} (k : string) (a : A) (d : odict A) : odict A :=
  match d with
  | [] => [(k, a)]
  | (k', a') :: rest =>
      if String.eqb k' k then (k, a) :: rest else (k', a') :: odict_set k a rest
  end.

Fixpoint odict_get {A} (k : string) (d : odict A) : option A :=
  match d with
  | [] => None
  | (k', a') :: rest => if String.eqb k' k then Some a' else odict_get k rest
  end.

(** The two methods of a workflow that [setup] traces. *)
Inductive method := step | init_step.

(** What a compiled function was traced from. *)
Inductive traced_name :=
  | Method (m : method)
  | GetMonitorFitness.

(** Calls into the tracing / batching / compilation layer made by [setup],
    and its call of [monitor.load_state_dict]. *)
Inductive core_call :=
  | CallUseState (m : method)
  | CallVmap (m : method)
  | CallJit (f : traced_name)
  | CallLoadStateDict.

(** A submodule of the workflow as [setup] sees it.  [mro] lists the names
    of the classes of [type(obj).__mro__]; [other_attrs] are the attributes
    the object gets from anywhere but [HPOMonitor]; [state_dict] is
    [obj.state_dict(keep_vars=True).items()]; [tell_fitness] is
    [obj.tell_fitness()] as a function of the state that
    [load_state_dict] has installed. *)
Record submodule (T V : Type) := Submodule {
  mro : list string;
  other_attrs : list string;
  state_dict : odict (tensor_obj T);
  tell_fitness : gmap string V → result V;
}.
Arguments Submodule {T V} mro other_attrs state_dict tell_fitness.
Arguments mro {T V} s.
Arguments other_attrs {T V} s.
Arguments state_dict {T V} s.
Arguments tell_fitness {T V} s.

(** [isinstance(obj, HPOMonitor)] *)
Definition isinstance_HPOMonitor {T V} (obj : submodule T V) : bool :=
  bool_decide ("HPOMonitor" ∈ mro obj).

(** [hasattr(obj, "tell_fitness")]: class [HPOMonitor] defines the method,
    so every instance of it has the attribute. *)
Definition exposes_tell_fitness {T V} (obj : submodule T V) : bool :=
  isinstance_HPOMonitor obj || bool_decide ("tell_fitness" ∈ other_attrs obj).

(** [HPOMonitor.tell_fitness]: the base class only raises. *)
Definition HPOMonitor_tell_fitness {V} (_ : gmap string V) : result V :=
  Raise NotImplementedError.

(** [HPOFitnessMonitor.tell_fitness] on an installed state: it returns the
    [best_fitness] buffer. *)
Definition HPOFitnessMonitor_tell_fitness {V} (st : gmap string V) : result V :=
  match st !! "best_fitness" with
  | Some v => Ok v
  | None => Raise RuntimeError
  end.

(** An [HPOFitnessMonitor] after [setup()], whose only buffer is the tensor
    object [best].  The classes are those of the module; the bases of
    [Monitor], which the core package defines, are left out. *)
Definition HPOFitnessMonitor_obj {T V} (best : tensor_obj T) : submodule T V :=
  Submodule ["HPOFitnessMonitor"; "HPOMonitor"; "Monitor"; "ABC"; "object"]
            [] [("best_fitness", best)] HPOFitnessMonitor_tell_fitness.

Record Workflow (T V : Type) := MkWorkflow {
  submodules : gmap string (submodule T V);
  (** [type(workflow).init_step != Workflow.init_step] *)
  overrides_init_step : bool;
}.
Arguments MkWorkflow {T V} submodules overrides_init_step.
Arguments submodules {T V} w.
Arguments overrides_init_step {T V} w.

(** [workflow.get_submodule(name)] *)
Definition get_submodule {T V} (workflow : Workflow T V) (name : string)
  : result (submodule T V) :=
  match submodules workflow !! name with
  | Some obj => Ok obj
  | None => Raise AttributeError
  end.

(* ===================================================================== *)
(** ** [HPOProblemWrapper] *)
(* ===================================================================== *)

Module HPOProblemWrapper.

Section Objects.
Context {V W : Type}.

(** A function of a (batched) state that runs in the world [W] of the
    tensor library (its random generator, its storage) and may raise. *)
Definition callable (A : Type) : Type := gmap string V → W → W * result A.

(** A compiled function, tagged with the workflow method it was traced
    from. *)
Record compiled := Compiled {
  traced_from : method;
  run : callable (gmap string V);
}.

(** The result of [vmap]: the batched function and its [init_state]. *)
Record batched_fn := BatchedFn {
  batched_call : callable (gmap string V);
  batched_init_state : Z → gmap string V;
}.

(** The object after [__init__]. *)
Record unconfigured := Unconfigured {
  new_iterations : Z;
  new_num_instances : Z;
}.

(** The object after [setup]. *)
Record t := Build {
  iterations : Z;
  num_instances : Z;
  init_state : gmap string V;
  _workflow_step_ : compiled;
  _workflow_init_step_ : compiled;
  _get_monitor_fitness_ : callable V;
}.

(** What [evaluate] runs in: the world of the tensor library and the
    record of the compiled functions that were called, with their
    arguments, oldest first. *)
Record machine := Machine {
  world : W;
  calls : list (traced_name * gmap string V);
}.

(** Calling a compiled function. *)
Definition invoke {A} (name : traced_name) (f : callable A) (x : gmap string V)
  : M machine A :=
  λ m, let '(w', r) := f x (world m) in
       (Machine w' (calls m ++ [(name, x)]), r).

(** What [setup] runs in: the same world, in which tracing runs the
    functions that are compiled, and the record of the calls listed in
    [core_call], oldest first. *)
Record setup_machine := SetupMachine {
  setup_world : W;
  core_calls : list core_call;
}.

(** One of these calls: it is recorded, runs in the world, and may
    raise. *)
Definition core {A} (c : core_call) (f : M W A) : M setup_machine A :=
  λ m, let '(w', r) := f (setup_world m) in
       (SetupMachine w' (core_calls m ++ [c]), r).

End Objects.
Arguments callable : clear implicits.
Arguments compiled : clear implicits.
Arguments batched_fn : clear implicits.
Arguments t : clear implicits.
Arguments machine : clear implicits.
Arguments setup_machine : clear implicits.

(** [__init__(self, iterations, num_instances)] *)
Definition __init__ (iterations num_instances : Z) : result unconfigured :=
  let? _ := assert (0 <? iterations)%Z in
  let? _ := assert (0 <? num_instances)%Z in
  Ok (Unconfigured iterations num_instances).

Section Setup.
Context {T V W : Type}.

(** The tracing / batching / compilation layer ([use_state], [vmap], [jit]
    of the core package).  Each call runs in the world and may raise;
    [jit(fn, trace=True, example_inputs)] runs [fn] while it traces it. *)
Variable traced : Type.
Variable use_state : Workflow T V → method → M W traced.
(** [list(f.init_state(clone=False).items())] *)
Variable init_state_items : traced → odict (tensor_obj T).
Variable vmap : traced → M W (batched_fn V W).
Variable jit : ∀ A : Type, callable V W A → gmap string V → M W (callable V W A).
(** [monitor.load_state_dict(state)] on the live monitor. *)
Variable load_state_dict : submodule T V → odict (tensor_obj T) → M W unit.

(** The inner loop of the resolver: the first entry of [monitor_state]
    whose value is the object [v]. *)
Fixpoint first_identical (v : tensor_obj T) (monitor_state : odict (tensor_obj T))
  : option string :=
  match monitor_state with
  | [] => None
  | (sk, sv) :: rest => if is_ sv v then Some sk else first_identical v rest
  end.

(** The two nested loops that fill [monitor_keys]. *)
Definition resolve_monitor_keys
    (non_batched_init_state monitor_state : odict (tensor_obj T)) : odict string :=
  foldl (λ monitor_keys '(k, v),
           match first_identical v monitor_state with
           | Some sk => odict_set k sk monitor_keys
           | None => monitor_keys
           end)
        [] non_batched_init_state.

(** The closure [get_monitor_fitness] of [setup], as a function of the
    state that it is given: what it installs in the monitor is what
    [tell_fitness] reads. *)
Definition get_monitor_fitness (monitor : submodule T V) (monitor_keys : odict string)
    (x : gmap string V) : result V :=
  let? final_monitor_state :=
    foldl (λ acc '(k, sk),
             let? st := acc in
             match x !! k with
             | Some v => Ok (<[sk := v]> st)
             | None => Raise KeyError
             end)
          (Ok ∅) monitor_keys in
  tell_fitness monitor final_monitor_state.

(** [setup(self, workflow)] *)
Definition setup (self : unconfigured) (workflow : Workflow T V)
  : M (setup_machine W) (t V W) :=
  let* monitor := lift (get_submodule workflow "monitor") in
  let* _ := lift (assert (isinstance_HPOMonitor monitor)) in
  let monitor_state := state_dict monitor in
  let* state_step := core (CallUseState step) (use_state workflow step) in
  let non_batched_init_state := init_state_items state_step in
  let monitor_keys := resolve_monitor_keys non_batched_init_state monitor_state in
  let* _ := lift (assert (length monitor_keys =? length monitor_state)%nat) in
  let* vmap_state_step := core (CallVmap step) (vmap state_step) in
  let init_state := batched_init_state vmap_state_step (new_num_instances self) in
  let* workflow_step :=
    core (CallJit (Method step)) (jit _ (batched_call vmap_state_step) init_state) in
  let workflow_step := Compiled step workflow_step in
  let* fitness :=
    core (CallJit GetMonitorFitness)
         (jit _ (λ x w, (w, get_monitor_fitness monitor monitor_keys x)) init_state) in
  let* _ := core CallLoadStateDict (load_state_dict monitor monitor_state) in
  (* if type(workflow).init_step == Workflow.init_step *)
  if negb (overrides_init_step workflow) then
    ret (Build (new_iterations self) (new_num_instances self)
               init_state workflow_step workflow_step fitness)
  else
    let* state_init_step := core (CallUseState init_step) (use_state workflow init_step) in
    let* vmap_state_init_step := core (CallVmap init_step) (vmap state_init_step) in
    let init_state' :=
      batched_init_state vmap_state_init_step (new_num_instances self) in
    let* workflow_init_step :=
      core (CallJit (Method init_step))
           (jit _ (batched_call vmap_state_init_step) init_state') in
    ret (Build (new_iterations self) (new_num_instances self)
               init_state' workflow_step (Compiled init_step workflow_init_step)
               fitness).

End Setup.

Section Evaluate.
Context {V W : Type}.

(** [isinstance(v, nn.Parameter)] *)
Variable is_parameter : V → bool.

(** The body of the checking loop of [evaluate]. *)
Definition check_hyper_parameter (self : t V W) (kv : string * V) : result unit :=
  let '(k, v) := kv in
  let? _ := assert (bool_decide (k ∈ dom (init_state self))) in
  match init_state self !! k with
  | Some v0 => assert (is_parameter v0 && is_parameter v)
  | None => Raise KeyError
  end.

(** [evaluate(self, hyper_parameters)] *)
Definition evaluate (self : t V W) (hyper_parameters : gmap string V)
  : M (machine V W) V :=
  let* _ := lift (for_each (map_to_list hyper_parameters)
                           (check_hyper_parameter self)) in
  (* state = self.init_state.copy() *)
  let state := init_state self in
  (* state.update(hyper_parameters) *)
  let state := hyper_parameters ∪ state in
  let* state := invoke (Method (traced_from (_workflow_init_step_ self)))
                       (run (_workflow_init_step_ self)) state in
  let* state :=
    for_loop (range (iterations self - 1))
             (λ _ state, invoke (Method (traced_from (_workflow_step_ self)))
                                (run (_workflow_step_ self)) state)
             state in
  invoke GetMonitorFitness (_get_monitor_fitness_ self) state.

(** [extract_parameters(state)] *)
Definition extract_parameters (state : gmap string V) : gmap string V :=
  filter (λ kv, is_parameter kv.2) state.

End Evaluate.

End HPOProblemWrapper.

(* ===================================================================== *)
(** ** The tracing / batching / compilation layer *)
(* ===================================================================== *)

(** The package [core] ([use_state], [vmap], [jit], [batched_random]) is
    imported by the module but is not part of the sources; the three
    functions are modelled from sections 4.1 to 4.3 of the specification. *)
Module Core.

(** The state of one instance, with tensors in [T]. *)
Abbreviation state T := (gmap string T).

Section Model.
(** [T]: a tensor of one instance; [R]: what one instance draws from the
    random generator during one call; [G]: the state of the generator. *)
Context {T R G : Type}.
Variable draw : G → R * G.


(** A batched tensor: [slices] runs along the leading axis. *)
Record btensor := BTensor {
  parameter : bool;
  slices : list T;
}.

Local Abbreviation bstate := (gmap string btensor).

(** Modelled from the spec: [use_state] (section 4.1) turns a bound
    mutating method into [traced_init], the snapshot of the attributes, and
    [traced_call], the pure transition on snapshots; the transition gets the
    random draws of the call as an argument. *)
Record traced := Traced {
  traced_call : R → state T → state T;
  traced_init : odict (tensor_obj T);
}.

(** Instance [i] of a batched state. *)
Definition slice (i : nat) (bs : bstate) : state T :=
  omap (λ bt, slices bt !! i) bs.

(** The size of the leading axis of every entry. *)
Definition signature (bs : bstate) : gmap string nat :=
  (λ bt, length (slices bt)) <$> bs.

(** The common size of the leading axes; batching needs at least one
    tensor and equal sizes. *)
Definition common_dim (sig : gmap string nat) : option nat :=
  match map_to_list sig with
  | [] => None
  | (_, n) :: _ =>
      if bool_decide (map_Forall (λ _ m, m = n) sig) then Some n else None
  end.

Definition leading_dim (bs : bstate) : option nat := common_dim (signature bs).

(** Stacking the states of the instances along a fresh leading axis; every
    instance has to return the attributes it was given. *)
Definition stack (bs : bstate) (outs : list (state T)) : result bstate :=
  if forallb (λ o, bool_decide (dom o = dom bs)) outs then
    Ok (map_imap (λ k bt,
                    Some (BTensor (parameter bt) (omap (λ o : state T, o !! k) outs)))
                 bs)
  else Raise RuntimeError.

(** Modelled from the spec: [batched_random] (section 4.2), one
    independent draw per batch slot. *)
Fixpoint batched_random (n : nat) (g : G) : list R * G :=
  match n with
  | O => ([], g)
  | S n' =>
      let '(r, g') := draw g in
      let '(rs, g'') := batched_random n' g' in
      (r :: rs, g'')
  end.

(** Modelled from the spec: the function returned by [vmap] (section
    4.2): the transition is applied to every slice on its own, with the
    draws of that slot, and the results are stacked again. *)
Definition vmap_call (f : R → state T → state T)
  : HPOProblemWrapper.callable btensor G bstate :=
  λ bs g,
    match leading_dim bs with
    | None => (g, Raise RuntimeError)
    | Some n =>
        let '(rs, g') := batched_random n g in
        (g', stack bs (imap (λ i r, f r (slice i bs)) rs))
    end.

(** Modelled from the spec: [vmap(f).init_state(batch_size)] (section
    4.2): the snapshot of one instance, repeated [batch_size] times along
    a fresh leading axis. *)
Definition vmap_init_state (snapshot : odict (tensor_obj T)) (batch_size : Z)
  : bstate :=
  list_to_map
    ((λ '(k, o), (k, BTensor (is_param o) (replicate (Z.to_nat batch_size) (value o))))
       <$> snapshot).

Definition vmap (f : traced) : HPOProblemWrapper.batched_fn btensor G :=
  HPOProblemWrapper.BatchedFn (vmap_call (traced_call f))
                              (vmap_init_state (traced_init f)).

(** Modelled from the spec: [jit] (section 4.3): the compiled function
    agrees with the function on the inputs that have the signature of the
    example, and fails loudly on the others. *)
Definition jit (A : Type) (fn : HPOProblemWrapper.callable btensor G A)
    (example_inputs : bstate) : HPOProblemWrapper.callable btensor G A :=
  λ x g,
    if bool_decide (signature x = signature example_inputs) then fn x g
    else (g, Raise RuntimeError).

(** Modelled from the spec: the call [jit(fn, trace=True, example_inputs)]
    (sections 4.3 and 7): the function is specialized "using
    [example_inputs] as a representative call", at setup time: the call is
    made in the world of the tensor library, what it raises is raised by
    [jit], and when it returns the compiled function [jit fn
    example_inputs] is returned. *)
Definition jit_call (A : Type) (fn : HPOProblemWrapper.callable btensor G A)
    (example_inputs : bstate) : M G (HPOProblemWrapper.callable btensor G A) :=
  λ g,
    match fn example_inputs g with
    | (g', Ok _) => (g', Ok (jit A fn example_inputs))
    | (g', Raise e) => (g', Raise e)
    end.

(** Modelled from the spec: [use_state(lambda: workflow.m)] for a workflow
    whose methods [step] and [init_step] act on the attributes as
    [step_body] and [init_step_body], and whose attributes are [attributes].
    Without an [init_step] of its own the workflow inherits the default one,
    which does nothing. *)
Definition use_state (step_body init_step_body : R → state T → state T)
    (attributes : odict (tensor_obj T))
    (workflow : Workflow T btensor) (m : method) : traced :=
  match m with
  | step => Traced step_body attributes
  | init_step =>
      Traced (if overrides_init_step workflow then init_step_body else λ _ s, s)
             attributes
  end.

(** Modelled from the spec: the call of [use_state] (section 4.1) builds
    its result without running the procedure, and leaves the world [G] of
    the tensor library as it is. *)
Definition use_state_call (step_body init_step_body : R → state T → state T)
    (attributes : odict (tensor_obj T))
    (workflow : Workflow T btensor) (m : method) : M G traced :=
  ret (use_state step_body init_step_body attributes workflow m).

(** Modelled from the spec: the call of [vmap] (section 4.2), likewise. *)
Definition vmap_call_of (f : traced) : M G (HPOProblemWrapper.batched_fn btensor G) :=
  ret (vmap f).

(** Modelled from the spec: [monitor.load_state_dict(state)] (section
    4.5) installs a state in the monitor object, which is no part of the
    world [G]. *)
Definition load_state_dict (monitor : submodule T btensor)
    (state_dict : odict (tensor_obj T)) : M G unit :=
  ret ().

End Model.
Arguments btensor : clear implicits.
Arguments traced : clear implicits.

(** A batched state. *)
Abbreviation bstate T := (gmap string (btensor T)).

End Core.

(* ===================================================================== *)
(** ** [evaluate] on the object store *)
(* ===================================================================== *)

(** The same method with the dictionaries and tensors as objects in a
    store, to see what a call writes: [self.init_state] and
    [hyper_parameters] are references to dictionary objects, whose values
    are references to tensor objects; [copy()] allocates a dictionary,
    [update()] writes into one. *)
Module Store.

Section Heap.
(** [W]: the state of the tensor library besides the objects, such as its
    random generator; [D]: the content of a tensor object. *)
Context {W D : Type}.

(** Objects are found by address; allocation appends. *)
Record heap := Heap {
  library : W;
  tensors : list D;
  dicts : list (gmap string nat);
}.

(** A compiled function: it gets the address of a dictionary. *)
Definition callable : Type := nat → heap → heap * result nat.

Record t := Build {
  iterations : Z;
  init_state : nat;
  _workflow_step_ : callable;
  _workflow_init_step_ : callable;
  _get_monitor_fitness_ : callable;
}.

(** [isinstance(v, nn.Parameter)] *)
Variable is_parameter : D → bool.

Definition read_dict (l : nat) : M heap (gmap string nat) :=
  λ h, (h, match dicts h !! l with
           | Some d => Ok d
           | None => Raise RuntimeError
           end).

Definition read_tensor (a : nat) : M heap D :=
  λ h, (h, match tensors h !! a with
           | Some x => Ok x
           | None => Raise RuntimeError
           end).

(** [d.copy()]: a new dictionary object with the same keys, bound to the
    same tensor objects. *)
Definition dict_copy (l : nat) : M heap nat :=
  let* d := read_dict l in
  λ h, (Heap (library h) (tensors h) (dicts h ++ [d]), Ok (length (dicts h))).

(** [d.update(other)]: writes into the dictionary object [d]. *)
Definition dict_update (l other : nat) : M heap unit :=
  let* d := read_dict l in
  let* o := read_dict other in
  λ h, (Heap (library h) (tensors h) (<[l := o ∪ d]> (dicts h)), Ok ()).

Definition check_hyper_parameter (self : t) (kv : string * nat) : M heap unit :=
  let '(k, v) := kv in
  let* init := read_dict (init_state self) in
  let* _ := lift (assert (bool_decide (k ∈ dom init))) in
  match init !! k with
  | Some v0 =>
      let* x0 := read_tensor v0 in
      let* x := read_tensor v in
      lift (assert (is_parameter x0 && is_parameter x))
  | None => raise KeyError
  end.

Definition evaluate (self : t) (hyper_parameters : nat) : M heap nat :=
  let* hp := read_dict hyper_parameters in
  let* _ := for_loop (map_to_list hp)
                     (λ kv _, check_hyper_parameter self kv) () in
  let* state := dict_copy (init_state self) in
  let* _ := dict_update state hyper_parameters in
  let* state := _workflow_init_step_ self state in
  let* state := for_loop (range (iterations self - 1))
                         (λ _ state, _workflow_step_ self state) state in
  _get_monitor_fitness_ self state.

(** Every object of [h] is still there, unchanged, in [h']. *)
Definition preserved (h h' : heap) : Prop :=
  tensors h `prefix_of` tensors h' ∧ dicts h `prefix_of` dicts h'.

(** A compiled function is pure: it reads its argument and allocates its
    result, and writes to no object that exists; it may draw from the
    random generator. *)
Definition pure_callable (f : callable) : Prop :=
  ∀ l h, preserved h (f l h).1.

End Heap.
Arguments heap : clear implicits.
Arguments callable : clear implicits.
Arguments t : clear implicits.

End Store.

(* ===================================================================== *)
(** ** [GenesisProblem] *)
(* ===================================================================== *)

(** [evox/problems/neuroevolution/genesis.py].  The simulator, the
    environment classes and the batched policy are not part of the module:
    the environment object is a state [Env] with its methods [reset] and
    [step], the policy is the function [vmap_state_forward].  Tensors of
    rewards and of done flags are the sequences of their elements; the
    tensors of observations and of actions are kept abstract, with the
    [view] calls that reshape them. *)
Module GenesisProblem.

(** What a call can raise: the exceptions of [exn], the [StopIteration]
    of [next] on an exhausted iterator, and the [IndexError] of [size(0)]
    on a tensor without dimensions. *)
Inductive raised :=
  | Builtin (e : exn)
  | StopIteration
  | IndexError.

(** [t.view(n)]: the number of elements has to be [n]. *)
Definition view {A} (n : nat) (t : list A) : raised + list A :=
  if (length t =? n)%nat then inr t else inl (Builtin RuntimeError).

(** [t.view(rows, cols)] for a [t] of [rows * cols] elements. *)
Definition view2 {A} (rows cols : nat) (t : list A) : list (list A) :=
  (λ i, take cols (drop (i * cols) t)) <$> seq 0 rows.

(** [t.all()] *)
Definition tensor_all (t : list bool) : bool := forallb id t.

(** [a | b] on dictionaries: the entries of [a] in their order, with the
    value of [b] where [b] has the key, followed by the other entries of
    [b]. *)
Definition merge {A} (a b : odict A) : odict A :=
  foldl (λ d '(k, v), odict_set k v d) a b.

Section Problem.
(** [P]: a batched tensor of the model state; [Obs], [Act]: the tensors of
    observations and of actions; [R]: a reward; [F]: what [reduce_fn]
    returns. *)
Context {Env P Obs Act R F : Type}.

(** [self.env.reset()] and [self.env.step(action)], which returns the
    observations, the rewards and the done flags. *)
Variable env_reset : Env → Env * Obs.
Variable env_step : Act → Env → Env * (Obs * list R * list bool).
(** [self.vmap_state_forward] *)
Variable vmap_state_forward : odict P → Obs → odict P * Act.
(** [obs.view(pop_size, num_episodes, -1)] and [action.view(n, -1)]:
    [None] when the tensor cannot be viewed in this shape, and the call
    raises. *)
Variable view_obs : nat → nat → Obs → option Obs.
Variable view_action : nat → Act → option Act.
(** [t.size(0)]: [None] for a tensor without dimensions, on which the
    call raises. *)
Variable size0 : P → option nat.
(** The zero of [torch.zeros] and the addition of [+=]. *)
Variable zero : R.
Variable add : R → R → R.
(** [self.reduce_fn(rewards, dim=-1)] *)
Variable reduce_fn : list (list R) → F.

(** The attributes that [__init__] stores, apart from the environment and
    the policy. *)
Record t := Build {
  pop_size : nat;
  num_episodes : nat;
  max_episode_length : Z;
  vmap_init_state : odict P;
}.

(** The [while] loop of [_evaluate_gene].  [remaining] is
    [max_episode_length - counter]: the test [counter < max_episode_length]
    is [remaining > 0], and [counter += 1] takes one off. *)
Fixpoint rollout (self : t) (remaining : nat) (model_state : odict P) (obs : Obs)
    (done_array : list bool) (total_reward : list R) (env : Env)
  : Env * (raised + odict P * list R) :=
  match remaining with
  | O => (env, inr (model_state, total_reward))
  | S remaining =>
      if tensor_all done_array then (env, inr (model_state, total_reward))
      else
        match view_obs (pop_size self) (num_episodes self) obs with
        | None => (env, inl (Builtin RuntimeError))
        | Some shaped =>
            let '(model_state, action) := vmap_state_forward model_state shaped in
            match view_action (pop_size self * num_episodes self) action with
            | None => (env, inl (Builtin RuntimeError))
            | Some action =>
                let '(env, (obs, reward, done)) := env_step action env in
                match view (pop_size self * num_episodes self) done with
                | inl e => (env, inl e)
                | inr done =>
                    let done_array := zip_with orb done_array done in
                    match view (pop_size self * num_episodes self) reward with
                    | inl e => (env, inl e)
                    | inr reward =>
                        let total_reward := zip_with add total_reward reward in
                        rollout self remaining model_state obs done_array
                                total_reward env
                    end
                end
            end
        end
  end.

(** [_evaluate_gene(self, model_state)] *)
Definition _evaluate_gene (self : t) (model_state : odict P) (env : Env)
  : Env * (raised + odict P * list (list R)) :=
  (* pop_size = next(iter(model_state.values())).size(0) *)
  match model_state with
  | [] => (env, inl StopIteration)
  | (_, first) :: _ =>
      match size0 first with
      | None => (env, inl IndexError)
      | Some actual =>
          if negb (actual =? pop_size self)%nat
          then (env, inl (Builtin AssertionError))
          else
            let done_array := replicate (pop_size self * num_episodes self) false in
            let total_reward := replicate (pop_size self * num_episodes self) zero in
            let '(env, obs) := env_reset env in
            match rollout self (Z.to_nat (max_episode_length self)) model_state obs
                          done_array total_reward env with
            | (env, inl e) => (env, inl e)
            | (env, inr (model_state, total_reward)) =>
                (env, inr (model_state,
                           view2 (pop_size self) (num_episodes self) total_reward))
            end
      end
  end.

(** [evaluate(self, pop_params)]; the [print] of the rewards has no
    counterpart. *)
Definition evaluate (self : t) (pop_params : odict P) (env : Env)
  : Env * (raised + F) :=
  let model_state := merge (vmap_init_state self) pop_params in
  match _evaluate_gene self model_state env with
  | (env, inl e) => (env, inl e)
  | (env, inr (_, rewards)) => (env, inr (reduce_fn rewards))
  end.

End Problem.
Arguments t : clear implicits.

End GenesisProblem.

(* ===================================================================== *)
(** ** [HoverEnv]: the flags and the counters *)
(* ===================================================================== *)

(** [evox/problems/neuroevolution/Genv/hover.py].  The scene, the drone
    and the buffers of floats that are computed from them (positions,
    commands, actions, rewards, observations, logs) are one component
    [Phys] of the object, with the code that works on them as functions;
    the flags [done] and [reset_buf] and the counter [episode_length_buf]
    are modelled element by element. *)
Module HoverEnv.

(** [math.ceil(x)] of a finite float. *)
Definition ceil (x : spec_float) : option Z :=
  match x with
  | S754_zero _ => Some 0%Z
  | S754_finite s m e =>
      let v := if s then Z.neg m else Z.pos m in
      Some (if (0 <=? e)%Z then v * 2 ^ e else - ((- v) / 2 ^ (- e)))%Z
  | _ => None
  end.

(** The binary64 values of [env_cfg["episode_length_s"] = 15.0] and of
    [self.dt = 0.01]. *)
Definition episode_length_s : spec_float := S754_finite false 8444249301319680 (-49).
Definition dt : spec_float := S754_finite false 5764607523034235 (-59).

(** [t[idx] = a] for a tensor of indices that are in range. *)
Definition assign {A} (idx : list nat) (a : A) (t : list A) : list A :=
  foldr (λ i t, <[i := a]> t) t idx.

(** [t.nonzero(as_tuple=False).flatten()]: the indices of the elements
    that are true, in order. *)
Definition nonzero (t : list bool) : list nat :=
  omap (λ '(i, b), if b : bool then Some i else None) (imap pair t).

Section Env.
Context {Phys Act Obs R : Type}.

(** The first part of [step]: the actions are clipped and sent to the
    propellers, the scene advances, position, attitude and velocities are
    read back, the commands of the drones at their target are drawn again. *)
Variable advance : Act → Phys → Phys.
(** The tensor [self.crash_condition] that [step] computes next. *)
Variable crash_condition : Phys → list bool.
(** What [reset_idx] does to the drones, the float buffers, the logs and
    the commands of the environments [envs_idx]. *)
Variable reset_phys : list nat → Phys → Phys.
(** The last part of [step]: the rewards, the observations and
    [last_actions]. *)
Variable observe : Phys → Phys.
Variable obs_buf : Phys → Obs.
Variable rew_buf : Phys → list R.

Record t := Build {
  num_envs : nat;
  done : list bool;
  max_episode_length : Z;
  (** created as a tensor of ones, later a tensor of booleans *)
  reset_buf : list bool;
  episode_length_buf : list Z;
  (** [extras["time_outs"]], with true for 1.0; absent before the first
      [step] *)
  time_outs : option (list bool);
  phys : Phys;
}.

(** [reset_idx(self, envs_idx)] *)
Definition reset_idx (envs_idx : list nat) (self : t) : t :=
  if (length envs_idx =? 0)%nat then self
  else
    Build (num_envs self) (done self) (max_episode_length self)
          (assign envs_idx true (reset_buf self))
          (assign envs_idx 0%Z (episode_length_buf self))
          (time_outs self)
          (reset_phys envs_idx (phys self)).

(** [build_env(self)]; [self.envs_idx] is [torch.arange(self.num_envs)]. *)
Definition build_env (self : t) : t :=
  reset_idx (seq 0 (num_envs self)) self.

(** [__init__(self, device, num_envs, vis)], given what the construction
    of the scene leaves in [Phys]. *)
Definition __init__ (num_envs : nat) (scene : Phys) : option t :=
  max_episode_length ← ceil (SFdiv 53 1024 episode_length_s dt);
  Some (build_env
          (Build num_envs (replicate num_envs false) max_episode_length
                 (replicate num_envs true) (replicate num_envs 0%Z) None scene)).

(** [reset(self)] *)
Definition reset (self : t) : t * Obs :=
  let self :=
    Build (num_envs self) (done self) (max_episode_length self)
          ((λ _, true) <$> reset_buf self) (episode_length_buf self)
          (time_outs self) (phys self) in
  let self := reset_idx (seq 0 (num_envs self)) self in
  (self, obs_buf (phys self)).

(** [step(self, actions)] *)
Definition step (actions : Act) (self : t) : t * (Obs * list R * list bool) :=
  let phys1 := advance actions (phys self) in
  (* self.episode_length_buf += 1 *)
  let episode_length_buf1 := Z.succ <$> episode_length_buf self in
  let time_out := (λ c, max_episode_length self <? c)%Z <$> episode_length_buf1 in
  let reset_buf1 := zip_with orb time_out (crash_condition phys1) in
  let self :=
    reset_idx (nonzero reset_buf1)
      (Build (num_envs self) (done self) (max_episode_length self)
             reset_buf1 episode_length_buf1 (Some time_out) phys1) in
  let phys2 := observe (phys self) in
  let self :=
    Build (num_envs self) (done self) (max_episode_length self)
          (reset_buf self) (episode_length_buf self) (time_outs self) phys2 in
  (self, (obs_buf phys2, rew_buf phys2, done self)).

(** One call from outside: [step] with its actions, or [reset]. *)
Definition call (self : t) (c : option Act) : t :=
  match c with
  | Some actions => (step actions self).1
  | None => (reset self).1
  end.

End Env.
Arguments t : clear implicits.

End HoverEnv.

(* ===================================================================== *)
(** ** Vocabulary of the properties *)
(* ===================================================================== *)

(** A non-NaN float as a triple that is compared lexicographically: the
    class (minus infinity, negative, zero, positive, plus infinity), then
    the exponent, then the mantissa, both counted downwards for negative
    numbers. *)
Definition float_key (x : spec_float) : Z * Z * Z :=
  match x with
  | S754_nan => (0, 0, 0)
  | S754_zero _ => (0, 0, 0)
  | S754_infinity true => (-2, 0, 0)
  | S754_infinity false => (2, 0, 0)
  | S754_finite true m e => (-1, - e, Z.neg m)
  | S754_finite false m e => (1, e, Z.pos m)
  end%Z.

Definition lex_compare (a b : Z * Z * Z) : comparison :=
  match (a.1.1 ?= b.1.1)%Z with
  | Eq => match (a.1.2 ?= b.1.2)%Z with
          | Eq => (a.2 ?= b.2)%Z
          | c => c
          end
  | c => c
  end.

Definition lex_le (a b : Z * Z * Z) : Prop :=
  (a.1.1 < b.1.1 ∨
   (a.1.1 = b.1.1 ∧ (a.1.2 < b.1.2 ∨ (a.1.2 = b.1.2 ∧ a.2 ≤ b.2))))%Z.

(** The elements of a one-dimensional tensor of floats. *)
Definition floats (fitness : Tensor) : list spec_float :=
  match fitness with
  | Vector xs | Vector64 xs => xs
  | _ => []
  end.

(** A fitness argument of [pre_tell] that is one-dimensional, of a
    floating-point dtype, and free of NaN. *)
Definition nan_free_vector (fitness : Tensor) : Prop :=
  match fitness with
  | Vector xs | Vector64 xs => Forall (λ x, is_nan x = false) xs
  | _ => False
  end.

(** The number [m * 2 ^ e] as a float, when binary64 has it. *)
Definition dyadic (m e : Z) : spec_float := binary_normalize 53 1024 m e false.

(** "Apply the ordinary compiled step [n] more times, sequentially, each
    consuming the previous output state": [sequential_steps f n (w, s)
    (w', s') inputs] says that [n] successful calls of [f] lead from the
    state [s] in the world [w] to [s'] in [w'], and that [inputs] are the
    arguments of these calls, in order. *)
Inductive sequential_steps {V W : Type}
    (f : HPOProblemWrapper.callable V W (gmap string V))
  : nat → W * gmap string V → W * gmap string V → list (gmap string V) → Prop :=
  | sequential_steps_O ws : sequential_steps f 0 ws ws []
  | sequential_steps_S n w s w1 s1 ws' inputs :
      f s w = (w1, Ok s1) →
      sequential_steps f n (w1, s1) ws' inputs →
      sequential_steps f (S n) (w, s) ws' (s :: inputs).

(** The entries that the two loops of the resolver record when the keys
    of the state are pairwise different, in the order of the state. *)
Definition recorded {T} (nb ms : odict (tensor_obj T)) : odict string :=
  omap (λ '(k, v), (k,.) <$> HPOProblemWrapper.first_identical v ms) nb.

(** Every buffer of the monitor is, as an object, a value of the state. *)
Definition all_reachable {T} (nb ms : odict (tensor_obj T)) : Prop :=
  ∀ sk sv, (sk, sv) ∈ ms → ∃ k v, (k, v) ∈ nb ∧ addr v = addr sv.

(** No object is held under two keys. *)
Definition no_aliasing {T} (d : odict (tensor_obj T)) : Prop :=
  NoDup ((addr ∘ snd) <$> d).


(** What instance [j] contributes to a batched tensor, together with what
    all instances share: the kind and the size of the leading axis. *)
Definition view {T} (j : nat) (bt : Core.btensor T) : bool * nat * option T :=
  (Core.parameter bt, length (Core.slices bt), Core.slices bt !! j).





(** [compiles use_state vmap jit wf meth n w w' st init f]: from the
    world [w], the calls that trace the method [meth] of the workflow,
    batch it and compile it on the initial state of [n] instances return,
    in this order, and leave the world [w']; [st] is the traced method,
    [init] the batched initial state, [f] the compiled function. *)
Definition compiles {T V W traced : Type}
    (use_state : Workflow T V → method → M W traced)
    (vmap : traced → M W (HPOProblemWrapper.batched_fn V W))
    (jit : ∀ A : Type, HPOProblemWrapper.callable V W A → gmap string V
                       → M W (HPOProblemWrapper.callable V W A))
    (wf : Workflow T V) (meth : method) (n : Z) (w w' : W) (st : traced)
    (init : gmap string V) (f : HPOProblemWrapper.callable V W (gmap string V))
  : Prop :=
  ∃ w1 w2 bf,
    use_state wf meth w = (w1, Ok st)
    ∧ vmap st w1 = (w2, Ok bf)
    ∧ init = HPOProblemWrapper.batched_init_state bf n
    ∧ jit _ (HPOProblemWrapper.batched_call bf) init w2 = (w', Ok f).

(** A part of [setup] that only adds to the record of the calls. *)
Definition records {W A} (c : M (HPOProblemWrapper.setup_machine W) A) : Prop :=
  ∀ m, ∃ l, HPOProblemWrapper.core_calls (c m).1
            = HPOProblemWrapper.core_calls m ++ l.

(** [setup] over the modelled core layer. *)
Definition model_setup {T R G} (draw : G → R * G)
    (step_body init_step_body : R → Core.state T → Core.state T)
    (attributes : odict (tensor_obj T)) :=
  HPOProblemWrapper.setup (Core.traced T R)
    (Core.use_state_call step_body init_step_body attributes)
    Core.traced_init (Core.vmap_call_of draw) Core.jit_call Core.load_state_dict.


(** The state that a dictionary object stands for: every key with the
    content of the tensor object it is bound to. *)
Definition contents {W D} (h : Store.heap W D) (d : gmap string nat)
  : gmap string D :=
  omap (λ a, Store.tensors h !! a) d.

(** The dictionary object at address [l] exists, refers to tensor objects
    that exist, and stands for the state [x]. *)
Definition represents {W D} (h : Store.heap W D) (l : nat) (x : gmap string D)
  : Prop :=
  ∃ d, Store.dicts h !! l = Some d
       ∧ map_Forall (λ _ a, a < length (Store.tensors h)) d
       ∧ x = contents h d.

(** A compiled function on the store that does what a function on states
    does: from a dictionary that stands for [x] it leaves the library in
    the same state, writes to no object that exists, and raises the same
    exception or returns an object that stands for the same result. *)
Definition implements {W D A} (stands_for : Store.heap W D → nat → A → Prop)
    (sf : Store.callable W D) (f : HPOProblemWrapper.callable D W A) : Prop :=
  ∀ h l x, represents h l x →
    Store.library (sf l h).1 = (f x (Store.library h)).1
    ∧ Store.preserved h (sf l h).1
    ∧ match (f x (Store.library h)).2, (sf l h).2 with
      | Ok y, Ok l' => stands_for (sf l h).1 l' y
      | Raise e, Raise e' => e = e'
      | _, _ => False
      end.

(** The tensor object at address [a] has the content [v]. *)
Definition holds {W D} (h : Store.heap W D) (a : nat) (v : D) : Prop :=
  Store.tensors h !! a = Some v.

(** A run on the states and a run on the store with the same outcome:
    the library ends in the same state, and both raise the same exception
    or the returned object stands for the returned value. *)
Definition corresponds {V W D A} (stands_for : Store.heap W D → nat → A → Prop)
    (vr : HPOProblemWrapper.machine V W * result A)
    (sr : Store.heap W D * result nat) : Prop :=
  Store.library sr.1 = HPOProblemWrapper.world vr.1
  ∧ match vr.2, sr.2 with
    | Ok y, Ok l => stands_for sr.1 l y
    | Raise e, Raise e' => e = e'
    | _, _ => False
    end.

(** Allocating the tensors of a state, and the dictionary that binds its
    keys to them. *)
Definition alloc_state {W D} (x : gmap string D) (h : Store.heap W D)
  : Store.heap W D * nat :=
  let entries := map_to_list x in
  let d := list_to_map (zip entries.*1
                            (seq (length (Store.tensors h)) (length entries))) in
  (Store.Heap (Store.library h) (Store.tensors h ++ entries.*2)
              (Store.dicts h ++ [d]),
   length (Store.dicts h)).

(** A function from states to states as a compiled function on the store:
    it reads the dictionary it is given and the tensors this refers to,
    and allocates its result. *)
Definition on_store {W D} (f : HPOProblemWrapper.callable D W (gmap string D))
  : Store.callable W D :=
  λ l h,
    match Store.dicts h !! l with
    | None => (h, Raise RuntimeError)
    | Some d =>
        let '(w', r) := f (contents h d) (Store.library h) in
        let h1 := Store.Heap w' (Store.tensors h) (Store.dicts h) in
        match r with
        | Ok y => let '(h2, l') := alloc_state y h1 in (h2, Ok l')
        | Raise e => (h1, Raise e)
        end
    end.

(** The same for a function from states to tensors. *)
Definition tensor_on_store {W D} (f : HPOProblemWrapper.callable D W D)
  : Store.callable W D :=
  λ l h,
    match Store.dicts h !! l with
    | None => (h, Raise RuntimeError)
    | Some d =>
        let '(w', r) := f (contents h d) (Store.library h) in
        match r with
        | Ok v => (Store.Heap w' (Store.tensors h ++ [v]) (Store.dicts h),
                   Ok (length (Store.tensors h)))
        | Raise e => (Store.Heap w' (Store.tensors h) (Store.dicts h), Raise e)
        end
    end.

(** The object after [setup], with its stored initial state at address
    [l] and its compiled functions on the store. *)
Definition wrapper_on_store {W D} (self : HPOProblemWrapper.t D W) (l : nat)
  : Store.t W D :=
  Store.Build (HPOProblemWrapper.iterations self) l
    (on_store (HPOProblemWrapper.run (HPOProblemWrapper._workflow_step_ self)))
    (on_store (HPOProblemWrapper.run (HPOProblemWrapper._workflow_init_step_ self)))
    (tensor_on_store (HPOProblemWrapper._get_monitor_fitness_ self)).

(** The floats that the single-objective calls of [pre_tell] have shown
    to the monitor, in order. *)
Definition seen (calls : list Tensor) : list spec_float :=
  flat_map floats calls.

(** The integers that the single-objective calls of [pre_tell] on integer
    tensors have shown to the monitor, in order. *)
Definition seen_ints (calls : list Tensor) : list Z :=
  flat_map (λ f, match f with IntVector zs => zs | _ => [] end) calls.


(** [b] is an element of [l] that is below every element of [l]. *)
Definition least (b : spec_float) (l : list spec_float) : Prop :=
  b ∈ l ∧ ∀ x, x ∈ l → SFleb b x = true.

(** [turns view_obs forward view_action env_step k c c' rewards dones]:
    [k] turns of the policy and the environment lead from the
    configuration [c] (the environment, the model state, the observations)
    to [c'], and the environment has returned [rewards] and [dones], oldest
    first.  In a turn the observations are viewed in the shape of the
    policy, the policy runs, its actions are viewed in the shape of the
    environment, and the environment makes a step. *)
Inductive turns {Env P Obs Act R : Type}
    (view_obs : Obs → option Obs)
    (vmap_state_forward : odict P → Obs → odict P * Act)
    (view_action : Act → option Act)
    (env_step : Act → Env → Env * (Obs * list R * list bool))
  : nat → Env * odict P * Obs → Env * odict P * Obs
    → list (list R) → list (list bool) → Prop :=
  | turns_O c : turns view_obs vmap_state_forward view_action env_step 0 c c [] []
  | turns_S k env ms obs shaped ms1 action flat env1 obs1 reward done c'
            rewards dones :
      view_obs obs = Some shaped →
      vmap_state_forward ms shaped = (ms1, action) →
      view_action action = Some flat →
      env_step flat env = (env1, (obs1, reward, done)) →
      turns view_obs vmap_state_forward view_action env_step k (env1, ms1, obs1) c'
            rewards dones →
      turns view_obs vmap_state_forward view_action env_step (S k) (env, ms, obs) c'
            (reward :: rewards) (done :: dones).

(** [failed_turn view_obs forward view_action env_step n c env']: the turn
    from the configuration [c] is stopped by a [view] that raises, and
    leaves the environment [env']: the observations cannot be viewed (the
    policy has not run), or the actions cannot be viewed (the policy has
    run, the environment has not made the step), or the environment has
    made the step and returned done flags or rewards that are not [n]. *)
Inductive failed_turn {Env P Obs Act R : Type}
    (view_obs : Obs → option Obs)
    (vmap_state_forward : odict P → Obs → odict P * Act)
    (view_action : Act → option Act)
    (env_step : Act → Env → Env * (Obs * list R * list bool))
    (n : nat)
  : Env * odict P * Obs → Env → Prop :=
  | failed_view_obs env ms obs :
      view_obs obs = None →
      failed_turn view_obs vmap_state_forward view_action env_step n
                  (env, ms, obs) env
  | failed_view_action env ms obs shaped ms1 action :
      view_obs obs = Some shaped →
      vmap_state_forward ms shaped = (ms1, action) →
      view_action action = None →
      failed_turn view_obs vmap_state_forward view_action env_step n
                  (env, ms, obs) env
  | failed_view_result env ms obs shaped ms1 action flat env1 obs1 reward done :
      view_obs obs = Some shaped →
      vmap_state_forward ms shaped = (ms1, action) →
      view_action action = Some flat →
      env_step flat env = (env1, (obs1, reward, done)) →
      length done ≠ n ∨ length reward ≠ n →
      failed_turn view_obs vmap_state_forward view_action env_step n
                  (env, ms, obs) env1.

(** The flags of [done_array] after the environment has returned [dones]:
    a flag that was set stays set. *)
Definition latched (done_array : list bool) (dones : list (list bool)) : list bool :=
  foldl (zip_with orb) done_array dones.

(** The sums of [total_reward] after the environment has returned
    [rewards]: every reward of every turn is added. *)
Definition summed {R} (add : R → R → R) (total_reward : list R)
    (rewards : list (list R)) : list R :=
  foldl (zip_with add) total_reward rewards.

(** What the calls of [HoverEnv] keep true of the flags and the counters
    of an object with [n] environments. *)
Definition hover_inv {Phys} (n : nat) (s : HoverEnv.t Phys) : Prop :=
  HoverEnv.num_envs s = n
  ∧ HoverEnv.max_episode_length s = 1500%Z
  ∧ HoverEnv.done s = replicate n false
  ∧ length (HoverEnv.episode_length_buf s) = n
  ∧ length (HoverEnv.reset_buf s) = n
  ∧ Forall (λ c, 0 ≤ c ≤ 1500)%Z (HoverEnv.episode_length_buf s)
  ∧ ∀ i, HoverEnv.reset_buf s !! i = Some true
         ↔ HoverEnv.episode_length_buf s !! i = Some 0%Z.

(* ===================================================================== *)
(** ** A small workflow, for the examples *)
(* ===================================================================== *)

(** The workflow of the unit test in miniature: tensors are integers, the
    algorithm has the parameters [lb] and [ub] and the buffer [fit], the
    monitor has the buffer [best_fitness]; a step draws an individual
    between the bounds, squares it, and the monitor keeps the minimum. *)
Module Demo.

Definition draw (g : Z) : Z * Z :=
  let g' := ((g * 5 + 3) mod 16)%Z in (g', g').

Definition best : tensor_obj Z := TensorObj 4 false 1000%Z.

Definition attributes : odict (tensor_obj Z) :=
  [("algorithm.lb", TensorObj 1 true (-10)%Z);
   ("algorithm.ub", TensorObj 2 true 10%Z);
   ("algorithm.fit", TensorObj 3 false 0%Z);
   ("monitor.best_fitness", best)].

Definition step_body (r : Z) (s : Core.state Z) : Core.state Z :=
  match s !! "algorithm.lb", s !! "algorithm.ub" with
  | Some lb, Some ub =>
      let pop := (lb + r * (ub - lb) / 16)%Z in
      let fit := (pop * pop)%Z in
      alter (λ _, fit) "algorithm.fit"
        (alter (λ b, Z.min fit b) "monitor.best_fitness" s)
  | _, _ => s
  end.

Definition monitor : submodule Z (Core.btensor Z) := HPOFitnessMonitor_obj best.

Definition workflow : Workflow Z (Core.btensor Z) :=
  MkWorkflow {["monitor" := monitor]} false.

(** The same workflow with an [init_step] of its own. *)
Definition workflow_with_init_step : Workflow Z (Core.btensor Z) :=
  MkWorkflow {["monitor" := monitor]} true.

(** A workflow whose monitor is a plain [Monitor]. *)
Definition workflow_with_plain_monitor : Workflow Z (Core.btensor Z) :=
  MkWorkflow
    {["monitor" := Submodule ["Monitor"; "object"] []
                     [] HPOMonitor_tell_fitness]}
    false.

Definition setup :=
  model_setup draw step_body step_body attributes.

(** [HPOProblemWrapper(iterations=3, num_instances=2)] *)
Definition cfg : HPOProblemWrapper.unconfigured :=
  HPOProblemWrapper.Unconfigured 3 2.

(** The object that [setup] builds for [workflow]. *)
Definition wrapper : HPOProblemWrapper.t (Core.btensor Z) Z :=
  let init := Core.vmap_init_state attributes 2 in
  let workflow_step :=
    HPOProblemWrapper.Compiled step
      (Core.jit _ (Core.vmap_call draw step_body) init) in
  HPOProblemWrapper.Build 3 2 init workflow_step workflow_step
    (Core.jit _
       (λ x w, (w, HPOProblemWrapper.get_monitor_fitness monitor
                     [("monitor.best_fitness", "best_fitness")] x))
       init).

(** The object that [setup] builds for [workflow_with_init_step]. *)
Definition wrapper_with_init_step : HPOProblemWrapper.t (Core.btensor Z) Z :=
  HPOProblemWrapper.Build 3 2
    (HPOProblemWrapper.init_state wrapper)
    (HPOProblemWrapper._workflow_step_ wrapper)
    (HPOProblemWrapper.Compiled init_step
       (HPOProblemWrapper.run (HPOProblemWrapper._workflow_step_ wrapper)))
    (HPOProblemWrapper._get_monitor_fitness_ wrapper).

(** Hyperparameters for two instances, and the same with another lower
    bound for instance 0. *)
Definition hyper_parameters : Core.bstate Z :=
  {["algorithm.lb" := Core.BTensor true [-10; -4]%Z]}.

Definition hyper_parameters' : Core.bstate Z :=
  {["algorithm.lb" := Core.BTensor true [-7; -4]%Z]}.

(** The store of the same objects: the generator in state 2, the tensors
    by address, the dictionary [init_state] at address 0 and the
    dictionary of the caller at address 1. *)
Definition heap : Store.heap Z (Core.btensor Z) :=
  Store.Heap 2%Z
    [Core.BTensor true [-10; -10]%Z; Core.BTensor true [10; 10]%Z;
     Core.BTensor false [0; 0]%Z; Core.BTensor false [1000; 1000]%Z;
     Core.BTensor true [-10; -4]%Z]
    [{["algorithm.lb" := 0; "algorithm.ub" := 1; "algorithm.fit" := 2;
       "monitor.best_fitness" := 3]};
     {["algorithm.lb" := 4]}].

(** [wrapper] with its stored initial state at address 0. *)
Definition store_wrapper : Store.t Z (Core.btensor Z) :=
  wrapper_on_store wrapper 0.

(** A compiled step that works in place: it writes the lower bounds into
    the tensor object that the dictionary binds to ["algorithm.fit"], and
    returns the dictionary that it was given. *)
Definition in_place_step : Store.callable Z (Core.btensor Z) :=
  λ l h,
    match Store.dicts h !! l with
    | Some d =>
        match d !! "algorithm.fit",
              d !! "algorithm.lb" ≫= (λ a, Store.tensors h !! a) with
        | Some a, Some lb =>
            (Store.Heap (Store.library h)
                        (<[a := Core.BTensor false (Core.slices lb)]> (Store.tensors h))
                        (Store.dicts h),
             Ok l)
        | _, _ => (h, Raise KeyError)
        end
    | None => (h, Raise RuntimeError)
    end.

(** [store_wrapper] with this step as its two step functions. *)
Definition in_place_wrapper : Store.t Z (Core.btensor Z) :=
  Store.Build 3 0 in_place_step in_place_step
    (Store._get_monitor_fitness_ store_wrapper).

End Demo.

(* ===================================================================== *)
(** ** A small rollout, for the examples *)
(* ===================================================================== *)

(** A policy and environments for two instances.  A tensor of the model
    state is given by the size of its leading axis, if it has one; the
    environment counts its steps; the policy answers an observation with
    the next number. *)
Module RolloutDemo.

Definition forward (ms : odict (option nat)) (obs : Z) : odict (option nat) * Z :=
  (ms, (obs + 1)%Z).

(** Observations and actions are numbers, of which every view exists. *)
Definition view_obs (pop_size num_episodes : nat) (obs : Z) : option Z := Some obs.
Definition view_action (n : nat) (action : Z) : option Z := Some action.

(** Actions that cannot be viewed as one row for each instance. *)
Definition no_view_action (n : nat) (action : Z) : option Z := None.

Definition env_reset (e : nat) : nat * Z := (0, 0%Z).

(** The first instance is done from the first step on, the second from
    the second step on; a step pays the action to the first instance and 1
    to the second. *)
Definition env_step (a : Z) (e : nat) : nat * (Z * list Z * list bool) :=
  (S e, (a, [a; 1%Z], [true; bool_decide (1 ≤ e)%nat])).

(** An environment that returns the reward of one instance only. *)
Definition short_step (a : Z) (e : nat) : nat * (Z * list Z * list bool) :=
  (S e, (a, [a], [true; false])).

(** An environment that never reports an instance done. *)
Definition quiet_step (a : Z) (e : nat) : nat * (Z * list Z * list bool) :=
  (S e, (a, [a; 1%Z], [false; false])).

(** [pop_size = 2], [num_episodes = 1], [max_episode_length = 5]. *)
Definition problem : GenesisProblem.t (option nat) :=
  GenesisProblem.Build 2 1 5 [("w", Some 2); ("b", Some 2)].

(** The physics of two drones, given by the number of steps made: the
    first drone crashes at every third step. *)
Definition advance (a : Z) (p : nat) : nat := S p.
Definition crash_condition (p : nat) : list bool :=
  [bool_decide (p `mod` 3 = 0)%nat; false].
Definition no_crash (p : nat) : list bool := [false; false].
Definition reset_phys (idx : list nat) (p : nat) : nat := p.
Definition observe (p : nat) : nat := p.
Definition obs_buf (p : nat) : Z := Z.of_nat p.
Definition rew_buf (p : nat) : list Z := [1; 2]%Z.

(** The [HoverEnv] of two drones after its constructor. *)
Definition hover : HoverEnv.t nat :=
  HoverEnv.build_env reset_phys
    (HoverEnv.Build 2 [false; false] 1500 [true; true] [0; 0]%Z None 0).

End RolloutDemo.

(* ===================================================================== *)
(** * Properties *)
(* ===================================================================== *)

(** ** The constructor of [HPOFitnessMonitor] *)

Lemma to_lower_not_upper c : is_upper (to_lower c) = false.
Proof.
  destruct c as [[] [] [] [] [] [] [] []]; reflexivity.
Qed.

Lemma capitalize_second_not_upper s c0 c1 r :
  capitalize s = String c0 (String c1 r) → is_upper c1 = false.
Proof.
  destruct s as [|a [|b s']]; simpl; intros H; try discriminate.
  injection H as _ <- _. apply to_lower_not_upper.
Qed.

Lemma capitalize_not_supported s : capitalize s ∉ ["IGD"; "HV"].
Proof.
  intros H. rewrite !elem_of_cons in H.
  destruct H as [H | [H | H]].
  - apply capitalize_second_not_upper in H. discriminate.
  - apply capitalize_second_not_upper in H. discriminate.
  - by apply elem_of_nil in H.
Qed.

(** C10. Whatever string is passed as [multi_obj_indicator], the
    constructor of [HPOFitnessMonitor] raises an assertion error: the
    argument is capitalized first (["IGD"] becomes ["Igd"], ["HV"] becomes
    ["Hv"]), and no capitalized string is one of ["IGD"], ["HV"].  Only
    [None] gives an object. *)
Theorem indicator_string_always_rejected :
  (∀ s, HPOFitnessMonitor.__init__ (Some s) = Raise AssertionError)
  ∧ capitalize "IGD" = "Igd"
  ∧ capitalize "HV" = "Hv"
  ∧ HPOFitnessMonitor.__init__ None = Ok (HPOFitnessMonitor.Build None None).
Proof.
  assert (Hs : ∀ s, HPOFitnessMonitor.__init__ (Some s) = Raise AssertionError).
  { intros s. unfold HPOFitnessMonitor.__init__.
    rewrite bool_decide_eq_false_2 by apply capitalize_not_supported.
    reflexivity. }
  split_and!; done.
Qed.

(** ** The order of the floats *)

Lemma lex_compare_le a b : lex_compare a b ≠ Gt ↔ lex_le a b.
Proof.
  unfold lex_compare, lex_le.
  destruct (Z.compare_spec a.1.1 b.1.1), (Z.compare_spec a.1.2 b.1.2),
    (Z.compare_spec a.2 b.2); split; intros; try congruence; try lia.
Qed.

Lemma lex_compare_lt a b : lex_compare a b = Lt → lex_le a b.
Proof. intros H. apply lex_compare_le. congruence. Qed.

Lemma lex_compare_not_lt a b : lex_compare b a ≠ Lt → lex_le a b.
Proof.
  unfold lex_compare, lex_le.
  destruct (Z.compare_spec b.1.1 a.1.1), (Z.compare_spec b.1.2 a.1.2),
    (Z.compare_spec b.2 a.2); intros; try congruence; try lia.
Qed.

Lemma SFcompare_key x y :
  is_nan x = false → is_nan y = false →
  SFcompare x y = Some (lex_compare (float_key x) (float_key y)).
Proof.
  destruct x as [sx|sx| |sx mx ex], y as [sy|sy| |sy my ey];
    try discriminate; intros _ _;
    repeat match goal with s : bool |- _ => destruct s end;
    try reflexivity; unfold lex_compare; simpl.
  - rewrite Z.compare_opp.
    destruct (Z.compare_spec ey ex) as [->| |];
      rewrite ?Z.compare_refl;
      [|rewrite (proj2 (Z.compare_gt_iff ex ey)) by lia; reflexivity
       |rewrite (proj2 (Z.compare_lt_iff ex ey)) by lia; reflexivity].
    reflexivity.
Qed.

Lemma SFleb_key x y :
  is_nan x = false → is_nan y = false →
  SFleb x y = true ↔ lex_le (float_key x) (float_key y).
Proof.
  intros Hx Hy. unfold SFleb. rewrite SFcompare_key by done.
  rewrite <- lex_compare_le. destruct (lex_compare _ _); naive_solver.
Qed.

Lemma SFleb_not_nan x y : SFleb x y = true → is_nan x = false ∧ is_nan y = false.
Proof. destruct x, y; try discriminate; done. Qed.

Lemma SFleb_refl x : is_nan x = false → SFleb x x = true.
Proof. intros H. apply SFleb_key; [done..|]. unfold lex_le. lia. Qed.

Lemma SFleb_trans x y z : SFleb x y = true → SFleb y z = true → SFleb x z = true.
Proof.
  intros Hxy Hyz.
  destruct (SFleb_not_nan _ _ Hxy) as [Hx Hy], (SFleb_not_nan _ _ Hyz) as [_ Hz].
  apply SFleb_key in Hxy; [|done..]. apply SFleb_key in Hyz; [|done..].
  apply SFleb_key; [done..|]. unfold lex_le in *. lia.
Qed.

Lemma SFleb_inf x : is_nan x = false → SFleb x inf = true.
Proof. by destruct x as [|[]| |[]]. Qed.

Lemma minimum_not_nan a b :
  is_nan a = false → is_nan b = false → is_nan (minimum a b) = false.
Proof. intros Ha Hb. unfold minimum. rewrite Ha, Hb. by destruct (SFltb b a). Qed.

Lemma minimum_le_l a b :
  is_nan a = false → is_nan b = false → SFleb (minimum a b) a = true.
Proof.
  intros Ha Hb. unfold minimum. rewrite Ha, Hb.
  destruct (SFltb b a) eqn:Hlt; [|by apply SFleb_refl].
  unfold SFltb in Hlt. rewrite SFcompare_key in Hlt by done.
  apply SFleb_key; [done..|]. apply lex_compare_lt. by destruct (lex_compare _ _).
Qed.

Lemma minimum_le_r a b :
  is_nan a = false → is_nan b = false → SFleb (minimum a b) b = true.
Proof.
  intros Ha Hb. unfold minimum. rewrite Ha, Hb.
  destruct (SFltb b a) eqn:Hlt; [by apply SFleb_refl|].
  unfold SFltb in Hlt. rewrite SFcompare_key in Hlt by done.
  apply SFleb_key; [done..|]. apply lex_compare_not_lt.
  by destruct (lex_compare _ _).
Qed.

(** [torch.min] over a NaN-free vector: not a NaN, and below every
    element. *)
Lemma foldl_minimum_spec xs x :
  is_nan x = false → Forall (λ y, is_nan y = false) xs →
  is_nan (foldl minimum x xs) = false
  ∧ SFleb (foldl minimum x xs) x = true
  ∧ ∀ y, y ∈ xs → SFleb (foldl minimum x xs) y = true.
Proof.
  intros Hx Hxs. revert x Hx.
  induction Hxs as [|y ys Hy _ IH]; intros x Hx; simpl.
  - split_and!; [done|by apply SFleb_refl|]. intros y Hy. by apply elem_of_nil in Hy.
  - destruct (IH (minimum x y)) as (Hn & Hle & Hall); [by apply minimum_not_nan|].
    split_and!; [done|..].
    + eapply SFleb_trans; [exact Hle|]. by apply minimum_le_l.
    + intros z [->|Hz]%elem_of_cons; [|by apply Hall].
      eapply SFleb_trans; [exact Hle|]. by apply minimum_le_r.
Qed.

(** ** The running minimum of [HPOFitnessMonitor] *)

Section RunningMinimum.
Import HPOFitnessMonitor.

(** The two readings of [tell_fitness] agree: on the object, and on the
    state that [load_state_dict] has installed. *)
Lemma tell_fitness_installed indicator (d : dtype) (b : spec_float) :
  HPOFitnessMonitor_tell_fitness {["best_fitness" := b]}
  = tell_fitness (Build indicator (Some (d, b))).
Proof. reflexivity. Qed.

Lemma tell_fitness_Ok m b :
  tell_fitness m = Ok b ↔ ∃ d, best_fitness m = Some (d, b).
Proof.
  unfold tell_fitness, get_best_fitness.
  destruct (best_fitness m) as [[d b0]|]; simpl; split.
  - intros [= ->]. by exists d.
  - by intros (d' & [= _ ->]).
  - done.
  - by intros (d' & ?).
Qed.

(** What one call of [pre_tell] on a tensor of floats leaves behind. *)
Lemma tell_after_floats m f b x xs :
  tell_fitness m = Ok b → floats f = x :: xs →
  tell_fitness (after_pre_tell m f) = Ok (minimum (foldl minimum x xs) b).
Proof.
  intros (d & Hb)%tell_fitness_Ok Hf.
  unfold after_pre_tell, pre_tell, tell_fitness, get_best_fitness.
  destruct f as [|ys| |ys|]; simpl in Hf; try done; subst ys; simpl;
    by rewrite Hb.
Qed.

(** On a tensor of integers: the minimum is converted to the dtype of
    the buffer. *)
Lemma tell_after_ints m b z zs :
  tell_fitness m = Ok b →
  ∃ d, tell_fitness (after_pre_tell m (IntVector (z :: zs)))
       = Ok (minimum (of_int d (foldl Z.min z zs)) b).
Proof.
  intros (d & Hb)%tell_fitness_Ok. exists d.
  unfold after_pre_tell, pre_tell, tell_fitness, get_best_fitness. simpl.
  by rewrite Hb.
Qed.

(** On any other tensor: of another rank, or empty. *)
Lemma tell_after_other m f :
  floats f = [] → (∀ z zs, f ≠ IntVector (z :: zs)) →
  tell_fitness (after_pre_tell m f) = tell_fitness m.
Proof.
  intros Hf Hint. unfold after_pre_tell, pre_tell.
  destruct f as [|ys| |ys|[|z zs]]; simpl in Hf; try done; try (by subst ys).
  by destruct (Hint z zs).
Qed.

(** After [setup] the buffer exists and is never a NaN as long as the
    fitness arguments are free of NaN. *)
Lemma run_best_fitness self calls :
  Forall nan_free_vector calls →
  ∃ b, tell_fitness (run (setup self) calls) = Ok b ∧ is_nan b = false.
Proof.
  intros Hcalls. unfold run.
  assert (Hinit : ∃ b, tell_fitness (setup self) = Ok b ∧ is_nan b = false)
    by (by exists inf).
  revert Hinit. generalize (setup self) as m.
  induction Hcalls as [|f calls Hf _ IH]; intros m Hm; [done|].
  simpl. apply IH. destruct Hm as (b & Hb & Hnan).
  destruct (floats f) as [|x xs] eqn:Hfl.
  - exists b. split; [|done]. rewrite tell_after_other; [done..|].
    intros z zs ->. done.
  - exists (minimum (foldl minimum x xs) b).
    split; [by apply tell_after_floats|].
    assert (Hxs : Forall (λ y, is_nan y = false) (x :: xs)).
    { rewrite <- Hfl. by destruct f. }
    apply Forall_cons in Hxs as [Hx Hxs].
    apply minimum_not_nan; [|done]. by apply foldl_minimum_spec.
Qed.

(** One call: the buffer does not grow and is below what the call saw. *)
Lemma after_pre_tell_spec m f b :
  tell_fitness m = Ok b → is_nan b = false → nan_free_vector f →
  ∃ b', tell_fitness (after_pre_tell m f) = Ok b'
        ∧ SFleb b' b = true
        ∧ ∀ x, x ∈ floats f → SFleb b' x = true.
Proof.
  intros Hb Hnan Hf.
  destruct (floats f) as [|x xs] eqn:Hfl.
  - exists b. split_and!; [|by apply SFleb_refl|].
    + rewrite tell_after_other; [done..|]. intros z zs ->. done.
    + intros y Hy. by apply elem_of_nil in Hy.
  - assert (Hxs : Forall (λ y, is_nan y = false) (x :: xs)).
    { rewrite <- Hfl. by destruct f. }
    apply Forall_cons in Hxs as [Hx Hxs].
    destruct (foldl_minimum_spec xs x Hx Hxs) as (Hn & Hle & Hall).
    exists (minimum (foldl minimum x xs) b).
    split_and!; [by apply tell_after_floats|by apply minimum_le_r|].
    intros y Hy.
    eapply SFleb_trans; [by apply minimum_le_l|].
    apply elem_of_cons in Hy as [->|Hy]; [done|by apply Hall].
Qed.

Lemma run_snoc m calls f : run m (calls ++ [f]) = after_pre_tell (run m calls) f.
Proof. unfold run. by rewrite foldl_app. Qed.

End RunningMinimum.

(** ** [extract_parameters] *)

(** C7. [extract_parameters(state)] holds exactly the entries of [state]
    whose value is an [nn.Parameter], under their keys and with their
    values; no buffer is in it. *)
Theorem extract_parameters_spec {V} (is_parameter : V → bool)
    (state : gmap string V) (k : string) (v : V) :
  HPOProblemWrapper.extract_parameters is_parameter state !! k = Some v
  ↔ state !! k = Some v ∧ is_parameter v = true.
Proof.
  unfold HPOProblemWrapper.extract_parameters.
  rewrite map_lookup_filter_Some. simpl.
  split; intros [? H]; (split; [done|]).
  - by apply Is_true_true.
  - by apply Is_true_true.
Qed.

(** ** The checks and the rollout of [evaluate] *)

Section EvaluateFacts.
Import HPOProblemWrapper.
Context {V W : Type}.
Variable is_parameter : V → bool.
Implicit Types (self : HPOProblemWrapper.t V W) (hp state : gmap string V).

Lemma check_hyper_parameter_cases self k v :
  check_hyper_parameter is_parameter self (k, v) =
    match init_state self !! k with
    | Some v0 => assert (is_parameter v0 && is_parameter v)
    | None => Raise AssertionError
    end.
Proof.
  unfold check_hyper_parameter.
  destruct (init_state self !! k) as [v0|] eqn:Hk.
  - rewrite bool_decide_eq_true_2; [done|]. apply elem_of_dom. by eexists.
  - rewrite bool_decide_eq_false_2; [done|]. by apply not_elem_of_dom.
Qed.

Lemma check_hyper_parameter_result self kv :
  check_hyper_parameter is_parameter self kv = Ok ()
  ∨ check_hyper_parameter is_parameter self kv = Raise AssertionError.
Proof.
  destruct kv as [k v]. rewrite check_hyper_parameter_cases.
  destruct (init_state self !! k); [|by right].
  destruct (_ && _); [by left|by right].
Qed.

(** The loop of checks passes exactly when every entry passes, and
    otherwise raises an assertion error. *)
Lemma check_loop_result self (entries : list (string * V)) :
  for_each entries (check_hyper_parameter is_parameter self) = Ok ()
  ∨ for_each entries (check_hyper_parameter is_parameter self) = Raise AssertionError.
Proof.
  induction entries as [|kv entries IH]; [by left|]. simpl.
  destruct (check_hyper_parameter_result self kv) as [H|H]; rewrite H; simpl;
    [done|by right].
Qed.

Lemma check_loop_ok self (entries : list (string * V)) :
  for_each entries (check_hyper_parameter is_parameter self) = Ok ()
  ↔ Forall (λ kv, check_hyper_parameter is_parameter self kv = Ok ()) entries.
Proof.
  induction entries as [|kv entries IH]; simpl.
  - by rewrite Forall_nil.
  - rewrite Forall_cons, <- IH.
    destruct (check_hyper_parameter_result self kv) as [H|H]; rewrite H; simpl.
    + tauto.
    + split; [done|]. intros [? _]. congruence.
Qed.

Lemma for_loop_sequential_steps {X} (f : callable V W (gmap string V))
    name (xs : list X) w s w' s' inputs cs :
  sequential_steps f (length xs) (w, s) (w', s') inputs →
  for_loop xs (λ _ state, invoke name f state) s (Machine w cs)
  = (Machine w' (cs ++ ((name,.) <$> inputs)), Ok s').
Proof.
  revert w s inputs cs.
  induction xs as [|x xs IH]; intros w s inputs cs Hsteps; simpl in Hsteps.
  - inversion Hsteps; subst. simpl. by rewrite app_nil_r.
  - inversion Hsteps as [|n w0 s0 w1 s1 ws' ins Hf Hrest]; subst.
    simpl. unfold bind at 1, invoke at 1. simpl. rewrite Hf.
    rewrite (IH _ _ _ _ Hrest). simpl. by rewrite <- app_assoc.
Qed.

Lemma length_range n : length (range n) = Z.to_nat n.
Proof. unfold range. by rewrite length_fmap, length_seq. Qed.

(** [evaluate] when the checks pass and the compiled functions return. *)
Lemma evaluate_rollout self hp w cs w1 s1 w2 s2 inputs w3 fit :
  for_each (map_to_list hp) (check_hyper_parameter is_parameter self) = Ok () →
  run (_workflow_init_step_ self) (hp ∪ init_state self) w = (w1, Ok s1) →
  sequential_steps (run (_workflow_step_ self)) (Z.to_nat (iterations self - 1))
                   (w1, s1) (w2, s2) inputs →
  _get_monitor_fitness_ self s2 w2 = (w3, Ok fit) →
  evaluate is_parameter self hp (Machine w cs)
  = (Machine w3
       (cs ++ [(Method (traced_from (_workflow_init_step_ self)), hp ∪ init_state self)]
           ++ ((Method (traced_from (_workflow_step_ self)),.) <$> inputs)
           ++ [(GetMonitorFitness, s2)]),
     Ok fit).
Proof.
  intros Hcheck Hinit Hsteps Hfit.
  unfold evaluate, bind, lift. rewrite Hcheck.
  unfold invoke at 1. simpl. rewrite Hinit.
  rewrite <- length_range in Hsteps.
  rewrite (for_loop_sequential_steps _ _ _ _ _ _ _ _ _ Hsteps).
  unfold invoke. simpl. rewrite Hfit.
  by rewrite <- !app_assoc.
Qed.

(** C5. [evaluate] checks every supplied hyperparameter before it runs
    anything: when some entry has a key that the stored initial state does
    not have, or the stored value under its key is not an [nn.Parameter],
    or the supplied value is not one, the call raises an assertion error
    and leaves the machine as it was; in particular no compiled function
    has been called. *)
Theorem evaluate_rejects_bad_hyper_parameter self hp k v m :
  hp !! k = Some v →
  init_state self !! k = None
  ∨ (∃ v0, init_state self !! k = Some v0 ∧ is_parameter v0 = false)
  ∨ is_parameter v = false →
  evaluate is_parameter self hp m = (m, Raise AssertionError).
Proof.
  intros Hk Hbad. unfold evaluate, bind, lift.
  destruct (check_loop_result self (map_to_list hp)) as [Hok|Hraise];
    [|by rewrite Hraise].
  exfalso. apply check_loop_ok in Hok. rewrite Forall_forall in Hok.
  rename Hok into Hall.
  specialize (Hall (k, v)). rewrite check_hyper_parameter_cases in Hall.
  assert (Hin : (k, v) ∈ map_to_list hp) by by apply elem_of_map_to_list.
  specialize (Hall Hin).
  destruct Hbad as [H|[(v0 & H & Hp)|Hp]].
  - by rewrite H in Hall.
  - rewrite H, Hp in Hall. done.
  - destruct (init_state self !! k); [|done].
    rewrite Hp, andb_false_r in Hall. done.
Qed.

End EvaluateFacts.

(** The witness of C5: the stored state has the parameter [lb] only, and
    the caller supplies [pop]. *)
Lemma evaluate_rejects_bad_hyper_parameter_witness :
  let f : HPOProblemWrapper.callable bool unit (gmap string bool) :=
    λ x w, (w, Ok x) in
  let self :=
    HPOProblemWrapper.Build 9 7 {["lb" := true]}
      (HPOProblemWrapper.Compiled step f) (HPOProblemWrapper.Compiled step f)
      (λ x w, (w, Ok true)) in
  HPOProblemWrapper.evaluate id self {["pop" := true]} (HPOProblemWrapper.Machine () [])
  = (HPOProblemWrapper.Machine () [], Raise AssertionError).
Proof.
  intros f self.
  apply (evaluate_rejects_bad_hyper_parameter id self {["pop" := true]} "pop" true).
  - reflexivity.
  - left. reflexivity.
Defined.

(** ** The resolver of the monitor keys *)

Section ResolverFacts.
Import HPOProblemWrapper.
Context {T : Type}.
Implicit Types (nb ms : odict (tensor_obj T)) (v sv : tensor_obj T).

Lemma odict_set_fresh {A} k (a : A) (d : odict A) :
  k ∉ d.*1 → odict_set k a d = d ++ [(k, a)].
Proof.
  induction d as [|[k' a'] d IH]; intros Hk; simpl; [done|].
  rewrite fmap_cons, not_elem_of_cons in Hk. destruct Hk as [Hne Hk].
  destruct (String.eqb_spec k' k) as [->|_]; [done|]. by rewrite IH.
Qed.

Lemma odict_get_fresh {A} k (d : odict A) : k ∉ d.*1 → odict_get k d = None.
Proof.
  induction d as [|[k' a'] d IH]; intros Hk; simpl; [done|].
  rewrite fmap_cons, not_elem_of_cons in Hk. destruct Hk as [Hne Hk].
  destruct (String.eqb_spec k' k) as [->|_]; [done|]. by apply IH.
Qed.

(** The inner loop returns the first entry that is the same object. *)
Lemma first_identical_Some v ms sk :
  first_identical v ms = Some sk ↔
  ∃ before sv after,
    ms = before ++ (sk, sv) :: after
    ∧ addr sv = addr v
    ∧ Forall (λ e, addr e.2 ≠ addr v) before.
Proof.
  induction ms as [|[sk' sv'] ms IH]; simpl.
  - split; [done|]. intros (before & ? & ? & H & _). by destruct before.
  - unfold is_. destruct (Nat.eqb_spec (addr sv') (addr v)) as [Heq|Hne].
    + split.
      * intros [= <-]. by exists [], sv', ms.
      * intros ([|[k0 v0] before] & sv & after & H & Ha & Hb); simplify_eq/=; [done|].
        apply Forall_cons in Hb as [Hb _]. done.
    + rewrite IH. split.
      * intros (before & sv & after & -> & Ha & Hb).
        exists ((sk', sv') :: before), sv, after. split_and!; [done..|].
        by apply Forall_cons.
      * intros ([|[k0 v0] before] & sv & after & H & Ha & Hb); simplify_eq/=.
        apply Forall_cons in Hb as [_ Hb]. by exists before, sv, after.
Qed.

Lemma first_identical_is_Some v ms :
  is_Some (first_identical v ms) ↔ addr v ∈ (addr ∘ snd) <$> ms.
Proof.
  induction ms as [|[sk' sv'] ms IH]; simpl.
  - rewrite elem_of_nil. split; [by intros [? ?]|done].
  - rewrite elem_of_cons. unfold is_. simpl.
    destruct (Nat.eqb_spec (addr sv') (addr v)) as [Heq|Hne].
    + split; [by left|by eexists].
    + rewrite IH. split; [intros H; by right|by intros [?|?]].
Qed.

Lemma recorded_keys nb ms k : k ∈ (recorded nb ms).*1 → k ∈ nb.*1.
Proof.
  induction nb as [|[k' v'] nb IH]; simpl; [done|].
  rewrite elem_of_cons. destruct (first_identical v' ms); simpl.
  - rewrite elem_of_cons. intros [?|?]; [by left|right; by apply IH].
  - intros ?. right. by apply IH.
Qed.

Lemma resolve_foldl nb ms acc :
  NoDup nb.*1 → (∀ k, k ∈ nb.*1 → k ∉ acc.*1) →
  foldl (λ monitor_keys '(k, v),
           match first_identical v ms with
           | Some sk => odict_set k sk monitor_keys
           | None => monitor_keys
           end) acc nb
  = acc ++ recorded nb ms.
Proof.
  revert acc. induction nb as [|[k v] nb IH]; intros acc Hdup Hfresh; simpl.
  - by rewrite app_nil_r.
  - rewrite fmap_cons in Hdup. apply NoDup_cons in Hdup as [Hk Hdup].
    destruct (first_identical v ms) as [sk|]; simpl.
    + rewrite odict_set_fresh by (apply Hfresh; simpl; by left).
      rewrite IH; [by rewrite <- app_assoc|done|].
      intros k' Hk'. rewrite fmap_app, not_elem_of_app. split.
      * apply Hfresh. simpl. by right.
      * simpl. rewrite elem_of_cons, elem_of_nil. intros [->|[]]. done.
    + apply IH; [done|]. intros k' Hk'. apply Hfresh. simpl. by right.
Qed.

Lemma resolve_recorded nb ms :
  NoDup nb.*1 → resolve_monitor_keys nb ms = recorded nb ms.
Proof.
  intros Hdup. unfold resolve_monitor_keys.
  rewrite resolve_foldl; [done..|]. intros k _. simpl. apply not_elem_of_nil.
Qed.

Lemma odict_get_recorded nb ms k :
  NoDup nb.*1 →
  odict_get k (recorded nb ms) = odict_get k nb ≫= λ v, first_identical v ms.
Proof.
  induction nb as [|[k' v'] nb IH]; intros Hdup; simpl; [done|].
  rewrite fmap_cons in Hdup. apply NoDup_cons in Hdup as [Hk Hdup].
  destruct (String.eqb_spec k' k) as [->|Hne]; simpl.
  - destruct (first_identical v' ms) as [sk|]; simpl.
    + by rewrite String.eqb_refl.
    + apply odict_get_fresh. intros Hin. by apply recorded_keys in Hin.
  - destruct (first_identical v' ms) as [sk|]; simpl.
    + destruct (String.eqb_spec k' k) as [->|_]; [done|]. by apply IH.
    + by apply IH.
Qed.

Lemma length_recorded nb ms :
  length (recorded nb ms)
  = length (filter (λ a, a ∈ (addr ∘ snd) <$> ms) ((addr ∘ snd) <$> nb)).
Proof.
  induction nb as [|[k v] nb IH]; simpl; [done|].
  rewrite filter_cons. simpl.
  destruct (decide (addr v ∈ (addr ∘ snd) <$> ms)) as [Hin|Hnin].
  - apply first_identical_is_Some in Hin as [sk ->]. simpl. by rewrite IH.
  - destruct (first_identical v ms) as [sk|] eqn:Hf; [|done].
    exfalso. apply Hnin, first_identical_is_Some. by eexists.
Qed.

(** Counting: among objects that are pairwise distinct, as many of [A] lie
    in [B] as [B] has elements exactly when all of [B] lies in [A]. *)
Lemma length_filter_elem_of (A B : list nat) :
  NoDup A → NoDup B →
  length (filter (λ a, a ∈ B) A) = length B ↔ ∀ b, b ∈ B → b ∈ A.
Proof.
  intros HA HB.
  assert (Hsub : filter (λ a, a ∈ B) A ⊆+ B).
  { apply NoDup_submseteq; [by apply NoDup_filter|].
    intros x Hx. by apply list_elem_of_filter in Hx as [? _]. }
  split.
  - intros Hlen b Hb.
    assert (Hperm : filter (λ a, a ∈ B) A ≡ₚ B)
      by (apply submseteq_length_Permutation; [done|lia]).
    rewrite <- Hperm in Hb. by apply list_elem_of_filter in Hb as [_ ?].
  - intros Hall. apply Nat.le_antisymm; [by apply submseteq_length|].
    apply submseteq_length, NoDup_submseteq; [done|].
    intros x Hx. apply list_elem_of_filter. auto.
Qed.

End ResolverFacts.

(** ** What [evaluate] calls first *)

Section FirstCall.
Import HPOProblemWrapper.
Context {V W : Type}.
Variable is_parameter : V → bool.

Lemma invoke_calls {A} name (f : callable V W A) x m :
  calls (invoke name f x m).1 = calls m ++ [(name, x)].
Proof. unfold invoke. by destruct (f x (world m)). Qed.

Lemma for_loop_invoke_calls {X} name (f : callable V W (gmap string V))
    (xs : list X) s m :
  ∃ l, calls (for_loop xs (λ _ state, invoke name f state) s m).1 = calls m ++ l.
Proof.
  revert s m. induction xs as [|x xs IH]; intros s m; simpl.
  - exists []. by rewrite app_nil_r.
  - unfold bind.
    destruct (invoke name f s m) as [m1 [s1|e]] eqn:Hinv;
      pose proof (invoke_calls name f s m) as Hc; rewrite Hinv in Hc; simpl in Hc.
    + destruct (IH s1 m1) as [l Hl]. exists ((name, s) :: l).
      rewrite Hl, Hc. by rewrite <- app_assoc.
    + by exists [(name, s)].
Qed.

(** Once the checks have passed, the first thing [evaluate] does is to
    call [_workflow_init_step_] on the stored state overwritten with the
    hyperparameters. *)
Lemma evaluate_first_call (self : t V W) hp m :
  for_each (map_to_list hp) (check_hyper_parameter is_parameter self) = Ok () →
  ∃ rest,
    calls (evaluate is_parameter self hp m).1
    = calls m ++ (Method (traced_from (_workflow_init_step_ self)),
                  hp ∪ init_state self) :: rest.
Proof.
  intros Hcheck. unfold evaluate. unfold bind at 1, lift. rewrite Hcheck.
  unfold bind at 1.
  match goal with |- context [invoke ?n ?f ?x m] =>
    destruct (invoke n f x m) as [m1 [s1|e]] eqn:Hinv;
    pose proof (invoke_calls n f x m) as Hc; rewrite Hinv in Hc; simpl in Hc
  end.
  - unfold bind.
    match goal with |- context [for_loop ?xs ?b s1 m1] =>
      destruct (for_loop_invoke_calls
                  (Method (traced_from (_workflow_step_ self)))
                  (run (_workflow_step_ self)) xs s1 m1) as [l Hl];
      destruct (for_loop xs b s1 m1) as [m2 [s2|e]] eqn:Hloop
    end; simpl in Hl.
    + rewrite invoke_calls, Hl, Hc. rewrite <- !app_assoc. by eexists.
    + simpl. rewrite Hl, Hc. rewrite <- !app_assoc. by eexists.
  - simpl. rewrite Hc. by exists [].
Qed.

End FirstCall.

(** ** [setup] *)

Section SetupFacts.
Import HPOProblemWrapper.
Context {T V W : Type}.
Variable traced : Type.
Variable use_state : Workflow T V → method → M W traced.
Variable init_state_items : traced → odict (tensor_obj T).
Variable vmap : traced → M W (batched_fn V W).
Variable jit : ∀ A : Type, callable V W A → gmap string V → M W (callable V W A).
Variable load_state_dict : submodule T V → odict (tensor_obj T) → M W unit.

Local Abbreviation setup :=
  (setup traced use_state init_state_items vmap jit load_state_dict).
Local Abbreviation compiles := (compiles use_state vmap jit).

(** An object without [tell_fitness] is no instance of [HPOMonitor]. *)
Lemma not_exposing_not_instance (monitor : submodule T V) :
  exposes_tell_fitness monitor = false → isinstance_HPOMonitor monitor = false.
Proof. unfold exposes_tell_fitness. by intros [? _]%orb_false_iff. Qed.

Lemma setup_not_instance self wf monitor m :
  get_submodule wf "monitor" = Ok monitor →
  isinstance_HPOMonitor monitor = false →
  setup self wf m = (m, Raise AssertionError).
Proof.
  intros Hget Hinst. unfold HPOProblemWrapper.setup, bind, lift.
  by rewrite Hget, Hinst.
Qed.

(** C9. [setup] takes the submodule ["monitor"] of the workflow and asserts
    that it is an [HPOMonitor]; for a monitor that does not expose
    [tell_fitness] the assertion fails, and it fails before any call of
    [use_state], [vmap] or [jit]: the world and the record of these calls
    are as they were. *)
Theorem setup_rejects_monitor_without_tell_fitness self wf monitor m :
  get_submodule wf "monitor" = Ok monitor →
  exposes_tell_fitness monitor = false →
  setup self wf m = (m, Raise AssertionError).
Proof.
  intros Hget Hexp. eapply setup_not_instance; [done|].
  by apply not_exposing_not_instance.
Qed.

(** The assertion is on the class, not on the attribute: an object that
    has a [tell_fitness] of its own but is no [HPOMonitor] is rejected as
    well. *)
Remark setup_rejects_duck_typed_monitor self wf monitor m :
  get_submodule wf "monitor" = Ok monitor →
  "HPOMonitor" ∉ mro monitor →
  setup self wf m = (m, Raise AssertionError).
Proof.
  intros Hget Hmro. eapply setup_not_instance; [done|].
  by apply bool_decide_eq_false_2.
Qed.

Lemma core_run {A B} c (f : M W A) (k : A → M (setup_machine W) B) m :
  bind (core c f) k m
  = match f (setup_world m) with
    | (w', Ok a) => k a (SetupMachine w' (core_calls m ++ [c]))
    | (w', Raise e) => (SetupMachine w' (core_calls m ++ [c]), Raise e)
    end.
Proof. unfold bind, core. by destruct (f (setup_world m)) as [w' [a|e]]. Qed.

Lemma records_ret {A} (a : A) : records (W := W) (ret a).
Proof. intros m. exists []. by rewrite app_nil_r. Qed.

Lemma records_core {A B} c (f : M W A) (k : A → M (setup_machine W) B) m :
  (∀ a, records (k a)) →
  ∃ l, core_calls (bind (core c f) k m).1 = core_calls m ++ c :: l.
Proof.
  intros Hk. rewrite core_run.
  destruct (f (setup_world m)) as [w' [a|e]]; simpl.
  - destruct (Hk a (SetupMachine w' (core_calls m ++ [c]))) as [l Hl].
    exists l. rewrite Hl. simpl. by rewrite <- app_assoc.
  - by exists [].
Qed.

Lemma records_bind {A B} c (f : M W A) (k : A → M (setup_machine W) B) :
  (∀ a, records (k a)) → records (bind (core c f) k).
Proof.
  intros Hk m. destruct (records_core c f k m Hk) as [l Hl]. by exists (c :: l).
Qed.

(** [setup] at the count assertion, once the monitor has passed the
    first assertion and the method [step] has been traced: when the
    numbers differ the assertion fails. *)
Lemma setup_count_differs self wf monitor m w1 state_step :
  get_submodule wf "monitor" = Ok monitor →
  isinstance_HPOMonitor monitor = true →
  use_state wf step (setup_world m) = (w1, Ok state_step) →
  length (resolve_monitor_keys (init_state_items state_step) (state_dict monitor))
  ≠ length (state_dict monitor) →
  setup self wf m
  = (SetupMachine w1 (core_calls m ++ [CallUseState step]), Raise AssertionError).
Proof.
  intros Hget Hinst Huse Hne.
  unfold HPOProblemWrapper.setup.
  unfold bind at 1, lift at 1. rewrite Hget.
  unfold bind at 1, lift at 1. rewrite Hinst. simpl assert.
  rewrite core_run, Huse.
  unfold bind at 1, lift at 1.
  by rewrite (proj2 (Nat.eqb_neq _ _) Hne).
Qed.

(** When the numbers agree [setup] goes on, to the call of [vmap]. *)
Lemma setup_count_agrees self wf monitor m w1 state_step :
  get_submodule wf "monitor" = Ok monitor →
  isinstance_HPOMonitor monitor = true →
  use_state wf step (setup_world m) = (w1, Ok state_step) →
  length (resolve_monitor_keys (init_state_items state_step) (state_dict monitor))
  = length (state_dict monitor) →
  ∃ rest, core_calls (setup self wf m).1
          = core_calls m ++ CallUseState step :: CallVmap step :: rest.
Proof.
  intros Hget Hinst Huse Heq.
  unfold HPOProblemWrapper.setup.
  unfold bind at 1, lift at 1. rewrite Hget.
  unfold bind at 1, lift at 1. rewrite Hinst. simpl assert.
  rewrite core_run, Huse.
  unfold bind at 1, lift at 1.
  rewrite (proj2 (Nat.eqb_eq _ _) Heq). simpl assert.
  match goal with
  | |- context [bind (core (CallVmap step) ?f) ?k ?m1] =>
      destruct (records_core (CallVmap step) f k m1) as [l Hl]
  end.
  - intros bf. apply records_bind. intros cstep. apply records_bind.
    intros fitness. apply records_bind. intros _.
    destruct (negb (overrides_init_step wf)); [apply records_ret|].
    apply records_bind. intros sis. apply records_bind. intros vis.
    apply records_bind. intros cinit. apply records_ret.
  - exists l. rewrite Hl. simpl. by rewrite <- app_assoc.
Qed.

(** [setup] when it returns: the calls that have returned, and the object
    that is built from their results. *)
Lemma setup_returns self wf m m' w :
  setup self wf m = (m', Ok w) →
  let n := new_num_instances self in
  ∃ monitor w1 st init cstep w2 fitness w3,
    let ms := state_dict monitor in
    let monitor_keys := resolve_monitor_keys (init_state_items st) ms in
    get_submodule wf "monitor" = Ok monitor
    ∧ isinstance_HPOMonitor monitor = true
    ∧ compiles wf step n (setup_world m) w1 st init cstep
    ∧ length monitor_keys = length ms
    ∧ jit _ (λ x w, (w, get_monitor_fitness monitor monitor_keys x)) init w1
      = (w2, Ok fitness)
    ∧ load_state_dict monitor ms w2 = (w3, Ok ())
    ∧ if overrides_init_step wf then
        ∃ w4 st' init' cinit,
          compiles wf init_step n w3 w4 st' init' cinit
          ∧ m' = SetupMachine w4
                   (core_calls m
                    ++ [CallUseState step; CallVmap step; CallJit (Method step);
                        CallJit GetMonitorFitness; CallLoadStateDict;
                        CallUseState init_step; CallVmap init_step;
                        CallJit (Method init_step)])
          ∧ w = Build (new_iterations self) n init' (Compiled step cstep)
                  (Compiled init_step cinit) fitness
      else
        m' = SetupMachine w3
               (core_calls m
                ++ [CallUseState step; CallVmap step; CallJit (Method step);
                    CallJit GetMonitorFitness; CallLoadStateDict])
        ∧ w = Build (new_iterations self) n init (Compiled step cstep)
                (Compiled step cstep) fitness.
Proof.
  intros Hsetup n. unfold HPOProblemWrapper.setup in Hsetup.
  unfold bind at 1, lift at 1 in Hsetup.
  destruct (get_submodule wf "monitor") as [monitor|] eqn:Hget; [|done].
  unfold bind at 1, lift at 1 in Hsetup.
  destruct (isinstance_HPOMonitor monitor) eqn:Hinst; [|done]. simpl assert in Hsetup.
  rewrite core_run in Hsetup.
  destruct (use_state wf step (setup_world m)) as [w01 [st|e]] eqn:Huse; [|done].
  unfold bind at 1, lift at 1 in Hsetup.
  destruct (Nat.eqb_spec
              (length (resolve_monitor_keys (init_state_items st) (state_dict monitor)))
              (length (state_dict monitor))) as [Hlen|]; [|done].
  simpl assert in Hsetup.
  rewrite core_run in Hsetup. cbn [setup_world core_calls] in Hsetup.
  destruct (vmap st w01) as [w02 [bf|e]] eqn:Hvmap; [|done].
  rewrite core_run in Hsetup. cbn [setup_world core_calls] in Hsetup.
  destruct (jit _ (batched_call bf) (batched_init_state bf (new_num_instances self)) w02)
    as [w1 [cstep|e]] eqn:Hjit; [|done].
  rewrite core_run in Hsetup. cbn [setup_world core_calls] in Hsetup.
  destruct (jit _ _ (batched_init_state bf (new_num_instances self)) w1)
    as [w2 [fitness|e]] eqn:Hfit; [|done].
  rewrite core_run in Hsetup. cbn [setup_world core_calls] in Hsetup.
  destruct (load_state_dict monitor (state_dict monitor) w2)
    as [w3 [[]|e]] eqn:Hload; [|done].
  exists monitor, w1, st, (batched_init_state bf n), cstep, w2, fitness, w3.
  split_and!; try done.
  { by exists w01, w02, bf. }
  destruct (overrides_init_step wf); cbn [negb] in Hsetup.
  - rewrite core_run in Hsetup. cbn [setup_world core_calls] in Hsetup.
    destruct (use_state wf init_step w3) as [w31 [sis|e]] eqn:Huse'; [|done].
    rewrite core_run in Hsetup. cbn [setup_world core_calls] in Hsetup.
    destruct (vmap sis w31) as [w32 [vis|e]] eqn:Hvmap'; [|done].
    rewrite core_run in Hsetup. cbn [setup_world core_calls] in Hsetup.
    destruct (jit _ (batched_call vis) (batched_init_state vis (new_num_instances self))
                  w32)
      as [w4 [cinit|e]] eqn:Hjit'; [|done].
    unfold ret in Hsetup. injection Hsetup as <- <-.
    exists w4, sis, (batched_init_state vis n), cinit.
    split_and!; [by exists w31, w32, vis| |done].
    by rewrite <- !app_assoc.
  - unfold ret in Hsetup. injection Hsetup as <- <-.
    split; [|done]. by rewrite <- !app_assoc.
Qed.

(** C4 (amended). The map of the monitor keys is built by identity: a key
    of the state (whose keys are pairwise different) is mapped exactly when
    its value is, as an object, a value of the monitor's state, and then to
    the first entry that holds this object; a buffer with the same content
    but another identity is not taken.  Once the monitor is accepted and
    the method [step] is traced, [setup] stops at the count assertion, with
    the assertion error and before any further call into the core layer,
    exactly when the number of recorded keys differs from the number of
    entries of the monitor's state; when the numbers agree it goes on to
    batch and compile the step, and returns or raises with these calls.
    When no object is held under two keys of the state, nor under two keys
    of the monitor's state, the numbers differ exactly when some buffer of
    the monitor is not reachable from the state. *)
Theorem monitor_keys_by_identity self wf monitor m w1 state_step :
  let nb := init_state_items state_step in
  let ms := state_dict monitor in
  let monitor_keys := resolve_monitor_keys nb ms in
  get_submodule wf "monitor" = Ok monitor →
  isinstance_HPOMonitor monitor = true →
  use_state wf step (setup_world m) = (w1, Ok state_step) →
  NoDup nb.*1 →
  (∀ k, odict_get k monitor_keys = odict_get k nb ≫= λ v, first_identical v ms)
  ∧ (∀ v sk, first_identical v ms = Some sk ↔
       ∃ before sv after,
         ms = before ++ (sk, sv) :: after
         ∧ addr sv = addr v
         ∧ Forall (λ e, addr e.2 ≠ addr v) before)
  ∧ (∀ k v, odict_get k nb = Some v →
       (∀ sk sv, (sk, sv) ∈ ms → addr sv ≠ addr v) →
       odict_get k monitor_keys = None)
  ∧ (setup self wf m
     = (SetupMachine w1 (core_calls m ++ [CallUseState step]), Raise AssertionError)
     ↔ length monitor_keys ≠ length ms)
  ∧ (length monitor_keys = length ms →
       ∃ rest, core_calls (setup self wf m).1
               = core_calls m ++ CallUseState step :: CallVmap step :: rest)
  ∧ (no_aliasing nb → no_aliasing ms →
       (length monitor_keys ≠ length ms ↔ ¬ all_reachable nb ms)).
Proof.
  intros nb ms monitor_keys Hget Hinst Huse Hdup.
  assert (Hrec : monitor_keys = recorded nb ms) by by apply resolve_recorded.
  assert (Hget_k : ∀ k, odict_get k monitor_keys
                        = odict_get k nb ≫= λ v, first_identical v ms).
  { intros k. rewrite Hrec. by apply odict_get_recorded. }
  split_and!.
  - done.
  - intros v sk. apply first_identical_Some.
  - intros k v Hk Hnone. rewrite Hget_k, Hk. simpl.
    destruct (first_identical v ms) as [sk|] eqn:Hf; [|done].
    apply first_identical_Some in Hf as (before & sv & after & Hms & Ha & _).
    exfalso. apply (Hnone sk sv); [|done].
    rewrite Hms. apply elem_of_app. right. by left.
  - split.
    + intros Hsetup Heq.
      destruct (setup_count_agrees self wf monitor m w1 state_step Hget Hinst Huse Heq)
        as [rest Hrest].
      rewrite Hsetup in Hrest. simpl in Hrest.
      apply app_inv_head in Hrest. discriminate Hrest.
    + intros Hne. by apply (setup_count_differs self wf monitor m w1 state_step).
  - intros Heq. by apply (setup_count_agrees self wf monitor m w1 state_step).
  - intros Hnb Hms.
    rewrite Hrec, length_recorded.
    rewrite <- (length_fmap (addr ∘ snd) ms).
    rewrite (length_filter_elem_of _ _ Hnb Hms).
    apply not_iff_compat. unfold all_reachable. split.
    + intros Hall sk sv Hin.
      assert (Ha : addr sv ∈ (addr ∘ snd) <$> nb).
      { apply Hall. apply list_elem_of_fmap. by exists (sk, sv). }
      apply list_elem_of_fmap in Ha as ([k v] & Ha & Hv). by exists k, v.
    + intros Hall b Hb.
      apply list_elem_of_fmap in Hb as ([sk sv] & -> & Hin).
      destruct (Hall sk sv Hin) as (k & v & Hkv & Ha).
      apply list_elem_of_fmap. exists (k, v). simpl. done.
Qed.

(** C6. When [setup] returns and the workflow has no [init_step] of its
    own, the compiled batched step is also the first-step function, and the
    stored initial state is the one of the batched step; otherwise
    [init_step] is traced, batched and compiled on its own (three more
    calls into the core layer, after the monitor has been restored), this
    compiled function is the first-step function, and the stored initial
    state is the one of the batched [init_step].  In both cases the first
    call of [evaluate] is a call of the first-step function. *)
Theorem setup_chooses_first_step self wf m m' w :
  setup self wf m = (m', Ok w) →
  let n := new_num_instances self in
  ∃ w1 st init cstep w3,
    compiles wf step n (setup_world m) w1 st init cstep
    ∧ _workflow_step_ w = Compiled step cstep
    ∧ (if overrides_init_step wf then
         ∃ w4 st' init' cinit,
           compiles wf init_step n w3 w4 st' init' cinit
           ∧ _workflow_init_step_ w = Compiled init_step cinit
           ∧ init_state w = init'
           ∧ m' = SetupMachine w4
                    (core_calls m
                     ++ [CallUseState step; CallVmap step; CallJit (Method step);
                         CallJit GetMonitorFitness; CallLoadStateDict;
                         CallUseState init_step; CallVmap init_step;
                         CallJit (Method init_step)])
       else
         _workflow_init_step_ w = _workflow_step_ w
         ∧ init_state w = init
         ∧ m' = SetupMachine w3
                  (core_calls m
                   ++ [CallUseState step; CallVmap step; CallJit (Method step);
                       CallJit GetMonitorFitness; CallLoadStateDict]))
    ∧ ∀ (is_parameter : V → bool) hp em,
        for_each (map_to_list hp) (check_hyper_parameter is_parameter w) = Ok () →
        ∃ rest,
          calls (evaluate is_parameter w hp em).1
          = calls em ++ (Method (if overrides_init_step wf then init_step else step),
                         hp ∪ init_state w) :: rest.
Proof.
  intros Hsetup n.
  destruct (setup_returns self wf m m' w Hsetup)
    as (monitor & w1 & st & init & cstep & w2 & fitness & w3 & _ & _ & Hstep & _ & _
        & _ & Hbranch).
  exists w1, st, init, cstep, w3.
  destruct (overrides_init_step wf) eqn:Hov.
  - destruct Hbranch as (w4 & st' & init' & cinit & Hinit & -> & ->).
    split; [exact Hstep|]. split; [reflexivity|]. split.
    + by exists w4, st', init', cinit.
    + intros is_parameter hp em Hcheck.
      destruct (evaluate_first_call is_parameter _ hp em Hcheck) as [rest Hrest].
      by exists rest.
  - destruct Hbranch as [-> ->].
    split; [exact Hstep|]. split; [reflexivity|]. split; [done|].
    intros is_parameter hp em Hcheck.
    destruct (evaluate_first_call is_parameter _ hp em Hcheck) as [rest Hrest].
    by exists rest.
Qed.

End SetupFacts.

(** ** The batched functions *)

Section BatchingFacts.
Import HPOProblemWrapper Core.
Context {T R G : Type}.
Variable draw : G → R * G.
Implicit Types (bs x y : bstate T) (f : R → state T → state T) (g : G).











End BatchingFacts.

Section ResolverMembership.
Import HPOProblemWrapper.
Context {T : Type}.
Implicit Types (nb ms : odict (tensor_obj T)).


Lemma first_identical_key (v : tensor_obj T) ms sk :
  first_identical v ms = Some sk → sk ∈ ms.*1.
Proof.
  intros (before & sv & after & -> & _)%first_identical_Some.
  rewrite fmap_app, fmap_cons. apply elem_of_app. right. by left.
Qed.


End ResolverMembership.

(** ** The rollout over the modelled core layer *)

Section ModelRollout.
Import HPOProblemWrapper Core.
Context {T R G : Type}.
Variable draw : G → R * G.
Implicit Types (bs x y example : bstate T) (f : R → state T → state T) (g : G).










End ModelRollout.

Section ModelEvaluate.
Import HPOProblemWrapper Core.
Context {T R G : Type}.
Variable draw : G → R * G.
Variables step_body init_step_body : R → state T → state T.
Variable attributes : odict (tensor_obj T).

Local Abbreviation setup := (model_setup draw step_body init_step_body attributes).



End ModelEvaluate.

(** ** Independence of the instances *)

Section RelatedRuns.
Import HPOProblemWrapper.
Context {V W : Type}.




End RelatedRuns.

Section Independence.
Import HPOProblemWrapper Core.
Context {T R G : Type}.
Variable draw : G → R * G.
Implicit Types (x y hp : bstate T) (f : R → state T → state T) (g : G).











End Independence.

(** ** What [evaluate] writes *)

Section Frame.
Import Store.
Context {W D : Type}.
Variable is_parameter : D → bool.
Implicit Types (h : heap W D) (self : Store.t W D).

Lemma preserved_refl h : preserved h h.
Proof. by split. Qed.

Lemma preserved_trans h1 h2 h3 : preserved h1 h2 → preserved h2 h3 → preserved h1 h3.
Proof. intros [? ?] [? ?]. split; by etrans. Qed.

Lemma bind_preserved {A B} (c : M (heap W D) A) (k : A → M (heap W D) B) h :
  preserved h (c h).1 → (∀ a h', preserved h' (k a h').1) →
  preserved h (bind c k h).1.
Proof.
  intros Hc Hk. unfold bind. destruct (c h) as [h' [a|e]]; simpl in *; [|done].
  eapply preserved_trans; [exact Hc|apply Hk].
Qed.

Lemma check_hyper_parameter_heap self kv h :
  (check_hyper_parameter is_parameter self kv h).1 = h.
Proof.
  destruct kv as [k v]. unfold check_hyper_parameter, bind, read_dict, lift, raise.
  destruct (dicts h !! init_state self) as [init|]; simpl; [|done].
  destruct (assert _); simpl; [|done].
  destruct (init !! k) as [v0|]; simpl; [|done].
  unfold read_tensor.
  destruct (tensors h !! v0); simpl; [|done].
  by destruct (tensors h !! v).
Qed.

Lemma check_loop_heap self (entries : list (string * nat)) h :
  (for_loop entries (λ kv _, check_hyper_parameter is_parameter self kv) () h).1 = h.
Proof.
  induction entries as [|kv entries IH]; simpl; [done|].
  unfold bind. pose proof (check_hyper_parameter_heap self kv h) as Hh.
  destruct (check_hyper_parameter is_parameter self kv h) as [h' [[]|e]];
    simpl in *; subst h'; [apply IH|done].
Qed.

Lemma step_loop_preserved {X} (f : callable W D) (xs : list X) s h :
  pure_callable f → preserved h (for_loop xs (λ _ state, f state) s h).1.
Proof.
  intros Hf. revert s h. induction xs as [|x xs IH]; intros s h; simpl.
  - apply preserved_refl.
  - apply bind_preserved; [apply Hf|]. intros a h'. apply IH.
Qed.

(** [copy()] allocates; [update()] then writes into the copy only. *)
Lemma copy_update_preserved {A} l other (k : nat → M (heap W D) A) h :
  (∀ state h', preserved h' (k state h').1) →
  preserved h
    (bind (dict_copy l) (λ state, bind (dict_update state other) (λ _, k state)) h).1.
Proof.
  intros Hk. unfold bind at 1, dict_copy, bind at 1, read_dict at 1.
  destruct (dicts h !! l) as [d|] eqn:Hl; simpl; [|apply preserved_refl].
  unfold bind at 1, dict_update, bind at 1, read_dict at 1. simpl.
  rewrite list_lookup_middle by done. simpl.
  unfold bind at 1, read_dict. simpl.
  destruct ((dicts h ++ [d]) !! other) as [o|] eqn:Ho; simpl.
  - eapply preserved_trans; [|apply Hk]. split; simpl; [done|].
    rewrite insert_app_r_alt by done. rewrite Nat.sub_diag. simpl.
    by apply prefix_app_r.
  - split; simpl; [done|]. by apply prefix_app_r.
Qed.

(** What [evaluate] does before the first compiled call. *)
Lemma evaluate_until_first_call self hyper_parameters h hp init :
  dicts h !! hyper_parameters = Some hp →
  dicts h !! init_state self = Some init →
  (for_loop (map_to_list hp)
            (λ kv _, check_hyper_parameter is_parameter self kv) () h).2 = Ok () →
  evaluate is_parameter self hyper_parameters h
  = bind (_workflow_init_step_ self (length (dicts h)))
      (λ state,
         bind (for_loop (range (iterations self - 1))
                        (λ _ state, _workflow_step_ self state) state)
              (λ state, _get_monitor_fitness_ self state))
      (Heap (library h) (tensors h) (dicts h ++ [hp ∪ init])).
Proof.
  intros Hhp Hinit Hcheck. unfold evaluate.
  unfold bind at 1, read_dict at 1. rewrite Hhp.
  unfold bind at 1.
  pose proof (check_loop_heap self (map_to_list hp) h) as Hh.
  destruct (for_loop (map_to_list hp) _ () h) as [h1 [[]|e]]; simpl in *;
    [|discriminate Hcheck].
  subst h1. unfold dict_copy.
  unfold bind at 1, bind at 1, read_dict at 1. rewrite Hinit. simpl.
  unfold bind at 1, dict_update, bind at 1, read_dict at 1. simpl.
  rewrite list_lookup_middle by done. simpl.
  unfold bind at 1, read_dict at 1. simpl.
  rewrite (lookup_app_l_Some _ _ _ _ Hhp). simpl.
  rewrite insert_app_r_alt by done. by rewrite Nat.sub_diag.
Qed.

(** C8 (amended). The statements of [evaluate] itself write to no object
    that exists when the call starts.  When the checks pass, the first
    compiled function is called on a dictionary that [copy()] has
    allocated at a new address and that [update()] has filled: it binds
    the keys of [hyper_parameters] and of [self.init_state] to the tensor
    objects to which these two bind them, and until then the store is
    otherwise what it was; when a check fails the store is what it was.
    The copy shares the tensor objects, so what happens to them is up to
    the compiled functions: if these write to no object that exists when
    they are called, then after the call every dictionary object and every
    tensor object of the store before the call is found at its address
    with its content. *)
Theorem evaluate_writes_only_its_copy self hyper_parameters h :
  let h' := (evaluate is_parameter self hyper_parameters h).1 in
  let checks :=
    for_loop (map_to_list (default ∅ (dicts h !! hyper_parameters)))
             (λ kv _, check_hyper_parameter is_parameter self kv) () h in
  (∀ hp init,
     dicts h !! hyper_parameters = Some hp →
     dicts h !! init_state self = Some init →
     checks.2 = Ok () →
     evaluate is_parameter self hyper_parameters h
     = bind (_workflow_init_step_ self (length (dicts h)))
         (λ state,
            bind (for_loop (range (iterations self - 1))
                           (λ _ state, _workflow_step_ self state) state)
                 (λ state, _get_monitor_fitness_ self state))
         (Heap (library h) (tensors h) (dicts h ++ [hp ∪ init])))
  ∧ (∀ e, is_Some (dicts h !! hyper_parameters) → checks.2 = Raise e →
       evaluate is_parameter self hyper_parameters h = (h, Raise e))
  ∧ (pure_callable (_workflow_init_step_ self) →
     pure_callable (_workflow_step_ self) →
     pure_callable (_get_monitor_fitness_ self) →
     preserved h h'
     ∧ (∀ l, l < length (dicts h) → dicts h' !! l = dicts h !! l)
     ∧ (∀ a, a < length (tensors h) → tensors h' !! a = tensors h !! a)).
Proof.
  intros h' checks. split_and!.
  - intros hp init Hhp Hinit Hcheck. unfold checks in Hcheck.
    rewrite Hhp in Hcheck. by apply evaluate_until_first_call.
  - intros e [hp Hhp] Hcheck. unfold checks in Hcheck. rewrite Hhp in Hcheck.
    simpl in Hcheck. unfold evaluate.
    unfold bind at 1, read_dict at 1. rewrite Hhp. unfold bind at 1.
    pose proof (check_loop_heap self (map_to_list hp) h) as Hh.
    destruct (for_loop (map_to_list hp) _ () h) as [h1 [[]|e1]]; simpl in *;
      [discriminate Hcheck|].
    by simplify_eq.
  - intros Hinit Hstep Hfit.
    assert (Hpres : preserved h h').
    { unfold h', evaluate.
      apply bind_preserved; [apply preserved_refl|]. intros hp h1.
      apply bind_preserved; [rewrite check_loop_heap; apply preserved_refl|].
      intros _ h2. apply copy_update_preserved. intros state h3.
      apply bind_preserved; [apply Hinit|]. intros s1 h4.
      apply bind_preserved; [by apply step_loop_preserved|]. intros s2 h5.
      apply Hfit. }
    split; [done|]. destruct Hpres as [Ht Hd]. split.
    + intros l Hl. symmetry. by apply prefix_lookup_lt.
    + intros a Ha. symmetry. by apply prefix_lookup_lt.
Qed.

End Frame.

(** ** The two embeddings of [evaluate] agree *)

Section Refinement.
Import Store.
Context {W D : Type}.
Variable is_parameter : D → bool.
Implicit Types (h : heap W D) (d : gmap string nat) (x : gmap string D).

Lemma lookup_contents h d k :
  contents h d !! k = d !! k ≫= λ a, tensors h !! a.
Proof. unfold contents. by rewrite lookup_omap. Qed.

Lemma contents_valid h d k a :
  map_Forall (λ _ a, a < length (tensors h)) d → d !! k = Some a →
  ∃ v, tensors h !! a = Some v ∧ contents h d !! k = Some v.
Proof.
  intros Hvalid Hk. destruct (lookup_lt_is_Some_2 (tensors h) a) as [v Hv].
  { by eapply (Hvalid k). }
  exists v. split; [done|]. by rewrite lookup_contents, Hk.
Qed.

Lemma contents_union h d1 d2 :
  map_Forall (λ _ a, a < length (tensors h)) d1 →
  contents h (d1 ∪ d2) = contents h d1 ∪ contents h d2.
Proof.
  intros Hvalid. apply map_eq. intros k.
  rewrite lookup_union, !lookup_contents, lookup_union.
  destruct (d1 !! k) as [a|] eqn:Hk; simpl.
  - destruct (contents_valid h d1 k a Hvalid Hk) as (v & Hv & _).
    rewrite union_Some_l. simpl. rewrite Hv. by rewrite union_Some_l.
  - by rewrite !(left_id_L None _).
Qed.

Lemma represents_preserved h h' l x :
  preserved h h' → represents h l x → represents h' l x.
Proof.
  intros [Ht Hd] (d & Hl & Hvalid & ->).
  exists d. split_and!.
  - rewrite <- (prefix_lookup_lt _ _ _ (lookup_lt_Some _ _ _ Hl) Hd). done.
  - intros k a Hk. specialize (Hvalid k a Hk). simpl in *.
    apply prefix_length in Ht. lia.
  - apply map_eq. intros k. rewrite !lookup_contents.
    destruct (d !! k) as [a|] eqn:Hk; simpl; [|done].
    apply prefix_lookup_lt; [|done]. by eapply (Hvalid k).
Qed.

(** One check on the store and on the states. *)
Lemma store_check_spec (sself : Store.t W D) (self : HPOProblemWrapper.t D W)
    h d_init d_hp k a :
  dicts h !! Store.init_state sself = Some d_init →
  map_Forall (λ _ a, a < length (tensors h)) d_init →
  map_Forall (λ _ a, a < length (tensors h)) d_hp →
  HPOProblemWrapper.init_state self = contents h d_init →
  d_hp !! k = Some a →
  ∃ v, contents h d_hp !! k = Some v
       ∧ check_hyper_parameter is_parameter sself (k, a) h
         = (h, HPOProblemWrapper.check_hyper_parameter is_parameter self (k, v)).
Proof.
  intros Hinit Hvi Hvh Hself Hk.
  destruct (contents_valid h d_hp k a Hvh Hk) as (v & Hv & Hc).
  exists v. split; [done|].
  rewrite check_hyper_parameter_cases, Hself.
  unfold check_hyper_parameter, bind, read_dict, lift, raise. rewrite Hinit.
  destruct (d_init !! k) as [a0|] eqn:Hk0.
  - destruct (contents_valid h d_init k a0 Hvi Hk0) as (v0 & Hv0 & ->).
    rewrite bool_decide_eq_true_2 by (apply elem_of_dom; by eexists). simpl.
    unfold read_tensor. rewrite Hv0, Hv. done.
  - rewrite bool_decide_eq_false_2 by by apply not_elem_of_dom. simpl.
    by rewrite lookup_contents, Hk0.
Qed.

(** The loop of checks on the store and on the states. *)
Lemma store_check_loop (sself : Store.t W D) (self : HPOProblemWrapper.t D W)
    h d_init d_hp :
  dicts h !! Store.init_state sself = Some d_init →
  map_Forall (λ _ a, a < length (tensors h)) d_init →
  map_Forall (λ _ a, a < length (tensors h)) d_hp →
  HPOProblemWrapper.init_state self = contents h d_init →
  for_loop (map_to_list d_hp)
           (λ kv _, check_hyper_parameter is_parameter sself kv) () h
  = (h, for_each (map_to_list (contents h d_hp))
                 (HPOProblemWrapper.check_hyper_parameter is_parameter self)).
Proof.
  intros Hinit Hvi Hvh Hself.
  set (vcheck := HPOProblemWrapper.check_hyper_parameter is_parameter self).
  set (good := λ kv : string * nat,
         ∃ v, contents h d_hp !! kv.1 = Some v ∧ vcheck (kv.1, v) = Ok ()).
  assert (Hloop : ∀ entries, Forall (λ kv, d_hp !! kv.1 = Some kv.2) entries →
    (for_loop entries (λ kv _, check_hyper_parameter is_parameter sself kv) () h
     = (h, Ok ()) ∧ Forall good entries)
    ∨ (for_loop entries (λ kv _, check_hyper_parameter is_parameter sself kv) () h
       = (h, Raise AssertionError) ∧ ¬ Forall good entries)).
  { induction 1 as [|[k a] entries Hk _ IH]; [left; by split|]. simpl in Hk.
    destruct (store_check_spec sself self h d_init d_hp k a Hinit Hvi Hvh Hself Hk)
      as (v & Hv & Hcheck).
    change (for_loop ((k, a) :: entries)
              (λ kv _, check_hyper_parameter is_parameter sself kv) () h)
      with (bind (check_hyper_parameter is_parameter sself (k, a))
              (for_loop entries
                 (λ kv _, check_hyper_parameter is_parameter sself kv)) h).
    unfold bind. rewrite Hcheck.
    destruct (check_hyper_parameter_result is_parameter self (k, v)) as [Hok|Hbad];
      rewrite Hok || rewrite Hbad.
    - destruct IH as [[-> Hall]|[-> Hnot]]; [left|right]; (split; [done|]).
      + apply Forall_cons. split; [|done]. by exists v.
      + rewrite Forall_cons. by intros [_ ?].
    - right. split; [done|]. rewrite Forall_cons. intros [(v' & Hv' & Hok') _].
      change (contents h d_hp !! k = Some v') in Hv'.
      change (vcheck (k, v') = Ok ()) in Hok'.
      rewrite Hv in Hv'. injection Hv' as <-.
      unfold vcheck in Hok'. congruence. }
  assert (Hgood : Forall good (map_to_list d_hp) ↔
                  Forall (λ kv, vcheck kv = Ok ()) (map_to_list (contents h d_hp))).
  { rewrite !Forall_forall. split.
    - intros Hall [k v] Hkv%elem_of_map_to_list.
      pose proof Hkv as Hkv'. rewrite lookup_contents in Hkv'.
      destruct (d_hp !! k) as [a|] eqn:Hk; [|done].
      destruct (Hall (k, a)) as (v' & Hv' & Hok); [by apply elem_of_map_to_list|].
      simpl in *. by simplify_eq.
    - intros Hall [k a] Hka%elem_of_map_to_list.
      destruct (contents_valid h d_hp k a Hvh Hka) as (v & _ & Hc).
      exists v. split; [done|]. by apply Hall, elem_of_map_to_list. }
  destruct (Hloop (map_to_list d_hp)) as [[-> Hall]|[-> Hnot]].
  { apply Forall_forall. intros [k a] Hka. by apply elem_of_map_to_list. }
  - f_equal. symmetry. by apply check_loop_ok, Hgood.
  - f_equal. symmetry.
    destruct (check_loop_result is_parameter self (map_to_list (contents h d_hp)))
      as [Hok|Hbad]; [|done].
    exfalso. by apply Hnot, Hgood, check_loop_ok.
Qed.

Lemma bind_corresponds {V A B} (P : heap W D → nat → A → Prop)
    (Q : heap W D → nat → B → Prop)
    (c : M (HPOProblemWrapper.machine V W) A) (k : A → M _ B)
    (sc : M (heap W D) nat) (sk : nat → M (heap W D) nat) m h :
  corresponds P (c m) (sc h) →
  (∀ y l m' h', P h' l y → library h' = HPOProblemWrapper.world m' →
                corresponds Q (k y m') (sk l h')) →
  corresponds Q (bind c k m) (bind sc sk h).
Proof.
  intros [Hlib Hres] Hk. unfold bind.
  destruct (c m) as [m' [y|e]], (sc h) as [h' [l|e']]; simpl in *; try done.
  by apply Hk.
Qed.

Lemma invoke_corresponds {A} (P : heap W D → nat → A → Prop) name
    (sf : callable W D) (f : HPOProblemWrapper.callable D W A) h l x
    (m : HPOProblemWrapper.machine D W) :
  implements P sf f → represents h l x →
  library h = HPOProblemWrapper.world m →
  corresponds P (HPOProblemWrapper.invoke name f x m) (sf l h).
Proof.
  intros Himpl Hx Hlib. destruct (Himpl h l x Hx) as (Hl & _ & Hres).
  unfold HPOProblemWrapper.invoke, corresponds. rewrite <- Hlib.
  destruct (f x (library h)) as [w' r]. by simpl in *.
Qed.

Lemma loop_corresponds {X} name (sf : callable W D)
    (f : HPOProblemWrapper.callable D W (gmap string D)) (xs : list X) h l x
    (m : HPOProblemWrapper.machine D W) :
  implements represents sf f → represents h l x →
  library h = HPOProblemWrapper.world m →
  corresponds represents
    (for_loop xs (λ _ state, HPOProblemWrapper.invoke name f state) x m)
    (for_loop xs (λ _ state, sf state) l h).
Proof.
  intros Himpl. revert h l x m.
  induction xs as [|a xs IH]; intros h l x m Hx Hlib; simpl.
  - by split.
  - eapply bind_corresponds; [by apply invoke_corresponds|].
    intros y l' m' h' Hy Hlib'. by apply IH.
Qed.

Lemma bind_run {S A B} (c : M S A) (k : A → M S B) s :
  bind c k s = match c s with
               | (s', Ok a) => k a s'
               | (s', Raise e) => (s', Raise e)
               end.
Proof. reflexivity. Qed.

Lemma run_read_dict {A} h l d (k : gmap string nat → M (heap W D) A) :
  dicts h !! l = Some d → bind (read_dict l) k h = k d h.
Proof. intros Hl. unfold bind, read_dict. by rewrite Hl. Qed.

Lemma run_copy_update {A} h l other d o (k : nat → M (heap W D) A) :
  dicts h !! l = Some d → dicts h !! other = Some o →
  bind (dict_copy l) (λ state, bind (dict_update state other) (λ _, k state)) h
  = k (length (dicts h)) (Heap (library h) (tensors h) (dicts h ++ [o ∪ d])).
Proof.
  intros Hl Ho. unfold dict_copy.
  rewrite bind_run, (run_read_dict h l d) by done.
  set (h1 := Heap (library h) (tensors h) (dicts h ++ [d])).
  assert (Hl1 : dicts h1 !! length (dicts h) = Some d)
    by (simpl; by apply list_lookup_middle).
  assert (Ho1 : dicts h1 !! other = Some o)
    by (simpl; by apply lookup_app_l_Some).
  unfold dict_update.
  rewrite bind_run, (run_read_dict h1 _ d) by done.
  rewrite (run_read_dict h1 other o) by done.
  simpl. rewrite insert_app_r_alt by done. by rewrite Nat.sub_diag.
Qed.

(** The method on the store does what the method on the states does.  So
    the record of calls and the fitness of the first embedding and the
    frame of the second one describe the same call. *)
Lemma evaluate_on_store_corresponds (sself : Store.t W D)
    (self : HPOProblemWrapper.t D W) h lhp hp cs :
  implements represents (Store._workflow_init_step_ sself)
    (HPOProblemWrapper.run (HPOProblemWrapper._workflow_init_step_ self)) →
  implements represents (Store._workflow_step_ sself)
    (HPOProblemWrapper.run (HPOProblemWrapper._workflow_step_ self)) →
  implements holds (Store._get_monitor_fitness_ sself)
    (HPOProblemWrapper._get_monitor_fitness_ self) →
  Store.iterations sself = HPOProblemWrapper.iterations self →
  represents h (Store.init_state sself) (HPOProblemWrapper.init_state self) →
  represents h lhp hp →
  corresponds holds
    (HPOProblemWrapper.evaluate is_parameter self hp (HPOProblemWrapper.Machine (library h) cs))
    (Store.evaluate is_parameter sself lhp h).
Proof.
  intros Hinit Hstep Hfit Hiter (d_init & Hl_init & Hv_init & Hself)
    (d_hp & Hl_hp & Hv_hp & ->).
  unfold Store.evaluate.
  rewrite (run_read_dict h lhp d_hp) by done.
  rewrite bind_run.
  rewrite (store_check_loop sself self h d_init d_hp Hl_init Hv_init Hv_hp Hself).
  unfold HPOProblemWrapper.evaluate. rewrite bind_run. unfold lift.
  destruct (for_each _ _) as [[]|e]; [|by split].
  rewrite (run_copy_update h _ lhp d_init d_hp) by done.
  set (h2 := Heap (library h) (tensors h) (dicts h ++ [d_hp ∪ d_init])).
  assert (Hs0 : represents h2 (length (dicts h))
                  (contents h d_hp ∪ HPOProblemWrapper.init_state self)).
  { exists (d_hp ∪ d_init). split_and!.
    - unfold h2. simpl. by apply list_lookup_middle.
    - by apply map_Forall_union_2.
    - rewrite Hself. symmetry. by apply (contents_union h2). }
  eapply bind_corresponds; [by apply invoke_corresponds|].
  intros s1 l1 m1 h3 Hs1 Hlib1.
  eapply bind_corresponds.
  { rewrite Hiter. by apply loop_corresponds. }
  intros s2 l2 m2 h4 Hs2 Hlib2.
  by apply invoke_corresponds.
Qed.

(** *** Functions on states as functions on the store *)

Lemma alloc_state_spec x h :
  represents (alloc_state x h).1 (alloc_state x h).2 x
  ∧ preserved h (alloc_state x h).1
  ∧ library (alloc_state x h).1 = library h.
Proof.
  unfold alloc_state. simpl.
  set (entries := map_to_list x). set (n := length (tensors h)).
  set (d := list_to_map (zip entries.*1 (seq n (length entries)))).
  assert (Hfst : (zip entries.*1 (seq n (length entries))).*1 = entries.*1).
  { apply fst_zip. by rewrite length_fmap, length_seq. }
  assert (Hd : ∀ k a, d !! k = Some a →
                      ∃ i, entries.*1 !! i = Some k ∧ a = n + i ∧ i < length entries).
  { intros k a Hk%elem_of_list_to_map_2.
    apply list_elem_of_lookup in Hk as [i Hi].
    apply lookup_zip_Some in Hi as [Hk Ha]. apply lookup_seq in Ha as [-> Hi].
    by exists i. }
  split_and!; [|split; simpl; by apply prefix_app_r|done].
  exists d. split_and!.
  - simpl. by apply list_lookup_middle.
  - intros k a Hk. simpl. destruct (Hd k a Hk) as (i & _ & -> & Hi).
    rewrite length_app, length_fmap. fold n entries. lia.
  - apply map_eq. intros k. rewrite lookup_contents. simpl.
    destruct (x !! k) as [v|] eqn:Hx.
    + apply elem_of_map_to_list in Hx. fold entries in Hx.
      apply list_elem_of_lookup in Hx as [i Hi].
      assert (Hk : d !! k = Some (n + i)).
      { apply elem_of_list_to_map_1.
        - rewrite Hfst. apply NoDup_fst_map_to_list.
        - apply list_elem_of_lookup. exists i. apply lookup_zip_Some. split.
          + by rewrite list_lookup_fmap, Hi.
          + apply lookup_seq. split; [done|]. by eapply lookup_lt_Some. }
      rewrite Hk. simpl. rewrite lookup_app_r by (fold n; lia).
      fold n. replace (n + i - n) with i by lia.
      by rewrite list_lookup_fmap, Hi.
    + assert (Hk : d !! k = None); [|by rewrite Hk].
      apply not_elem_of_list_to_map_1. rewrite Hfst.
      intros ([k' v] & -> & Hin)%list_elem_of_fmap.
      apply elem_of_map_to_list in Hin. simpl in Hx. congruence.
Qed.

Lemma on_store_implements (f : HPOProblemWrapper.callable D W (gmap string D)) :
  implements represents (on_store f) f.
Proof.
  intros h l x (d & Hl & Hvalid & ->). unfold on_store. rewrite Hl.
  destruct (f (contents h d) (library h)) as [w' [y|e]]; simpl.
  - destruct (alloc_state_spec y (Heap w' (tensors h) (dicts h)))
      as (Hrep & [Ht Hd] & Hlib).
    unfold alloc_state in *. simpl in *. split_and!; [done|by split|done].
  - split_and!; [done|by split|done].
Qed.

Lemma tensor_on_store_implements (f : HPOProblemWrapper.callable D W D) :
  implements holds (tensor_on_store f) f.
Proof.
  intros h l x (d & Hl & Hvalid & ->). unfold tensor_on_store. rewrite Hl.
  destruct (f (contents h d) (library h)) as [w' [v|e]]; simpl.
  - split_and!; [done| |].
    + split; simpl; [by apply prefix_app_r|done].
    + unfold holds. simpl. by apply list_lookup_middle.
  - split_and!; [done| |done]. by split.
Qed.

Lemma on_store_pure (f : HPOProblemWrapper.callable D W (gmap string D)) :
  pure_callable (on_store f).
Proof.
  intros l h. unfold on_store.
  destruct (dicts h !! l) as [d|]; [|by split].
  destruct (f (contents h d) (library h)) as [w' [y|e]]; simpl; [|by split].
  destruct (alloc_state_spec y (Heap w' (tensors h) (dicts h)))
    as (_ & [Ht Hd] & _).
  unfold alloc_state in *. simpl in *. by split.
Qed.

Lemma tensor_on_store_pure (f : HPOProblemWrapper.callable D W D) :
  pure_callable (tensor_on_store f).
Proof.
  intros l h. unfold tensor_on_store.
  destruct (dicts h !! l) as [d|]; [|by split].
  destruct (f (contents h d) (library h)) as [w' [v|e]]; simpl; [|by split].
  split; simpl; [by apply prefix_app_r|done].
Qed.

(** [evaluate] on the store, with the compiled functions of an object put
    on the store, does what [evaluate] on the states does. *)
Lemma evaluate_on_store (self : HPOProblemWrapper.t D W) h l lhp hp cs :
  represents h l (HPOProblemWrapper.init_state self) →
  represents h lhp hp →
  corresponds holds
    (HPOProblemWrapper.evaluate is_parameter self hp
       (HPOProblemWrapper.Machine (library h) cs))
    (Store.evaluate is_parameter (wrapper_on_store self l) lhp h).
Proof.
  intros Hinit Hhp. apply evaluate_on_store_corresponds; try done.
  - apply on_store_implements.
  - apply on_store_implements.
  - apply tensor_on_store_implements.
Qed.

End Refinement.

(** ** The theorems on the small workflow *)


Lemma demo_setup :
  let r := Demo.setup Demo.cfg Demo.workflow (HPOProblemWrapper.SetupMachine 2%Z []) in
  r.2 = Ok Demo.wrapper
  ∧ HPOProblemWrapper.core_calls r.1
    = [CallUseState step; CallVmap step; CallJit (Method step);
       CallJit GetMonitorFitness; CallLoadStateDict].
Proof. split; reflexivity. Qed.

(** A workflow whose monitor is a plain [HPOMonitor], without buffers:
    the numbers of the count assertion agree, and [setup] raises when it
    traces the function that reads the fitness, which runs the
    [tell_fitness] of the base class. *)
Example demo_setup_base_monitor :
  let monitor : submodule Z (Core.btensor Z) :=
    Submodule ["HPOMonitor"; "Monitor"; "ABC"; "object"] [] []
              HPOMonitor_tell_fitness in
  let wf := MkWorkflow {["monitor" := monitor]} false in
  let r := Demo.setup Demo.cfg wf (HPOProblemWrapper.SetupMachine 2%Z []) in
  length (HPOProblemWrapper.resolve_monitor_keys Demo.attributes (state_dict monitor))
  = length (state_dict monitor)
  ∧ r.2 = Raise NotImplementedError
  ∧ HPOProblemWrapper.core_calls r.1
    = [CallUseState step; CallVmap step; CallJit (Method step);
       CallJit GetMonitorFitness].
Proof. split_and!; reflexivity. Qed.



(** C9 on a workflow whose monitor is a plain [Monitor]. *)
Lemma setup_rejects_monitor_without_tell_fitness_witness :
  Demo.setup Demo.cfg Demo.workflow_with_plain_monitor
    (HPOProblemWrapper.SetupMachine 2%Z [])
  = (HPOProblemWrapper.SetupMachine 2%Z [], Raise AssertionError).
Proof.
  eapply (setup_rejects_monitor_without_tell_fitness (Core.traced Z Z)).
  - reflexivity.
  - reflexivity.
Defined.

(** C4 on the small workflow: the key of the state that holds the buffer of
    the monitor is mapped to [best_fitness]. *)
Lemma monitor_keys_by_identity_witness :
  odict_get "monitor.best_fitness"
    (HPOProblemWrapper.resolve_monitor_keys Demo.attributes (state_dict Demo.monitor))
  = odict_get "monitor.best_fitness" Demo.attributes
      ≫= λ v, HPOProblemWrapper.first_identical v (state_dict Demo.monitor).
Proof.
  refine (proj1 (monitor_keys_by_identity (Core.traced Z Z)
                   (Core.use_state_call Demo.step_body Demo.step_body Demo.attributes)
                   Core.traced_init (Core.vmap_call_of Demo.draw) Core.jit_call
                   Core.load_state_dict
                   Demo.cfg Demo.workflow Demo.monitor
                   (HPOProblemWrapper.SetupMachine 2%Z []) 2%Z
                   (Core.use_state Demo.step_body Demo.step_body Demo.attributes
                      Demo.workflow step)
                   _ _ _ _)
            "monitor.best_fitness").
  - reflexivity.
  - reflexivity.
  - reflexivity.
  - apply (bool_decide_unpack _). vm_compute. exact I.
Defined.

(** C6 on the small workflow, without and with an [init_step] of its own. *)
Lemma setup_chooses_first_step_witness :
  (∃ w,
     (Demo.setup Demo.cfg Demo.workflow (HPOProblemWrapper.SetupMachine 2%Z [])).2
     = Ok w
     ∧ HPOProblemWrapper._workflow_init_step_ w = HPOProblemWrapper._workflow_step_ w)
  ∧ (∃ w,
       (Demo.setup Demo.cfg Demo.workflow_with_init_step
          (HPOProblemWrapper.SetupMachine 2%Z [])).2 = Ok w
       ∧ HPOProblemWrapper.traced_from (HPOProblemWrapper._workflow_init_step_ w)
         = init_step).
Proof.
  split.
  - exists Demo.wrapper. split; [reflexivity|].
    assert (Hsetup :
      Demo.setup Demo.cfg Demo.workflow (HPOProblemWrapper.SetupMachine 2%Z [])
      = ((Demo.setup Demo.cfg Demo.workflow
            (HPOProblemWrapper.SetupMachine 2%Z [])).1, Ok Demo.wrapper))
      by reflexivity.
    destruct (setup_chooses_first_step (Core.traced Z Z)
                (Core.use_state_call Demo.step_body Demo.step_body Demo.attributes)
                Core.traced_init (Core.vmap_call_of Demo.draw) Core.jit_call
                Core.load_state_dict
                Demo.cfg Demo.workflow (HPOProblemWrapper.SetupMachine 2%Z []) _ _
                Hsetup)
      as (w1 & st & init & cstep & w3 & _ & _ & (Hfirst & _) & _).
    exact Hfirst.
  - exists Demo.wrapper_with_init_step. split; [reflexivity|].
    assert (Hsetup :
      Demo.setup Demo.cfg Demo.workflow_with_init_step
        (HPOProblemWrapper.SetupMachine 2%Z [])
      = ((Demo.setup Demo.cfg Demo.workflow_with_init_step
            (HPOProblemWrapper.SetupMachine 2%Z [])).1,
         Ok Demo.wrapper_with_init_step))
      by reflexivity.
    destruct (setup_chooses_first_step (Core.traced Z Z)
                (Core.use_state_call Demo.step_body Demo.step_body Demo.attributes)
                Core.traced_init (Core.vmap_call_of Demo.draw) Core.jit_call
                Core.load_state_dict
                Demo.cfg Demo.workflow_with_init_step
                (HPOProblemWrapper.SetupMachine 2%Z []) _ _ Hsetup)
      as (w1 & st & init & cstep & w3 & _ & _ & (w4 & st' & init' & cinit & _ & Hfirst & _)
          & _).
    by rewrite Hfirst.
Defined.

(** C8 on the store of the small workflow, whose compiled functions
    allocate their results: after the call the dictionary at
    [self.init_state] and the tensor of the stored lower bound are what
    they were. *)
Lemma evaluate_writes_only_its_copy_witness :
  let h' := (Store.evaluate Core.parameter Demo.store_wrapper 1 Demo.heap).1 in
  Store.dicts h' !! 0 = Store.dicts Demo.heap !! 0
  ∧ Store.tensors h' !! 0 = Store.tensors Demo.heap !! 0.
Proof.
  intros h'.
  destruct (evaluate_writes_only_its_copy Core.parameter
              Demo.store_wrapper 1 Demo.heap)
    as (_ & _ & Hframe).
  destruct Hframe as (_ & Hdicts & Htensors).
  - apply on_store_pure.
  - apply on_store_pure.
  - apply tensor_on_store_pure.
  - split.
    + apply Hdicts. simpl. lia.
    + apply Htensors. simpl. lia.
Defined.

(** C8 as stated fails when a compiled step works in place.  The
    dictionary that [copy()] allocates binds ["algorithm.fit"] to the
    tensor object to which [self.init_state] binds it, and the step writes
    into this object: the call returns, [self.init_state] is the same
    dictionary with the same keys and addresses, and its tensor under
    ["algorithm.fit"] has another content than before the call. *)
Lemma evaluate_in_place_counterexample :
  let self := Demo.in_place_wrapper in
  let h := Demo.heap in
  let r := Store.evaluate Core.parameter self 1 h in
  let init := {["algorithm.lb" := 0; "algorithm.ub" := 1; "algorithm.fit" := 2;
                "monitor.best_fitness" := 3]} : gmap string nat in
  Store.dicts h !! Store.init_state self = Some init
  ∧ contents h init !! "algorithm.fit" = Some (Core.BTensor false [0; 0]%Z)
  ∧ (∃ a, r.2 = Ok a)
  ∧ Store.dicts r.1 !! Store.init_state self = Some init
  ∧ contents r.1 init !! "algorithm.fit" = Some (Core.BTensor false [-10; -4]%Z)
  ∧ ¬ Store.preserved h r.1.
Proof.
  split_and!; try reflexivity.
  - eexists. reflexivity.
  - intros [Ht _]. apply (prefix_lookup_Some _ _ 2 (Core.BTensor false [0; 0]%Z)) in Ht;
      [|reflexivity].
    vm_compute in Ht. discriminate Ht.
Qed.

(** C4 as stated fails when an object is held under two keys.  With the
    monitor registered under two paths of the workflow, its only buffer is
    recorded twice and [setup] raises although every buffer of the monitor
    is reachable; and when the buffer that is held twice makes up for one
    that is missing, the numbers agree and [setup] goes on although a buffer
    of the monitor is not reachable.  The two buffers of the second monitor
    have equal contents. *)
Lemma monitor_keys_count_counterexample :
  let shared := TensorObj 4 false 1000%Z in
  let other := TensorObj 9 false 1000%Z in
  let nb := [("monitor.best_fitness", shared);
             ("algorithm.monitor.best_fitness", shared)] in
  let ms1 := [("best_fitness", shared)] in
  let ms2 := [("best_fitness", shared); ("last_fitness", other)] in
  let wf1 := MkWorkflow {["monitor" := HPOFitnessMonitor_obj shared]} false in
  let wf2 :=
    MkWorkflow
      {["monitor" := Submodule (mro Demo.monitor) [] ms2
                       HPOFitnessMonitor_tell_fitness]} false in
  NoDup nb.*1 ∧ NoDup ms1.*1 ∧ NoDup ms2.*1
  ∧ all_reachable nb ms1
  ∧ length (HPOProblemWrapper.resolve_monitor_keys nb ms1) ≠ length ms1
  ∧ model_setup Demo.draw Demo.step_body Demo.step_body nb Demo.cfg wf1
      (HPOProblemWrapper.SetupMachine 2%Z [])
    = (HPOProblemWrapper.SetupMachine 2%Z [CallUseState step], Raise AssertionError)
  ∧ ¬ all_reachable nb ms2
  ∧ length (HPOProblemWrapper.resolve_monitor_keys nb ms2) = length ms2
  ∧ ∃ w, (model_setup Demo.draw Demo.step_body Demo.step_body nb Demo.cfg wf2
            (HPOProblemWrapper.SetupMachine 2%Z [])).2
         = Ok w.
Proof.
  intros shared other nb ms1 ms2 wf1 wf2.
  split_and!.
  - apply (bool_decide_unpack _). vm_compute. exact I.
  - apply (bool_decide_unpack _). vm_compute. exact I.
  - apply (bool_decide_unpack _). vm_compute. exact I.
  - intros sk sv Hin. apply list_elem_of_singleton in Hin as [= -> ->].
    exists "monitor.best_fitness", shared. split; [by left|done].
  - vm_compute. discriminate.
  - reflexivity.
  - intros Hall. destruct (Hall "last_fitness" other) as (k & v & Hin & Ha).
    + right. by left.
    + unfold nb in Hin. rewrite !elem_of_cons in Hin.
      destruct Hin as [[= _ ->]|[[= _ ->]|Hin]]; [by vm_compute in Ha..|].
      by apply elem_of_nil in Hin.
  - reflexivity.
  - eexists. reflexivity.
Qed.

(** The rollout of the small workflow, computed for the two mappings of
    hyperparameters: the fitness of instance 0 changes with its lower bound,
    the fitness of instance 1 does not. *)
Example demo_evaluate :
  (HPOProblemWrapper.evaluate Core.parameter Demo.wrapper Demo.hyper_parameters
     (HPOProblemWrapper.Machine 2%Z [])).2
  = Ok (Core.BTensor false [4; 1]%Z)
  ∧ (HPOProblemWrapper.evaluate Core.parameter Demo.wrapper Demo.hyper_parameters'
       (HPOProblemWrapper.Machine 2%Z [])).2
    = Ok (Core.BTensor false [0; 1]%Z).
Proof. split; vm_compute; reflexivity. Qed.

(** The same call on the store: the generator ends in the same state, and
    the returned address holds the same fitness. *)
Example demo_evaluate_on_store :
  let r := Store.evaluate Core.parameter Demo.store_wrapper 1 Demo.heap in
  Store.library r.1
  = HPOProblemWrapper.world
      (HPOProblemWrapper.evaluate Core.parameter Demo.wrapper Demo.hyper_parameters
         (HPOProblemWrapper.Machine 2%Z [])).1
  ∧ ∃ a, r.2 = Ok a ∧ Store.tensors r.1 !! a = Some (Core.BTensor false [4; 1]%Z).
Proof. split; [vm_compute; reflexivity|]. eexists. split; vm_compute; reflexivity. Qed.

(** ** More on the buffer of [HPOFitnessMonitor] *)

Section MonitorFacts.
Import HPOFitnessMonitor.

Lemma is_nan_true x : is_nan x = true → x = S754_nan.
Proof. by destruct x. Qed.

Lemma minimum_cases a b : minimum a b = a ∨ minimum a b = b.
Proof. unfold minimum. destruct (is_nan a), (is_nan b), (SFltb b a); auto. Qed.

Lemma minimum_nan_l b : minimum S754_nan b = S754_nan.
Proof. reflexivity. Qed.

Lemma minimum_nan_r a : minimum a S754_nan = S754_nan.
Proof. unfold minimum. destruct (is_nan a) eqn:H; [by apply is_nan_true|done]. Qed.

(** [torch.min] of a tensor is one of its elements. *)
Lemma foldl_minimum_elem xs x : foldl minimum x xs ∈ x :: xs.
Proof.
  revert x. induction xs as [|y ys IH]; intros x; simpl; [by left|].
  specialize (IH (minimum x y)). apply elem_of_cons in IH as [->|IH].
  - destruct (minimum_cases x y) as [->| ->]; [by left|right; by left].
  - right. by right.
Qed.

(** [torch.min] of a tensor that holds a NaN is NaN. *)
Lemma foldl_minimum_nan xs x : S754_nan ∈ x :: xs → foldl minimum x xs = S754_nan.
Proof.
  revert x. induction xs as [|y ys IH]; intros x Hin; simpl.
  - by apply list_elem_of_singleton in Hin.
  - apply IH. apply elem_of_cons in Hin as [<-|Hin]; [by left|].
    apply elem_of_cons in Hin as [<-|Hin]; [|by right].
    rewrite minimum_nan_r. by left.
Qed.

(** The minimum of a tensor of integers is one of its elements. *)
Lemma foldl_min_elem zs z : foldl Z.min z zs ∈ z :: zs.
Proof.
  revert z. induction zs as [|y ys IH]; intros z; simpl; [by left|].
  specialize (IH (Z.min z y)). apply elem_of_cons in IH as [->|IH].
  - destruct (Z.min_spec z y) as [[_ ->]|[_ ->]]; [by left|right; by left].
  - right. by right.
Qed.

Lemma seen_snoc calls f : seen (calls ++ [f]) = seen calls ++ floats f.
Proof. unfold seen. rewrite flat_map_app. simpl. by rewrite app_nil_r. Qed.

Lemma seen_ints_snoc calls f :
  seen_ints (calls ++ [f])
  = seen_ints calls ++ match f with IntVector zs => zs | _ => [] end.
Proof. unfold seen_ints. rewrite flat_map_app. simpl. by rewrite app_nil_r. Qed.

Lemma seen_ints_nan_free calls : Forall nan_free_vector calls → seen_ints calls = [].
Proof.
  unfold seen_ints. induction 1 as [|f calls Hf _ IH]; [done|].
  simpl. rewrite IH. by destruct f.
Qed.


(** X1. A fitness tensor that is not one-dimensional (the multi-objective
    case, or a scalar) is ignored by [pre_tell]: the call returns, and it
    leaves the monitor as it was, whether [setup] has run or not and
    whatever the tensor holds; so does any sequence of such calls. *)
Theorem pre_tell_ignores_multi_objective self calls :
  Forall (λ f, ndim f ≠ 1) calls →
  Forall (λ f, pre_tell self f = Ok self) calls ∧ run self calls = self.
Proof.
  intros Hcalls. split.
  - eapply Forall_impl; [exact Hcalls|]. intros f Hf. simpl in Hf.
    unfold pre_tell. by destruct f.
  - unfold run. induction Hcalls as [|f calls Hf _ IH]; [done|].
    simpl. unfold after_pre_tell, pre_tell. by destruct f.
Qed.

(** After [setup] the buffer exists, and it holds plus infinity, a value
    that some one-dimensional argument of floats held, or the conversion
    to float32 or to float64 of a value that some one-dimensional argument
    of integers held. *)
Lemma run_attained self calls :
  ∃ b, tell_fitness (run (setup self) calls) = Ok b
       ∧ (b = inf ∨ b ∈ seen calls
          ∨ ∃ d z, z ∈ seen_ints calls ∧ b = of_int d z).
Proof.
  induction calls as [|f calls IH] using rev_ind.
  - exists inf. split; [done|by left].
  - destruct IH as (b & Hb & Hin).
    rewrite run_snoc, seen_snoc, seen_ints_snoc.
    assert (Hkeep : ∀ l l', b = inf ∨ b ∈ seen calls ++ l
                            ∨ ∃ d z, z ∈ seen_ints calls ++ l' ∧ b = of_int d z).
    { intros l l'.
      destruct Hin as [->|[Hin|(d & z & Hz & ->)]]; [by left|right; left|right; right].
      - apply elem_of_app. by left.
      - exists d, z. split; [|done]. apply elem_of_app. by left. }
    destruct (floats f) as [|x xs] eqn:Hfl.
    + destruct f as [|ys| |ys|[|z zs]]; simpl in Hfl; try done;
        try (exists b; split; [by rewrite tell_after_other|by apply Hkeep]).
      destruct (tell_after_ints _ b z zs Hb) as [d Hd].
      eexists. split; [exact Hd|].
      destruct (minimum_cases (of_int d (foldl Z.min z zs)) b) as [->| ->];
        [|by apply Hkeep].
      right. right. eexists d, _. split; [|reflexivity].
      apply elem_of_app. right. apply foldl_min_elem.
    + eexists. split; [by apply tell_after_floats|].
      destruct (minimum_cases (foldl minimum x xs) b) as [->| ->]; [|by apply Hkeep].
      right. left. apply elem_of_app. right. apply foldl_minimum_elem.
Qed.


(** Once the buffer is NaN it stays NaN. *)
Lemma run_nan_kept m calls :
  tell_fitness m = Ok S754_nan → tell_fitness (run m calls) = Ok S754_nan.
Proof.
  revert m. unfold run. induction calls as [|f calls IH]; intros m Hm; [done|].
  simpl. apply IH.
  destruct (floats f) as [|x xs] eqn:Hfl.
  - destruct f as [|ys| |ys|[|z zs]]; simpl in Hfl; try done;
      try (by rewrite tell_after_other).
    destruct (tell_after_ints _ _ z zs Hm) as [d Hd].
    by rewrite Hd, minimum_nan_r.
  - by rewrite (tell_after_floats _ _ _ x xs Hm Hfl), minimum_nan_r.
Qed.

(** X3. NaN is absorbing: after [setup], once a one-dimensional fitness
    argument of floats has held a NaN, [tell_fitness] returns NaN,
    whatever was seen before and whatever is seen afterwards. *)
Theorem best_fitness_nan_is_kept self before f after :
  S754_nan ∈ floats f →
  tell_fitness (run (setup self) (before ++ f :: after)) = Ok S754_nan.
Proof.
  intros Hnan.
  unfold run. rewrite foldl_app. simpl. fold (run (setup self) before).
  match goal with |- context [foldl after_pre_tell ?m after] =>
    fold (run m after); apply (run_nan_kept m after)
  end.
  destruct (run_attained self before) as (b & Hb & _).
  destruct (floats f) as [|x xs] eqn:Hfl; [by apply elem_of_nil in Hnan|].
  rewrite (tell_after_floats _ _ _ x xs Hb Hfl).
  by rewrite (foldl_minimum_nan xs x Hnan).
Qed.

(** X4. Before [setup] the buffer does not exist: [tell_fitness] raises,
    [pre_tell] raises on every one-dimensional fitness (inside [torch.min]
    when it is empty, at the read of [self.best_fitness] otherwise), and no
    sequence of [pre_tell] calls creates the buffer. *)
Theorem monitor_unusable_before_setup indicator calls :
  let m := Build indicator None in
  tell_fitness m = Raise AttributeError
  ∧ (∀ xs, pre_tell m (Vector xs)
           = Raise (match xs with [] => RuntimeError | _ => AttributeError end))
  ∧ (∀ xs, pre_tell m (Vector64 xs)
           = Raise (match xs with [] => RuntimeError | _ => AttributeError end))
  ∧ (∀ zs, pre_tell m (IntVector zs)
           = Raise (match zs with [] => RuntimeError | _ => AttributeError end))
  ∧ run m calls = m.
Proof.
  split_and!; [done|by intros [|x xs]..|].
  unfold run. induction calls as [|f calls IH]; [done|].
  simpl. unfold after_pre_tell, pre_tell.
  by destruct f as [|[|x xs]| |[|x xs]|[|z zs]].
Qed.

Lemma lex_le_antisym a b : lex_le a b → lex_le b a → lex_compare a b = Eq.
Proof.
  unfold lex_le, lex_compare. intros H1 H2.
  destruct (Z.compare_spec a.1.1 b.1.1), (Z.compare_spec a.1.2 b.1.2),
    (Z.compare_spec a.2 b.2); try done; lia.
Qed.

(** Two least elements of a list compare equal (they may differ in the
    sign of a zero). *)
Lemma least_unique b1 b2 l : least b1 l → least b2 l → SFcompare b1 b2 = Some Eq.
Proof.
  intros [Hin1 Hle1] [Hin2 Hle2].
  pose proof (Hle1 _ Hin2) as H12. pose proof (Hle2 _ Hin1) as H21.
  destruct (SFleb_not_nan _ _ H12) as [Hn1 Hn2].
  rewrite SFcompare_key by done. f_equal.
  apply lex_le_antisym; by apply SFleb_key.
Qed.

(** Along NaN-free one-dimensional calls on floats the buffer is a least
    element of plus infinity and everything seen. *)
Lemma run_least self calls :
  Forall nan_free_vector calls →
  ∃ b, tell_fitness (run (setup self) calls) = Ok b ∧ least b (inf :: seen calls).
Proof.
  intros Hcalls.
  destruct (run_attained self calls) as (b & Hb & Hin).
  destruct (run_best_fitness self calls Hcalls) as (b' & Hb' & Hnan).
  rewrite Hb in Hb'. simplify_eq.
  exists b'. split; [done|]. split.
  { destruct Hin as [->|[Hin|(d & z & Hz & _)]]; [by left|by right|].
    rewrite (seen_ints_nan_free calls Hcalls) in Hz. by apply elem_of_nil in Hz. }
  clear Hin. revert b' Hb Hnan.
  induction calls as [|f calls IH] using rev_ind; intros b Hb Hnan x Hx.
  - apply list_elem_of_singleton in Hx as ->. by apply SFleb_inf.
  - apply Forall_app in Hcalls as [Hcalls Hf%Forall_inv].
    destruct (run_best_fitness self calls Hcalls) as (b0 & Hb0 & Hnan0).
    destruct (after_pre_tell_spec _ f b0 Hb0 Hnan0 Hf) as (b1 & Hb1 & Hle & Hseen).
    rewrite run_snoc in Hb. rewrite Hb in Hb1. simplify_eq.
    rewrite seen_snoc in Hx. rewrite app_comm_cons in Hx.
    apply elem_of_app in Hx as [Hx|Hx].
    + eapply SFleb_trans; [exact Hle|]. by apply (IH Hcalls b0).
    + by apply Hseen.
Qed.

(** X5. How the calls are cut does not matter: after [setup], a sequence
    of [pre_tell] calls on NaN-free one-dimensional tensors of floats
    leaves a value that compares equal to the one left by a single call
    on one tensor that holds all their elements, be it of dtype float64
    (as their concatenation is when one of them is) or not. *)
Theorem pre_tell_calls_merge self calls :
  Forall nan_free_vector calls →
  ∃ b1 b2 b3,
    tell_fitness (run (setup self) calls) = Ok b1
    ∧ tell_fitness (run (setup self) [Vector (seen calls)]) = Ok b2
    ∧ SFcompare b1 b2 = Some Eq
    ∧ tell_fitness (run (setup self) [Vector64 (seen calls)]) = Ok b3
    ∧ SFcompare b1 b3 = Some Eq.
Proof.
  intros Hcalls.
  assert (Hnan : Forall (λ x, is_nan x = false) (seen calls)).
  { unfold seen.
    induction Hcalls as [|f calls Hf _ IH]; simpl; [done|].
    apply Forall_app. split; [|done]. by destruct f. }
  assert (Hone : Forall nan_free_vector [Vector (seen calls)])
    by by apply Forall_singleton.
  assert (Hone64 : Forall nan_free_vector [Vector64 (seen calls)])
    by by apply Forall_singleton.
  destruct (run_least self calls Hcalls) as (b1 & Hb1 & Hl1).
  destruct (run_least self _ Hone) as (b2 & Hb2 & Hl2).
  destruct (run_least self _ Hone64) as (b3 & Hb3 & Hl3).
  exists b1, b2, b3.
  unfold seen in Hl2, Hl3. simpl in Hl2, Hl3. rewrite app_nil_r in Hl2, Hl3.
  split_and!; [done|done| |done|].
  - by apply (least_unique _ _ (inf :: seen calls)).
  - by apply (least_unique _ _ (inf :: seen calls)).
Qed.


End MonitorFacts.



(** X1 at a matrix, a scalar and an empty matrix. *)
Lemma pre_tell_ignores_multi_objective_witness :
  let m := HPOFitnessMonitor.setup (HPOFitnessMonitor.Build None None) in
  let calls := [Matrix [[dyadic 3 (-1); S754_nan]]; Scalar (dyadic 1 1); Matrix []] in
  Forall (λ f, HPOFitnessMonitor.pre_tell m f = Ok m) calls
  ∧ HPOFitnessMonitor.run m calls = m.
Proof.
  intros m calls. apply (pre_tell_ignores_multi_objective m calls).
  repeat constructor; simpl; lia.
Defined.

(** X3 at the calls [[0.75]], [[2.0; nan]], [[1.5]]. *)
Lemma best_fitness_nan_is_kept_witness :
  HPOFitnessMonitor.tell_fitness
    (HPOFitnessMonitor.run (HPOFitnessMonitor.setup (HPOFitnessMonitor.Build None None))
       ([Vector [dyadic 3 (-2)]]
          ++ Vector [dyadic 1 1; S754_nan]
          :: [Vector [dyadic 3 (-1)]]))
  = Ok S754_nan.
Proof.
  apply (best_fitness_nan_is_kept (HPOFitnessMonitor.Build None None)).
  apply elem_of_cons. right. apply elem_of_cons. left. reflexivity.
Defined.

(** X5 at the calls [[1.5; 0.75]], [[]], [[2.0]]. *)
Lemma pre_tell_calls_merge_witness :
  let calls := [Vector [dyadic 3 (-1); dyadic 3 (-2)]; Vector [];
                Vector64 [dyadic 1 1]] in
  ∃ b1 b2 b3,
    HPOFitnessMonitor.tell_fitness
      (HPOFitnessMonitor.run (HPOFitnessMonitor.setup (HPOFitnessMonitor.Build None None))
         calls) = Ok b1
    ∧ HPOFitnessMonitor.tell_fitness
        (HPOFitnessMonitor.run (HPOFitnessMonitor.setup (HPOFitnessMonitor.Build None None))
           [Vector (seen calls)]) = Ok b2
    ∧ SFcompare b1 b2 = Some Eq
    ∧ HPOFitnessMonitor.tell_fitness
        (HPOFitnessMonitor.run (HPOFitnessMonitor.setup (HPOFitnessMonitor.Build None None))
           [Vector64 (seen calls)]) = Ok b3
    ∧ SFcompare b1 b3 = Some Eq.
Proof.
  intros calls. apply (pre_tell_calls_merge (HPOFitnessMonitor.Build None None) calls).
  repeat constructor.
Defined.

(** ** More on the checks and the rollout of [evaluate] *)

Section RolloutFacts.
Import HPOProblemWrapper.
Context {V W : Type}.
Variable is_parameter : V → bool.
Implicit Types (self : HPOProblemWrapper.t V W) (hp state : gmap string V).

(** A supplied entry passes the two assertions exactly when its value is a
    parameter and its key is one of the parameters of the stored state. *)
Lemma check_hyper_parameter_Ok self k v :
  check_hyper_parameter is_parameter self (k, v) = Ok ()
  ↔ is_parameter v = true
    ∧ k ∈ dom (extract_parameters is_parameter (init_state self)).
Proof.
  rewrite check_hyper_parameter_cases, elem_of_dom. unfold extract_parameters.
  split.
  - destruct (init_state self !! k) as [v0|] eqn:Hk; [|done].
    destruct (is_parameter v0) eqn:H0, (is_parameter v) eqn:H1; try done.
    intros _. split; [done|]. exists v0. apply map_lookup_filter_Some.
    split; [done|]. simpl. by rewrite H0.
  - intros [Hv [v0 [Hk H0]%map_lookup_filter_Some]]. rewrite Hk.
    simpl in H0. apply Is_true_true in H0. by rewrite H0, Hv.
Qed.

Lemma check_loop_Ok self hp :
  for_each (map_to_list hp) (check_hyper_parameter is_parameter self) = Ok ()
  ↔ dom hp ⊆ dom (extract_parameters is_parameter (init_state self))
    ∧ map_Forall (λ _ v, is_parameter v = true) hp.
Proof.
  rewrite check_loop_ok, Forall_forall. split.
  - intros Hall. split.
    + intros k [v Hk]%elem_of_dom.
      apply elem_of_map_to_list, Hall, check_hyper_parameter_Ok in Hk. tauto.
    + intros k v Hk.
      apply elem_of_map_to_list, Hall, check_hyper_parameter_Ok in Hk. tauto.
  - intros [Hdom Hpar] [k v] Hk%elem_of_map_to_list.
    apply check_hyper_parameter_Ok. split; [by eapply Hpar|].
    apply Hdom, elem_of_dom. by eexists.
Qed.

(** X6. [evaluate] stops in its checks, with the assertion error and
    before anything has been called, exactly when the supplied mapping is
    not made of parameters under keys of [extract_parameters(init_state)];
    in other words the checks accept exactly the mappings that override
    some of the parameters that [extract_parameters] returns, by
    parameters. *)
Theorem evaluate_accepts_overrides_of_extracted self hp m :
  evaluate is_parameter self hp m = (m, Raise AssertionError)
  ↔ ¬ (dom hp ⊆ dom (extract_parameters is_parameter (init_state self))
       ∧ map_Forall (λ _ v, is_parameter v = true) hp).
Proof.
  rewrite <- check_loop_Ok. split.
  - intros Heval Hcheck.
    destruct (evaluate_first_call is_parameter self hp m Hcheck) as [rest Hrest].
    rewrite Heval in Hrest. simpl in Hrest.
    apply (f_equal length) in Hrest. rewrite length_app in Hrest. simpl in Hrest. lia.
  - intros Hcheck. unfold evaluate, bind, lift.
    by destruct (check_loop_result is_parameter self (map_to_list hp)) as [H|H];
      rewrite H.
Qed.

(** X7. The call of the unit test:
    [evaluate(extract_parameters(init_state))] passes the checks and is the
    rollout from [init_state] itself, the same as [evaluate({})]. *)
Theorem evaluate_extracted_is_default self m :
  for_each (map_to_list (extract_parameters is_parameter (init_state self)))
           (check_hyper_parameter is_parameter self) = Ok ()
  ∧ evaluate is_parameter self (extract_parameters is_parameter (init_state self)) m
    = evaluate is_parameter self ∅ m
  ∧ ∃ rest,
      calls (evaluate is_parameter self
               (extract_parameters is_parameter (init_state self)) m).1
      = calls m ++ (Method (traced_from (_workflow_init_step_ self)), init_state self)
                   :: rest.
Proof.
  assert (Hcheck :
    for_each (map_to_list (extract_parameters is_parameter (init_state self)))
             (check_hyper_parameter is_parameter self) = Ok ()).
  { apply check_loop_Ok. split; [done|].
    intros k v [_ Hv]%map_lookup_filter_Some. by apply Is_true_true. }
  assert (Hunion :
    extract_parameters is_parameter (init_state self) ∪ init_state self
    = init_state self).
  { apply map_subseteq_union, map_filter_subseteq. }
  split_and!; [done| |].
  - unfold evaluate, bind at 1, lift. rewrite Hcheck.
    unfold bind at 3, lift. rewrite map_to_list_empty. simpl.
    by rewrite Hunion, (left_id_L ∅ (∪)).
  - destruct (evaluate_first_call is_parameter self _ m Hcheck) as [rest Hrest].
    exists rest. by rewrite Hunion in Hrest.
Qed.

(** The loop of [evaluate], followed call by call: it makes some number of
    successful calls, chained output to input, and either these are all of
    them or the next call raises what the loop raises. *)
Lemma for_loop_invoke_trace {X} name (f : callable V W (gmap string V))
    (xs : list X) s m :
  ∃ n inputs w' s',
    sequential_steps f n (world m, s) (w', s') inputs
    ∧ match for_loop xs (λ _ state, invoke name f state) s m with
      | (m', Ok s'') =>
          n = length xs ∧ s'' = s'
          ∧ m' = Machine w' (calls m ++ ((name,.) <$> inputs))
      | (m', Raise e) =>
          n < length xs
          ∧ ∃ w'', f s' w' = (w'', Raise e)
                   ∧ m' = Machine w'' (calls m ++ ((name,.) <$> inputs) ++ [(name, s')])
      end.
Proof.
  revert s m. induction xs as [|x xs IH]; intros s m; simpl.
  - exists 0, [], (world m), s. split; [constructor|].
    unfold ret. destruct m; simpl. by rewrite app_nil_r.
  - unfold bind at 1, invoke at 1.
    destruct (f s (world m)) as [w1 [s1|e]] eqn:Hf.
    + destruct (IH s1 (Machine w1 (calls m ++ [(name, s)])))
        as (n & inputs & w' & s' & Hsteps & Hres).
      exists (S n), (s :: inputs), w', s'. split; [by econstructor|].
      destruct (for_loop xs _ s1 _) as [m' [s''|e]]; simpl in *.
      * destruct Hres as (-> & -> & ->). split_and!; [done..|].
        by rewrite <- app_assoc.
      * destruct Hres as (Hn & w'' & Hf' & ->). split; [lia|].
        exists w''. split; [done|]. by rewrite <- app_assoc.
    + exists 0, [], (world m), s. split; [constructor|]. simpl.
      split; [lia|]. by exists w1.
Qed.

(** X8. For arbitrary compiled functions, [evaluate] returns a value only
    through the complete rollout, and whenever the rollout can be made it
    returns: the checks pass, the first-step function returns on
    [init_state] overwritten with the hyperparameters, [iterations - 1]
    chained calls of the step function return, and the fitness function
    returns the value on the last state; the record holds these calls and
    no other. *)
Theorem evaluate_returns_iff_rollout self hp w cs m' fit :
  evaluate is_parameter self hp (Machine w cs) = (m', Ok fit)
  ↔ for_each (map_to_list hp) (check_hyper_parameter is_parameter self) = Ok ()
    ∧ ∃ w1 s1 w2 s2 inputs,
        run (_workflow_init_step_ self) (hp ∪ init_state self) w = (w1, Ok s1)
        ∧ sequential_steps (run (_workflow_step_ self))
            (Z.to_nat (iterations self - 1)) (w1, s1) (w2, s2) inputs
        ∧ _get_monitor_fitness_ self s2 w2 = (world m', Ok fit)
        ∧ calls m'
          = cs ++ [(Method (traced_from (_workflow_init_step_ self)),
                    hp ∪ init_state self)]
               ++ ((Method (traced_from (_workflow_step_ self)),.) <$> inputs)
               ++ [(GetMonitorFitness, s2)].
Proof.
  split.
  - intros Heval.
    destruct (check_loop_result is_parameter self (map_to_list hp)) as [Hcheck|Hcheck];
      [|by unfold evaluate, bind, lift in Heval; rewrite Hcheck in Heval].
    split; [done|].
    unfold evaluate in Heval. unfold bind at 1, lift in Heval.
    rewrite Hcheck in Heval. unfold bind at 1, invoke at 1 in Heval. simpl in Heval.
    destruct (run (_workflow_init_step_ self) (hp ∪ init_state self) w)
      as [w1 [s1|e]] eqn:Hinit; [|done].
    unfold bind at 1 in Heval.
    match type of Heval with context [for_loop ?xs ?b s1 ?m1] =>
      destruct (for_loop_invoke_trace
                  (Method (traced_from (_workflow_step_ self)))
                  (run (_workflow_step_ self)) xs s1 m1)
        as (n & inputs & w2 & s2 & Hsteps & Hres);
      destruct (for_loop xs b s1 m1) as [m2 [s2'|e]]
    end; [|done].
    destruct Hres as (-> & -> & ->). rewrite length_range in Hsteps.
    unfold invoke in Heval. simpl in Heval.
    destruct (_get_monitor_fitness_ self s2 w2) as [w3 r] eqn:Hfit.
    injection Heval as <- ->.
    exists w1, s1, w2, s2, inputs. simpl. split_and!; [done..|].
    by rewrite <- !app_assoc.
  - intros (Hcheck & w1 & s1 & w2 & s2 & inputs & Hinit & Hsteps & Hfit & Hcalls).
    rewrite (evaluate_rollout is_parameter self hp w cs w1 s1 w2 s2 inputs
               (world m') fit Hcheck Hinit Hsteps Hfit).
    destruct m' as [w3 cs3]. simpl in *. by rewrite Hcalls.
Qed.

(** X9. For arbitrary compiled functions, when the checks pass and
    [evaluate] raises, the exception is the one of the last call on the
    record, which is the first call that raised: the first-step function on
    the overwritten state, or a step after fewer than [iterations - 1]
    chained successful steps, or the fitness function after all of them.
    No call follows a failure; in particular the fitness function is not
    called after a step that raised. *)
Theorem evaluate_stops_at_first_failure self hp w cs m' e :
  for_each (map_to_list hp) (check_hyper_parameter is_parameter self) = Ok () →
  evaluate is_parameter self hp (Machine w cs) = (m', Raise e) →
  let first := (Method (traced_from (_workflow_init_step_ self)),
                hp ∪ init_state self) in
  let step_name := Method (traced_from (_workflow_step_ self)) in
  (run (_workflow_init_step_ self) (hp ∪ init_state self) w = (world m', Raise e)
   ∧ calls m' = cs ++ [first])
  ∨ ∃ w1 s1 n w2 s2 inputs,
      run (_workflow_init_step_ self) (hp ∪ init_state self) w = (w1, Ok s1)
      ∧ sequential_steps (run (_workflow_step_ self)) n (w1, s1) (w2, s2) inputs
      ∧ ((n < Z.to_nat (iterations self - 1)
          ∧ run (_workflow_step_ self) s2 w2 = (world m', Raise e)
          ∧ calls m' = cs ++ [first] ++ ((step_name,.) <$> inputs)
                          ++ [(step_name, s2)])
         ∨ (n = Z.to_nat (iterations self - 1)
            ∧ _get_monitor_fitness_ self s2 w2 = (world m', Raise e)
            ∧ calls m' = cs ++ [first] ++ ((step_name,.) <$> inputs)
                            ++ [(GetMonitorFitness, s2)])).
Proof.
  intros Hcheck Heval first step_name. subst step_name.
  unfold evaluate in Heval. unfold bind at 1, lift in Heval.
  rewrite Hcheck in Heval. unfold bind at 1, invoke at 1 in Heval. simpl in Heval.
  destruct (run (_workflow_init_step_ self) (hp ∪ init_state self) w)
    as [w1 [s1|e1]] eqn:Hinit.
  - right. unfold bind at 1 in Heval.
    match type of Heval with context [for_loop ?xs ?b s1 ?m1] =>
      destruct (for_loop_invoke_trace
                  (Method (traced_from (_workflow_step_ self)))
                  (run (_workflow_step_ self)) xs s1 m1)
        as (n & inputs & w2 & s2 & Hsteps & Hres);
      destruct (for_loop xs b s1 m1) as [m2 [s2'|e2]]
    end.
    + destruct Hres as (-> & -> & ->). rewrite length_range in Hsteps.
      unfold invoke in Heval. simpl in Heval.
      destruct (_get_monitor_fitness_ self s2 w2) as [w3 r] eqn:Hfit.
      injection Heval as <- ->.
      exists w1, s1, (Z.to_nat (iterations self - 1)), w2, s2, inputs.
      split_and!; [done..|]. right. simpl. split_and!; [done..|]. by rewrite <- !app_assoc.
    + destruct Hres as (Hn & w'' & Hf & ->). rewrite length_range in Hn.
      injection Heval as <- ->.
      exists w1, s1, n, w2, s2, inputs. split_and!; [done..|].
      left. simpl. split_and!; [done..|]. by rewrite <- !app_assoc.
  - left. by injection Heval as <- ->.
Qed.

End RolloutFacts.

(** ** The closure [get_monitor_fitness] and the keys it is given *)

Section ClosureFacts.
Import HPOProblemWrapper.
Context {T V : Type}.
Implicit Types (nb ms : odict (tensor_obj T)) (x : gmap string V).

(** The dictionary comprehension of the closure, entry by entry. *)
Local Abbreviation install x :=
  (λ (acc : result (gmap string V)) '(k, sk),
     let? st := acc in
     match x !! k with
     | Some v => Ok (<[sk := v]> st)
     | None => Raise KeyError
     end).

Lemma install_raise x e (keys : odict string) :
  foldl (install x) (Raise e) keys = Raise e.
Proof. induction keys as [|[k sk] keys IH]; [done|]. simpl. exact IH. Qed.

Lemma install_missing x (keys : odict string) st k sk :
  (k, sk) ∈ keys → x !! k = None →
  foldl (install x) (Ok st) keys = Raise KeyError.
Proof.
  revert st. induction keys as [|[k' sk'] keys IH]; intros st Hin Hk.
  - by apply elem_of_nil in Hin.
  - simpl. destruct (x !! k') as [v|] eqn:Hk'; [|by apply install_raise].
    apply elem_of_cons in Hin as [[= <- <-]|Hin]; [congruence|]. by apply IH.
Qed.

Lemma install_present x (keys : odict string) st :
  Forall (λ e, is_Some (x !! e.1)) keys →
  ∃ final,
    foldl (install x) (Ok st) keys = Ok final
    ∧ dom final = dom st ∪ list_to_set keys.*2
    ∧ (∀ sk, sk ∉ keys.*2 → final !! sk = st !! sk)
    ∧ (NoDup keys.*2 → ∀ k sk, (k, sk) ∈ keys → final !! sk = x !! k).
Proof.
  intros Hall. revert st.
  induction Hall as [|[k sk] keys [v Hk] _ IH]; intros st.
  - exists st. split_and!; [done| |done|].
    + simpl. by rewrite (right_id_L ∅ (∪)).
    + intros _ k sk Hin. by apply elem_of_nil in Hin.
  - simpl in Hk. simpl. rewrite Hk.
    destruct (IH (<[sk := v]> st)) as (final & Hfold & Hdom & Hout & Hin).
    exists final. split_and!; [done|..].
    + rewrite Hdom, dom_insert_L. simpl.
      apply set_eq. intros y. rewrite !elem_of_union. tauto.
    + intros sk' [Hne Hnin]%not_elem_of_cons.
      rewrite Hout by done. by rewrite lookup_insert_ne.
    + intros [Hsk Hdup]%NoDup_cons k' sk' [[= -> ->]|Hin']%elem_of_cons.
      * rewrite Hout by done. by rewrite lookup_insert_eq.
      * by apply Hin.
Qed.

(** X10. If some resolved state key is missing from the state that the
    closure is given, the closure raises a key error, whatever the other
    entries are and whatever the monitor's [tell_fitness] does. *)
Theorem get_monitor_fitness_missing_key (monitor : submodule T V)
    (monitor_keys : odict string) x k sk :
  (k, sk) ∈ monitor_keys → x !! k = None →
  get_monitor_fitness monitor monitor_keys x = Raise KeyError.
Proof.
  intros Hin Hk. unfold get_monitor_fitness.
  by rewrite (install_missing x monitor_keys ∅ k sk Hin Hk).
Qed.

(** X11. If the state has every resolved key, the closure returns what
    the monitor's [tell_fitness] returns on an installed state whose keys
    are the resolved attribute names and nothing else; when no attribute
    name was resolved twice, it holds under each attribute name the entry
    of the state under the key resolved to it. *)
Theorem get_monitor_fitness_installs (monitor : submodule T V)
    (monitor_keys : odict string) x :
  Forall (λ e, is_Some (x !! e.1)) monitor_keys →
  ∃ final,
    get_monitor_fitness monitor monitor_keys x = tell_fitness monitor final
    ∧ dom final = list_to_set monitor_keys.*2
    ∧ (NoDup monitor_keys.*2 →
       ∀ k sk, (k, sk) ∈ monitor_keys → final !! sk = x !! k).
Proof.
  intros Hall.
  destruct (install_present x monitor_keys ∅ Hall) as (final & Hfold & Hdom & _ & Hin).
  exists final. unfold get_monitor_fitness. rewrite Hfold. simpl.
  split_and!; [done| |done]. by rewrite Hdom, dom_empty_L, (left_id_L ∅ (∪)).
Qed.

Lemma NoDup_fst_inj {A} (l : list (string * A)) k a b :
  NoDup l.*1 → (k, a) ∈ l → (k, b) ∈ l → a = b.
Proof.
  induction l as [|[k0 a0] l IH]; intros Hdup Ha Hb.
  - by apply elem_of_nil in Ha.
  - rewrite fmap_cons in Hdup. apply NoDup_cons in Hdup as [Hk0 Hdup].
    assert (Hfst : ∀ c, (k0, c) ∈ l → False).
    { intros c Hc. apply Hk0. apply list_elem_of_fmap. by exists (k0, c). }
    apply elem_of_cons in Ha as [[= -> ->]|Ha], Hb as [[= ]|Hb]; subst.
    + done.
    + by destruct (Hfst b).
    + by destruct (Hfst a).
    + by apply IH.
Qed.

Lemma recorded_elem nb ms k sk :
  (k, sk) ∈ recorded nb ms ↔ ∃ v, (k, v) ∈ nb ∧ first_identical v ms = Some sk.
Proof.
  unfold recorded. rewrite list_elem_of_omap. split.
  - intros ([k' v] & Hin & Hf).
    destruct (first_identical v ms) as [sk'|] eqn:Hfi; simplify_eq/=. by exists v.
  - intros (v & Hin & Hf). exists (k, v). by rewrite Hf.
Qed.

(** Among objects that are pairwise distinct, no attribute of the monitor
    is recorded twice. *)
Lemma recorded_NoDup nb ms :
  NoDup ms.*1 → no_aliasing nb → NoDup (recorded nb ms).*2.
Proof.
  intros Hms. unfold no_aliasing.
  induction nb as [|[k v] nb IH]; intros Hnb; [constructor|].
  rewrite fmap_cons in Hnb. apply NoDup_cons in Hnb as [Hv Hnb]. simpl in Hv.
  simpl. destruct (first_identical v ms) as [sk|] eqn:Hf; simpl; [|by apply IH].
  apply NoDup_cons. split; [|by apply IH].
  intros ([k' sk'] & -> & Hin)%list_elem_of_fmap. simpl in *.
  apply recorded_elem in Hin as (v' & Hin' & Hf').
  apply first_identical_Some in Hf as (b1 & sv & a1 & Hms1 & Ha1 & _).
  apply first_identical_Some in Hf' as (b2 & sv' & a2 & Hms2 & Ha2 & _).
  assert (sv = sv') as <-.
  { apply (NoDup_fst_inj ms sk'); [done|..].
    - rewrite Hms1. apply elem_of_app. right. by left.
    - rewrite Hms2. apply elem_of_app. right. by left. }
  apply Hv. apply list_elem_of_fmap. exists (k', v'). simpl. split; [congruence|done].
Qed.

Lemma monitor_keys_permutation nb ms :
  NoDup nb.*1 → NoDup ms.*1 → no_aliasing nb →
  length (resolve_monitor_keys nb ms) = length ms →
  (resolve_monitor_keys nb ms).*2 ≡ₚ ms.*1.
Proof.
  intros Hnb Hms Halias Hlen. rewrite resolve_recorded in Hlen |- * by done.
  apply submseteq_length_Permutation.
  - apply NoDup_submseteq; [by apply recorded_NoDup|].
    intros sk ([k sk'] & -> & Hin)%list_elem_of_fmap. simpl.
    apply recorded_elem in Hin as (v & _ & Hf). by eapply first_identical_key.
  - rewrite !length_fmap. lia.
Qed.

(** X12. When the state holds no object under two keys and the assertion
    of [setup] on the two counts passes, every attribute of the monitor has
    been matched exactly once: the recorded attribute names are those of
    the monitor's state up to their order, and none is recorded twice. *)
Theorem monitor_attributes_matched_once nb ms :
  NoDup nb.*1 → NoDup ms.*1 → no_aliasing nb →
  length (resolve_monitor_keys nb ms) = length ms →
  (resolve_monitor_keys nb ms).*2 ≡ₚ ms.*1
  ∧ NoDup (resolve_monitor_keys nb ms).*2.
Proof.
  intros Hnb Hms Halias Hlen. split; [by apply monitor_keys_permutation|].
  rewrite resolve_recorded by done. by apply recorded_NoDup.
Qed.

(** X13. Under the same conditions, on a state that has every key of the
    workflow state, the closure returns what the monitor's [tell_fitness]
    returns when every attribute of the monitor holds the entry of that
    state stored under the key of the same object. *)
Theorem get_monitor_fitness_reads_monitor_buffers (monitor : submodule T V) nb x :
  let ms := state_dict monitor in
  NoDup nb.*1 → NoDup ms.*1 → no_aliasing nb →
  length (resolve_monitor_keys nb ms) = length ms →
  (∀ k, k ∈ nb.*1 → is_Some (x !! k)) →
  ∃ final,
    get_monitor_fitness monitor (resolve_monitor_keys nb ms) x
    = tell_fitness monitor final
    ∧ dom final = list_to_set ms.*1
    ∧ ∀ sk sv, (sk, sv) ∈ ms →
        ∃ k v, (k, v) ∈ nb ∧ addr v = addr sv ∧ final !! sk = x !! k.
Proof.
  intros ms Hnb Hms Halias Hlen Hx.
  pose proof (monitor_keys_permutation nb ms Hnb Hms Halias Hlen) as Hperm.
  rewrite resolve_recorded in Hlen, Hperm |- * by done.
  assert (Hall : Forall (λ e, is_Some (x !! e.1)) (recorded nb ms)).
  { apply Forall_forall. intros [k sk] Hin. simpl. apply Hx.
    apply recorded_keys with ms. apply list_elem_of_fmap. by exists (k, sk). }
  destruct (install_present x (recorded nb ms) ∅ Hall)
    as (final & Hfold & Hdom & _ & Hin).
  exists final. unfold get_monitor_fitness. rewrite Hfold. simpl.
  split_and!; [done|..].
  - rewrite Hdom, dom_empty_L, (left_id_L ∅ (∪)).
    apply set_eq. intros sk. rewrite !elem_of_list_to_set. by rewrite Hperm.
  - intros sk sv Hsk.
    assert (Hrec : sk ∈ (recorded nb ms).*2).
    { rewrite Hperm. apply list_elem_of_fmap. by exists (sk, sv). }
    apply list_elem_of_fmap in Hrec as ([k sk'] & -> & Hrec). simpl in *.
    pose proof Hrec as Hrec'.
    apply recorded_elem in Hrec' as (v & Hkv & Hf).
    apply first_identical_Some in Hf as (b1 & sv' & a1 & Hms1 & Ha1 & _).
    assert (sv' = sv) as ->.
    { apply (NoDup_fst_inj ms sk'); [done| |done].
      fold ms in Hms1. rewrite Hms1. apply elem_of_app. right. by left. }
    exists k, v. split_and!; [done..|].
    apply Hin; [|done]. by apply recorded_NoDup.
Qed.

End ClosureFacts.

(** X9 on a wrapper with [iterations = 3] whose step function raises: the
    call raises what the step raised, and the fitness function is not on
    the record. *)
Lemma evaluate_stops_at_first_failure_witness :
  let ok : HPOProblemWrapper.callable bool unit (gmap string bool) :=
    λ x w, (w, Ok x) in
  let bad : HPOProblemWrapper.callable bool unit (gmap string bool) :=
    λ x w, (w, Raise RuntimeError) in
  let self :=
    HPOProblemWrapper.Build 3 1 {["lb" := true]}
      (HPOProblemWrapper.Compiled step bad) (HPOProblemWrapper.Compiled init_step ok)
      (λ x w, (w, Ok true)) in
  ∃ m', HPOProblemWrapper.evaluate id self ∅ (HPOProblemWrapper.Machine () [])
        = (m', Raise RuntimeError)
        ∧ Forall (λ c, c.1 ≠ GetMonitorFitness) (HPOProblemWrapper.calls m').
Proof.
  intros ok bad self.
  exists (HPOProblemWrapper.Machine ()
            [(Method init_step, {["lb" := true]}); (Method step, {["lb" := true]})]).
  assert (Hcheck : for_each (map_to_list (∅ : gmap string bool))
                      (HPOProblemWrapper.check_hyper_parameter id self) = Ok ())
    by reflexivity.
  assert (Heval : HPOProblemWrapper.evaluate id self ∅ (HPOProblemWrapper.Machine () [])
                  = (HPOProblemWrapper.Machine ()
                       [(Method init_step, {["lb" := true]});
                        (Method step, {["lb" := true]})],
                     Raise RuntimeError))
    by reflexivity.
  split; [exact Heval|].
  destruct (evaluate_stops_at_first_failure id self ∅ () [] _ RuntimeError
              Hcheck Heval)
    as [[Hinit _]|(w1 & s1 & n & w2 & s2 & inputs & _ & _
                   & [(_ & _ & Hcalls)|(_ & Hfit & _)])].
  - discriminate Hinit.
  - rewrite Hcalls. simpl. constructor; [done|].
    apply Forall_app. split; [|by repeat constructor].
    apply Forall_fmap, Forall_true. done.
  - discriminate Hfit.
Defined.

(** X10 on a state without the key of the buffer. *)
Lemma get_monitor_fitness_missing_key_witness :
  HPOProblemWrapper.get_monitor_fitness
    (HPOFitnessMonitor_obj (V := Z) (TensorObj 4 false 0%Z))
    [("monitor.best_fitness", "best_fitness")] {["algorithm.fit" := 1%Z]}
  = Raise KeyError.
Proof.
  apply (get_monitor_fitness_missing_key _ _ _ "monitor.best_fitness" "best_fitness").
  - apply elem_of_cons. left. reflexivity.
  - reflexivity.
Defined.

(** X11 on a state that has the key of the buffer. *)
Lemma get_monitor_fitness_installs_witness :
  ∃ final : gmap string Z,
    HPOProblemWrapper.get_monitor_fitness
      (HPOFitnessMonitor_obj (V := Z) (TensorObj 4 false 0%Z))
      [("monitor.best_fitness", "best_fitness")]
      {["algorithm.fit" := 1%Z; "monitor.best_fitness" := 7%Z]}
    = HPOFitnessMonitor_tell_fitness final
    ∧ final !! "best_fitness" = Some 7%Z.
Proof.
  destruct (get_monitor_fitness_installs
              (HPOFitnessMonitor_obj (V := Z) (TensorObj 4 false 0%Z))
              [("monitor.best_fitness", "best_fitness")]
              {["algorithm.fit" := 1%Z; "monitor.best_fitness" := 7%Z]})
    as (final & Hcall & _ & Hin).
  - repeat constructor. simpl. by eexists.
  - exists final. split; [exact Hcall|].
    rewrite (Hin (NoDup_singleton _) "monitor.best_fitness" "best_fitness");
      [reflexivity|].
    apply elem_of_cons. left. reflexivity.
Defined.

(** X12 on the attributes of the small workflow and its monitor. *)
Lemma monitor_attributes_matched_once_witness :
  (HPOProblemWrapper.resolve_monitor_keys Demo.attributes
     (state_dict Demo.monitor)).*2 ≡ₚ (state_dict Demo.monitor).*1
  ∧ NoDup (HPOProblemWrapper.resolve_monitor_keys Demo.attributes
             (state_dict Demo.monitor)).*2.
Proof.
  apply (monitor_attributes_matched_once Demo.attributes (state_dict Demo.monitor)).
  - apply (bool_decide_unpack _). vm_compute. exact I.
  - apply (bool_decide_unpack _). vm_compute. exact I.
  - unfold no_aliasing. apply (bool_decide_unpack _). vm_compute. exact I.
  - reflexivity.
Defined.

(** X13 on the small workflow, at its batched initial state. *)
Lemma get_monitor_fitness_reads_monitor_buffers_witness :
  ∃ final,
    HPOProblemWrapper.get_monitor_fitness Demo.monitor
      (HPOProblemWrapper.resolve_monitor_keys Demo.attributes (state_dict Demo.monitor))
      (Core.vmap_init_state Demo.attributes 2)
    = tell_fitness Demo.monitor final
    ∧ dom final = list_to_set (state_dict Demo.monitor).*1.
Proof.
  destruct (get_monitor_fitness_reads_monitor_buffers Demo.monitor Demo.attributes
              (Core.vmap_init_state Demo.attributes 2))
    as (final & Hcall & Hdom & _).
  - apply (bool_decide_unpack _). vm_compute. exact I.
  - apply (bool_decide_unpack _). vm_compute. exact I.
  - unfold no_aliasing. apply (bool_decide_unpack _). vm_compute. exact I.
  - reflexivity.
  - intros k Hk. simpl in Hk. rewrite !elem_of_cons in Hk.
    destruct Hk as [->|[->|[->|[->|Hk]]]]; [by eexists..|].
    by apply elem_of_nil in Hk.
  - by exists final.
Defined.

(** ** [HoverEnv]: flags and counters *)

Section HoverFacts.
Import HoverEnv.
Context {Phys Act Obs R : Type}.
Variable advance : Act → Phys → Phys.
Variable crash_condition : Phys → list bool.
Variable reset_phys : list nat → Phys → Phys.
Variable observe : Phys → Phys.
Variable obs_buf : Phys → Obs.
Variable rew_buf : Phys → list R.

Local Abbreviation reset_idx := (reset_idx reset_phys).
Local Abbreviation __init__ := (__init__ reset_phys).
Local Abbreviation reset := (reset reset_phys obs_buf).
Local Abbreviation step :=
  (step advance crash_condition reset_phys observe obs_buf rew_buf).
Local Abbreviation call :=
  (call advance crash_condition reset_phys observe obs_buf rew_buf).

Lemma assign_length {A} idx (a : A) t : length (assign idx a t) = length t.
Proof. induction idx as [|i idx IH]; simpl; [done|]. by rewrite length_insert. Qed.

(** Assignment through a tensor of indices, element by element. *)
Lemma assign_lookup {A} idx (a : A) t i :
  assign idx a t !! i = if decide (i ∈ idx) then (λ _, a) <$> t !! i else t !! i.
Proof.
  induction idx as [|j idx IH].
  - destruct (decide (i ∈ [])) as [H|_]; [by apply elem_of_nil in H|done].
  - change (assign (j :: idx) a t) with (<[j := a]> (assign idx a t)).
    destruct (decide (j = i)) as [->|Hne].
    + destruct (decide (i ∈ i :: idx)) as [_|H]; [|exfalso; apply H; by left].
      destruct (decide (i < length t)) as [Hlt|Hge].
      * rewrite list_lookup_insert_eq by (by rewrite assign_length).
        by destruct (lookup_lt_is_Some_2 t i Hlt) as [x ->].
      * rewrite lookup_ge_None_2 by (rewrite length_insert, assign_length; lia).
        by rewrite (lookup_ge_None_2 t i) by lia.
    + rewrite list_lookup_insert_ne by done. rewrite IH.
      destruct (decide (i ∈ idx)) as [Hin|Hnin],
        (decide (i ∈ j :: idx)) as [Hin'|Hnin']; try done.
      * exfalso. apply Hnin'. by right.
      * exfalso. apply elem_of_cons in Hin' as [->|?]; done.
Qed.

Lemma assign_seq {A} n (a : A) t :
  length t = n → assign (seq 0 n) a t = replicate n a.
Proof.
  intros Hlen. apply list_eq. intros i. rewrite assign_lookup.
  destruct (decide (i < n)) as [Hlt|Hge].
  - destruct (decide (i ∈ seq 0 n)) as [_|H]; [|exfalso; apply H, elem_of_seq; lia].
    rewrite lookup_replicate_2 by done.
    destruct (lookup_lt_is_Some_2 t i) as [x ->]; [lia|done].
  - destruct (decide (i ∈ seq 0 n)) as [H|_]; [apply elem_of_seq in H; lia|].
    rewrite lookup_ge_None_2 by lia.
    symmetry. apply lookup_replicate_None. lia.
Qed.

(** [nonzero] returns the indices of the flags that are set. *)
Lemma elem_of_nonzero t i : i ∈ nonzero t ↔ t !! i = Some true.
Proof.
  unfold nonzero. rewrite list_elem_of_omap. split.
  - intros ([j b] & Hin & Hb).
    apply elem_of_lookup_imap in Hin as (j' & b' & [= -> ->] & Hl).
    destruct b'; by simplify_eq.
  - intros Hl. exists (i, true). split; [|done].
    apply elem_of_lookup_imap. by exists i, true.
Qed.

Lemma reset_idx_fields idx s :
  num_envs (reset_idx idx s) = num_envs s
  ∧ done (reset_idx idx s) = done s
  ∧ max_episode_length (reset_idx idx s) = max_episode_length s
  ∧ reset_buf (reset_idx idx s) = assign idx true (reset_buf s)
  ∧ episode_length_buf (reset_idx idx s) = assign idx 0%Z (episode_length_buf s)
  ∧ time_outs (reset_idx idx s) = time_outs s.
Proof. unfold HoverEnv.reset_idx. by destruct idx. Qed.

(** One [step], on whole tensors. *)
Lemma step_fields a s :
  length (crash_condition (advance a (phys s))) = length (episode_length_buf s) →
  num_envs (step a s).1 = num_envs s
  ∧ done (step a s).1 = done s
  ∧ max_episode_length (step a s).1 = max_episode_length s
  ∧ (step a s).2.2 = done s
  ∧ (step a s).2.1.2 = rew_buf (phys (step a s).1)
  ∧ episode_length_buf (step a s).1
    = zip_with (λ c crash,
                  if (max_episode_length s <? c + 1)%Z || crash then 0 else c + 1)%Z
               (episode_length_buf s) (crash_condition (advance a (phys s)))
  ∧ reset_buf (step a s).1
    = zip_with (λ c crash, (max_episode_length s <? c + 1)%Z || crash)
               (episode_length_buf s) (crash_condition (advance a (phys s)))
  ∧ time_outs (step a s).1
    = Some ((λ c, max_episode_length s <? c + 1)%Z <$> episode_length_buf s).
Proof.
  intros Hlen. unfold HoverEnv.step. simpl.
  match goal with |- context [HoverEnv.reset_idx _ ?idx ?s0] =>
    destruct (reset_idx_fields idx s0) as (Hn & Hd & Hm & Hr & He & Ht)
  end.
  simpl in *. rewrite Hn, Hd, Hm, Hr, He, Ht.
  set (crash := crash_condition (advance a (phys s))) in *.
  set (flags := zip_with orb _ crash).
  assert (Hflags : flags
    = zip_with (λ c cr, (max_episode_length s <? c + 1)%Z || cr)
               (episode_length_buf s) crash).
  { unfold flags. rewrite <- list_fmap_compose. by rewrite zip_with_fmap_l. }
  split_and!; try done.
  - apply list_eq. intros i.
    rewrite assign_lookup, list_lookup_fmap, lookup_zip_with.
    destruct (decide (i ∈ nonzero flags)) as [Hin|Hnin];
      rewrite elem_of_nonzero, Hflags, lookup_zip_with in *.
    + destruct (episode_length_buf s !! i) as [c|]; [|done]. simpl in *.
      destruct (crash !! i) as [cr|]; [|done]. simpl in *.
      injection Hin as ->. done.
    + destruct (episode_length_buf s !! i) as [c|] eqn:Hc; [|done]. simpl in *.
      destruct (crash !! i) as [cr|] eqn:Hcr; simpl in *.
      * destruct (_ || _); [done|]. by rewrite Z.add_1_r.
      * apply lookup_lt_Some in Hc. apply lookup_ge_None in Hcr. lia.
  - rewrite <- Hflags. apply list_eq. intros i. rewrite assign_lookup.
    destruct (decide (i ∈ nonzero flags)) as [Hin|Hnin]; [|done].
    apply elem_of_nonzero in Hin. by rewrite Hin.
  - f_equal. by rewrite <- list_fmap_compose.
Qed.

(** [math.ceil(15.0 / 0.01)] in binary64 arithmetic. *)
Lemma episode_steps : ceil (SFdiv 53 1024 episode_length_s dt) = Some 1500%Z.
Proof. vm_compute. reflexivity. Qed.

Lemma init_inv n scene s0 : __init__ n scene = Some s0 → hover_inv n s0.
Proof.
  unfold HoverEnv.__init__. rewrite episode_steps. simpl. intros [= <-].
  unfold build_env.
  match goal with |- hover_inv _ (HoverEnv.reset_idx _ ?idx ?s0) =>
    destruct (reset_idx_fields idx s0) as (Hn & Hd & Hm & Hr & He & Ht)
  end.
  cbn -[assign seq] in *.
  rewrite assign_seq in Hr by apply length_replicate.
  rewrite assign_seq in He by apply length_replicate.
  unfold hover_inv. rewrite Hn, Hd, Hm, Hr, He, !length_replicate.
  split_and!; try done.
  - apply Forall_replicate. lia.
  - intros i. destruct (decide (i < n)) as [Hlt|Hge].
    + by rewrite !lookup_replicate_2.
    + split; intros H%lookup_replicate_1; lia.
Qed.

Lemma reset_inv n s : hover_inv n s → hover_inv n (reset s).1.
Proof.
  intros (Hn & Hm & Hd & Hle & Hlr & Hrange & Hiff).
  unfold HoverEnv.reset. simpl.
  match goal with |- hover_inv _ (HoverEnv.reset_idx _ ?idx ?s0) =>
    destruct (reset_idx_fields idx s0) as (Hn' & Hd' & Hm' & Hr' & He' & Ht')
  end.
  cbn -[assign seq] in *. rewrite Hn in *.
  rewrite assign_seq in Hr' by (by rewrite length_fmap).
  rewrite assign_seq in He' by done.
  unfold hover_inv. rewrite Hn', Hd', Hm', Hr', He', !length_replicate.
  split_and!; try done.
  - apply Forall_replicate. lia.
  - intros i. destruct (decide (i < n)) as [Hlt|Hge].
    + by rewrite !lookup_replicate_2.
    + split; intros H%lookup_replicate_1; lia.
Qed.

Lemma step_inv n a s :
  length (crash_condition (advance a (phys s))) = n →
  hover_inv n s → hover_inv n (step a s).1.
Proof.
  intros Hcrash (Hn & Hm & Hd & Hle & Hlr & Hrange & Hiff).
  destruct (step_fields a s) as (Hn' & Hd' & Hm' & _ & _ & He' & Hr' & _); [lia|].
  unfold hover_inv. rewrite Hn', Hd', Hm', He', Hr', !length_zip_with, Hm.
  rewrite Hcrash, Hle.
  split_and!; try done; try lia.
  - apply Forall_lookup. intros i c' Hc'.
    apply lookup_zip_with_Some in Hc' as (c & cr & -> & Hc & _).
    rewrite Forall_lookup in Hrange. specialize (Hrange i c Hc). simpl in Hrange.
    destruct (1500 <? c + 1)%Z eqn:Hlt; simpl; [lia|].
    apply Z.ltb_ge in Hlt. destruct cr; lia.
  - intros i. rewrite !lookup_zip_with.
    destruct (episode_length_buf s !! i) as [c|] eqn:Hc; [|done]. simpl.
    rewrite Forall_lookup in Hrange. specialize (Hrange i c Hc). simpl in Hrange.
    destruct (crash_condition (advance a (phys s)) !! i) as [cr|]; [|done]. simpl.
    destruct (_ || _); split; intros Heq; try done; injection Heq; lia.
Qed.

Lemma calls_inv n s calls :
  (∀ p, length (crash_condition p) = n) →
  hover_inv n s → hover_inv n (foldl call s calls).
Proof.
  intros Hcrash. revert s. induction calls as [|c calls IH]; intros s Hs; [done|].
  simpl. apply IH. destruct c as [a|]; simpl.
  - by apply step_inv.
  - by apply reset_inv.
Qed.

(** X20. From the constructor on, through any sequence of calls of [step]
    and [reset]: the episode length is 1500 steps; [done], which [step]
    returns, is all false; every counter lies between 0 and 1500; and the
    reset flag of an environment is set exactly when its counter is 0. *)
Theorem hover_flags_and_counters n scene s0 calls :
  (∀ p, length (crash_condition p) = n) →
  __init__ n scene = Some s0 →
  let s := foldl call s0 calls in
  max_episode_length s = 1500%Z
  ∧ done s = replicate n false
  ∧ (∀ a, (step a s).2.2 = replicate n false)
  ∧ length (episode_length_buf s) = n
  ∧ Forall (λ c, 0 ≤ c ≤ 1500)%Z (episode_length_buf s)
  ∧ ∀ i, reset_buf s !! i = Some true ↔ episode_length_buf s !! i = Some 0%Z.
Proof.
  intros Hcrash Hinit s.
  destruct (calls_inv n s0 calls Hcrash (init_inv n scene s0 Hinit))
    as (Hn & Hm & Hd & Hle & Hlr & Hrange & Hiff).
  split_and!; try done.
  intros a. destruct (step_fields a s) as (_ & _ & _ & Hret & _).
  - by rewrite Hcrash.
  - by rewrite Hret.
Qed.

(** X21. One [step], environment by environment: the counter is first
    incremented; an environment whose drone has crashed, or whose
    incremented counter is above [max_episode_length], is flagged in
    [reset_buf] and restarts at once with the counter 0; the time-out log
    holds the second condition. *)
Theorem hover_step_counters a s i c crash :
  length (crash_condition (advance a (phys s))) = length (episode_length_buf s) →
  episode_length_buf s !! i = Some c →
  crash_condition (advance a (phys s)) !! i = Some crash →
  let restart := (max_episode_length s <? c + 1)%Z || crash in
  episode_length_buf (step a s).1 !! i = Some (if restart then 0 else c + 1)%Z
  ∧ reset_buf (step a s).1 !! i = Some restart
  ∧ (time_outs (step a s).1 ≫= (.!! i)) = Some (max_episode_length s <? c + 1)%Z.
Proof.
  intros Hlen Hc Hcrash restart.
  destruct (step_fields a s Hlen) as (_ & _ & _ & _ & _ & He & Hr & Ht).
  rewrite He, Hr, Ht, !lookup_zip_with, Hc, Hcrash. simpl.
  by rewrite list_lookup_fmap, Hc.
Qed.

(** Without a crash, [k] steps after a [reset]. *)
Lemma steps_counters n s actions :
  (∀ p, crash_condition p = replicate n false) →
  hover_inv n s →
  episode_length_buf s = replicate n 0%Z →
  episode_length_buf (foldl call s (Some <$> actions))
  = replicate n (Z.of_nat (length actions) mod 1501)%Z.
Proof.
  intros Hcrash Hs Hzero.
  assert (Hshape : ∀ p, length (crash_condition p) = n).
  { intros p. by rewrite Hcrash, length_replicate. }
  induction actions as [|a actions IH] using rev_ind; [done|].
  rewrite fmap_app, foldl_app.
  change (foldl call ?x (Some <$> [a])) with (step a x).1.
  pose proof (calls_inv n s (Some <$> actions) Hshape Hs) as Hinv.
  set (s1 := foldl call s (Some <$> actions)) in *.
  destruct Hinv as (_ & Hm & _ & Hle & _).
  destruct (step_fields a s1) as (_ & _ & _ & _ & _ & He & _);
    [by rewrite Hshape|].
  rewrite He, IH, Hcrash, Hm, zip_with_replicate. f_equal.
  rewrite orb_false_r, length_app. simpl.
  replace (Z.of_nat (length actions + 1)) with (Z.of_nat (length actions) + 1)%Z
    by lia.
  set (k := Z.of_nat (length actions)).
  assert (0 ≤ k)%Z by lia.
  pose proof (Z.mod_pos_bound k 1501 ltac:(lia)) as Hb.
  destruct (1500 <? k mod 1501 + 1)%Z eqn:Hlt.
  - apply Z.ltb_lt in Hlt.
    rewrite <- Zplus_mod_idemp_l.
    assert (k mod 1501 = 1500)%Z as ->; [|reflexivity].
    revert Hb Hlt. generalize (k mod 1501)%Z. intros z Hz1 Hz2. lia.
  - apply Z.ltb_ge in Hlt.
    rewrite <- Zplus_mod_idemp_l.
    rewrite (Z.mod_small (k mod 1501 + 1)); [done|].
    revert Hb Hlt. generalize (k mod 1501)%Z. intros z Hz1 Hz2. lia.
Qed.

(** X22. When no drone crashes, an episode lasts 1501 steps: [k] steps
    after a [reset], whatever was called before it, every counter holds
    [k mod 1501]; the time-out comes with the step after the counter has
    reached [max_episode_length]. *)
Theorem hover_episode_period n scene s0 before actions :
  (∀ p, crash_condition p = replicate n false) →
  __init__ n scene = Some s0 →
  episode_length_buf (foldl call s0 (before ++ None :: (Some <$> actions)))
  = replicate n (Z.of_nat (length actions) mod 1501)%Z.
Proof.
  intros Hcrash Hinit.
  assert (Hshape : ∀ p, length (crash_condition p) = n).
  { intros p. by rewrite Hcrash, length_replicate. }
  rewrite foldl_app. simpl.
  pose proof (calls_inv n s0 before Hshape (init_inv n scene s0 Hinit)) as Hinv.
  set (s1 := foldl call s0 before) in *.
  apply steps_counters; [done|by apply reset_inv|].
  destruct Hinv as (Hn & _ & _ & Hle & _).
  unfold HoverEnv.reset. simpl.
  match goal with |- context [HoverEnv.reset_idx _ ?idx ?s0] =>
    destruct (reset_idx_fields idx s0) as (_ & _ & _ & _ & He & _)
  end.
  cbn -[assign seq] in *. rewrite He, Hn. by apply assign_seq.
Qed.

End HoverFacts.

(** ** [GenesisProblem]: the size check and the rollout *)

Section GenesisFacts.
Import GenesisProblem.
Context {Env P Obs Act R F : Type}.
Variable env_reset : Env → Env * Obs.
Variable env_step : Act → Env → Env * (Obs * list R * list bool).
Variable vmap_state_forward : odict P → Obs → odict P * Act.
Variable view_obs : nat → nat → Obs → option Obs.
Variable view_action : nat → Act → option Act.
Variable size0 : P → option nat.
Variable zero : R.
Variable add : R → R → R.
Variable reduce_fn : list (list R) → F.

Local Abbreviation rollout :=
  (rollout env_step vmap_state_forward view_obs view_action add).
Local Abbreviation _evaluate_gene :=
  (_evaluate_gene env_reset env_step vmap_state_forward view_obs view_action
                  size0 zero add).
Local Abbreviation evaluate :=
  (evaluate env_reset env_step vmap_state_forward view_obs view_action
            size0 zero add reduce_fn).
Local Abbreviation turns_of self :=
  (turns (view_obs (pop_size self) (num_episodes self)) vmap_state_forward
         (view_action (pop_size self * num_episodes self)) env_step).
Local Abbreviation failed_turn_of self :=
  (failed_turn (view_obs (pop_size self) (num_episodes self)) vmap_state_forward
               (view_action (pop_size self * num_episodes self)) env_step
               (pop_size self * num_episodes self)).

Implicit Types (self : GenesisProblem.t P) (ms : odict P) (env : Env).

(** The loop when it returns: the turns it has made. *)
Lemma rollout_returns self remaining ms obs done_array total env env' ms' total' :
  rollout self remaining ms obs done_array total env = (env', inr (ms', total')) →
  ∃ (k : nat) obs' rewards dones,
    (k ≤ remaining)%nat
    ∧ turns_of self k (env, ms, obs) (env', ms', obs') rewards dones
    ∧ Forall (λ r, length r = pop_size self * num_episodes self) rewards
    ∧ Forall (λ d, length d = pop_size self * num_episodes self) dones
    ∧ total' = summed add total rewards
    ∧ (k = remaining ∨ tensor_all (latched done_array dones) = true)
    ∧ ∀ j, j < k → tensor_all (latched done_array (take j dones)) = false.
Proof.
  revert ms obs done_array total env.
  induction remaining as [|remaining IH]; intros ms obs done_array total env Hrun.
  - injection Hrun as <- <- <-. exists 0, obs, [], [].
    split_and!; try done; [constructor|by left|lia].
  - simpl in Hrun. destruct (tensor_all done_array) eqn:Hall.
    + injection Hrun as <- <- <-. exists 0, obs, [], [].
      split_and!; try done; [lia|constructor|by right|lia].
    + destruct (view_obs (pop_size self) (num_episodes self) obs)
        as [shaped|] eqn:Hvo; [|done].
      destruct (vmap_state_forward ms shaped) as [ms1 action] eqn:Hf.
      destruct (view_action (pop_size self * num_episodes self) action)
        as [flat|] eqn:Hva; [|done].
      destruct (env_step flat env) as [env1 [[obs1 reward] done]] eqn:Hs.
      unfold view in Hrun.
      destruct (Nat.eqb_spec (length done) (pop_size self * num_episodes self))
        as [Hd|]; [|done].
      destruct (Nat.eqb_spec (length reward) (pop_size self * num_episodes self))
        as [Hr|]; [|done].
      apply IH in Hrun
        as (k & obs' & rewards & dones & Hk & Hturns & Hrs & Hds & Htot & Hstop & Hgo).
      exists (S k), obs', (reward :: rewards), (done :: dones).
      split_and!; try done.
      * lia.
      * by econstructor.
      * by constructor.
      * by constructor.
      * destruct Hstop as [->|Hstop]; [by left|by right].
      * intros [|j] Hj; [done|]. simpl. apply Hgo. lia.
Qed.

(** The loop makes the turns that can be made. *)
Lemma rollout_turns self remaining (k : nat) ms obs done_array total env env' ms' obs'
    rewards dones :
  turns_of self k (env, ms, obs) (env', ms', obs') rewards dones →
  (k ≤ remaining)%nat →
  Forall (λ r, length r = pop_size self * num_episodes self) rewards →
  Forall (λ d, length d = pop_size self * num_episodes self) dones →
  (k = remaining ∨ tensor_all (latched done_array dones) = true) →
  (∀ j, j < k → tensor_all (latched done_array (take j dones)) = false) →
  rollout self remaining ms obs done_array total env
  = (env', inr (ms', summed add total rewards)).
Proof.
  revert remaining ms obs done_array total env rewards dones.
  induction k as [|k IH];
    intros remaining ms obs done_array total env rewards dones
           Hturns Hk Hrs Hds Hstop Hgo.
  - inversion Hturns; subst. destruct remaining as [|remaining]; [done|].
    simpl. destruct Hstop as [|Hstop]; [done|].
    unfold latched in Hstop. simpl in Hstop. by rewrite Hstop.
  - inversion Hturns as [|k0 env0 ms0 obs0 shaped ms1 action flat env1 obs1 reward
                          done c' rewards' dones' Hvo Hf Hva Hs Hrest]; subst.
    destruct remaining as [|remaining]; [lia|].
    apply Forall_cons in Hrs as [Hr Hrs]. apply Forall_cons in Hds as [Hd Hds].
    pose proof (Hgo 0 ltac:(lia)) as Hfirst. unfold latched in Hfirst.
    simpl in Hfirst. simpl. rewrite Hfirst, Hvo, Hf, Hva, Hs. unfold view.
    rewrite (proj2 (Nat.eqb_eq _ _) Hd), (proj2 (Nat.eqb_eq _ _) Hr).
    apply (IH remaining _ _ _ _ _ _ _ Hrest); try done.
    + lia.
    + destruct Hstop as [Hstop|Hstop]; [left; lia|by right].
    + intros j Hj. apply (Hgo (S j)). lia.
Qed.

(** The loop when it raises: after some turns, a [view] has stopped the
    next one. *)
Lemma rollout_raises self remaining ms obs done_array total env env' e :
  rollout self remaining ms obs done_array total env = (env', inl e) →
  e = Builtin RuntimeError
  ∧ ∃ (k : nat) c rewards dones,
      k < remaining
      ∧ turns_of self k (env, ms, obs) c rewards dones
      ∧ failed_turn_of self c env'.
Proof.
  revert ms obs done_array total env.
  induction remaining as [|remaining IH]; intros ms obs done_array total env Hrun;
    [done|].
  simpl in Hrun. destruct (tensor_all done_array); [done|].
  destruct (view_obs (pop_size self) (num_episodes self) obs)
    as [shaped|] eqn:Hvo.
  2: { injection Hrun as <- <-. split; [done|].
       exists 0, (env, ms, obs), [], [].
       split_and!; [lia|constructor|by constructor]. }
  destruct (vmap_state_forward ms shaped) as [ms1 action] eqn:Hf.
  destruct (view_action (pop_size self * num_episodes self) action)
    as [flat|] eqn:Hva.
  2: { injection Hrun as <- <-. split; [done|].
       exists 0, (env, ms, obs), [], [].
       split_and!; [lia|constructor|by econstructor 2]. }
  destruct (env_step flat env) as [env1 [[obs1 reward] done]] eqn:Hs.
  unfold view in Hrun.
  destruct (Nat.eqb_spec (length done) (pop_size self * num_episodes self))
    as [Hd|Hd].
  - destruct (Nat.eqb_spec (length reward) (pop_size self * num_episodes self))
      as [Hr|Hr].
    + apply IH in Hrun as (-> & k & c & rewards & dones & Hk & Hturns & Hbad).
      split; [done|].
      exists (S k), c, (reward :: rewards), (done :: dones).
      split_and!; [lia| |done]. by econstructor.
    + injection Hrun as <- <-. split; [done|].
      exists 0, (env, ms, obs), [], [].
      split_and!; [lia|constructor|]. econstructor 3; [done..|by right].
  - injection Hrun as <- <-. split; [done|].
    exists 0, (env, ms, obs), [], [].
    split_and!; [lia|constructor|]. econstructor 3; [done..|by left].
Qed.

Lemma evaluate_gene_cases self key first rest env :
  _evaluate_gene self ((key, first) :: rest) env
  = match size0 first with
    | None => (env, inl IndexError)
    | Some actual =>
        if negb (actual =? pop_size self)%nat
        then (env, inl (Builtin AssertionError))
        else
          match rollout self (Z.to_nat (max_episode_length self))
                        ((key, first) :: rest) (env_reset env).2
                        (replicate (pop_size self * num_episodes self) false)
                        (replicate (pop_size self * num_episodes self) zero)
                        (env_reset env).1 with
          | (env, inl e) => (env, inl e)
          | (env, inr (model_state, total_reward)) =>
              (env, inr (model_state,
                         view2 (pop_size self) (num_episodes self) total_reward))
          end
    end.
Proof.
  unfold GenesisProblem._evaluate_gene.
  destruct (size0 first) as [actual|]; [|done].
  destruct (negb _); [done|]. by destruct (env_reset env).
Qed.

(** [_evaluate_gene] makes the turns that can be made. *)
Lemma evaluate_gene_made self key first rest (k : nat) env env' ms' obs' rewards dones :
  size0 first = Some (pop_size self) →
  (k ≤ Z.to_nat (max_episode_length self))%nat →
  turns_of self k ((env_reset env).1, (key, first) :: rest, (env_reset env).2)
        (env', ms', obs') rewards dones →
  Forall (λ r, length r = pop_size self * num_episodes self) rewards →
  Forall (λ d, length d = pop_size self * num_episodes self) dones →
  (k = Z.to_nat (max_episode_length self)
   ∨ tensor_all (latched (replicate (pop_size self * num_episodes self) false) dones)
     = true) →
  (∀ j, j < k →
     tensor_all (latched (replicate (pop_size self * num_episodes self) false)
                         (take j dones)) = false) →
  _evaluate_gene self ((key, first) :: rest) env
  = (env', inr (ms', view2 (pop_size self) (num_episodes self)
                       (summed add (replicate (pop_size self * num_episodes self) zero)
                               rewards))).
Proof.
  intros Hsize Hk Hturns Hrs Hds Hstop Hgo.
  rewrite evaluate_gene_cases, Hsize, Nat.eqb_refl. simpl.
  by rewrite (rollout_turns self _ k _ _ _ _ _ _ _ _ _ _ Hturns Hk Hrs Hds Hstop Hgo).
Qed.

(** X14. [_evaluate_gene] returns exactly when the first tensor of the
    model state has the population size along its leading axis and the
    rollout can be made: after [reset], some number [k] of turns of policy
    and environment, in which the observations and the actions can be
    viewed in the shapes of the policy and of the environment, and the
    environment returns rewards and done flags for
    [pop_size * num_episodes] instances; [k] is the least number of turns
    after which every instance has reported done at least once, or
    [max_episode_length] if that comes first (0 if it is negative).  The
    rewards returned are the sums over all [k] turns, for every instance,
    also for the turns after the instance has reported done. *)
Theorem evaluate_gene_returns_iff self ms env env' ms' rewards2d :
  _evaluate_gene self ms env = (env', inr (ms', rewards2d))
  ↔ ∃ key first rest (k : nat) obs' rewards dones,
      ms = (key, first) :: rest
      ∧ size0 first = Some (pop_size self)
      ∧ (k ≤ Z.to_nat (max_episode_length self))%nat
      ∧ turns_of self k ((env_reset env).1, ms, (env_reset env).2) (env', ms', obs')
              rewards dones
      ∧ Forall (λ r, length r = pop_size self * num_episodes self) rewards
      ∧ Forall (λ d, length d = pop_size self * num_episodes self) dones
      ∧ rewards2d
        = view2 (pop_size self) (num_episodes self)
            (summed add (replicate (pop_size self * num_episodes self) zero) rewards)
      ∧ (k = Z.to_nat (max_episode_length self)
         ∨ tensor_all
             (latched (replicate (pop_size self * num_episodes self) false) dones)
           = true)
      ∧ ∀ j, j < k →
          tensor_all
            (latched (replicate (pop_size self * num_episodes self) false)
                     (take j dones)) = false.
Proof.
  split.
  - destruct ms as [|[key first] rest]; [done|].
    rewrite evaluate_gene_cases.
    destruct (size0 first) as [actual|] eqn:Hactual; [|done].
    destruct (Nat.eqb_spec actual (pop_size self)) as [->|]; [|done].
    simpl.
    destruct (rollout _ _ _ _ _ _ _) as [env1 [e|[ms1 total]]] eqn:Hrun; [done|].
    intros [= <- <- <-].
    apply rollout_returns in Hrun
      as (k & obs' & rewards & dones & Hk & Hturns & Hrs & Hds & -> & Hstop & Hgo).
    by exists key, first, rest, k, obs', rewards, dones.
  - intros (key & first & rest & k & obs' & rewards & dones & -> & Hsize & Hk
            & Hturns & Hrs & Hds & -> & Hstop & Hgo).
    by eapply evaluate_gene_made.
Qed.

(** X15. What [_evaluate_gene] can raise, and where: [StopIteration] on
    an empty model state, [IndexError] when the first tensor of the model
    state has no dimensions, and the assertion error of the size check,
    all three before the environment has been touched; and a runtime
    error after [reset] and fewer than [max_episode_length] turns, from
    the [view] that stops the next turn: of the observations (the policy
    has not run and the environment is as the turns left it), of the
    actions (the policy has run, the environment has not made the step),
    or of the done flags or the rewards that the environment has returned
    from the step and that are not for [pop_size * num_episodes]
    instances.  The size check looks at the first tensor of the model
    state only. *)
Theorem evaluate_gene_raises self ms env env' e :
  _evaluate_gene self ms env = (env', inl e) →
  (ms = [] ∧ e = StopIteration ∧ env' = env)
  ∨ (∃ key first rest,
       ms = (key, first) :: rest ∧ size0 first = None
       ∧ e = IndexError ∧ env' = env)
  ∨ (∃ key first rest actual,
       ms = (key, first) :: rest ∧ size0 first = Some actual
       ∧ actual ≠ pop_size self
       ∧ e = Builtin AssertionError ∧ env' = env)
  ∨ (e = Builtin RuntimeError
     ∧ ∃ key first rest (k : nat) c rewards dones,
         ms = (key, first) :: rest
         ∧ size0 first = Some (pop_size self)
         ∧ k < Z.to_nat (max_episode_length self)
         ∧ turns_of self k ((env_reset env).1, ms, (env_reset env).2) c rewards dones
         ∧ failed_turn_of self c env').
Proof.
  destruct ms as [|[key first] rest].
  - intros [= <- <-]. by left.
  - rewrite evaluate_gene_cases.
    destruct (size0 first) as [actual|] eqn:Hactual.
    + destruct (Nat.eqb_spec actual (pop_size self)) as [->|Hsize]; simpl.
      * destruct (rollout _ _ _ _ _ _ _) as [env1 [e1|[ms1 total]]] eqn:Hrun; [|done].
        intros [= <- <-]. right. right. right.
        apply rollout_raises in Hrun
          as (-> & k & c & rewards & dones & Hk & Hturns & Hbad).
        split; [done|]. by exists key, first, rest, k, c, rewards, dones.
      * intros [= <- <-]. right. right. left. by exists key, first, rest, actual.
    + intros [= <- <-]. right. left. by exists key, first, rest.
Qed.

(** X16. Without instances ([pop_size * num_episodes = 0]) or without
    time ([max_episode_length <= 0]) the environment is reset and never
    stepped, the policy is not run, and the rewards are the zeros of
    [torch.zeros]. *)
Theorem evaluate_gene_without_turns self key first rest env :
  size0 first = Some (pop_size self) →
  (max_episode_length self ≤ 0)%Z ∨ pop_size self * num_episodes self = 0 →
  _evaluate_gene self ((key, first) :: rest) env
  = ((env_reset env).1,
     inr ((key, first) :: rest,
          view2 (pop_size self) (num_episodes self)
                (replicate (pop_size self * num_episodes self) zero))).
Proof.
  intros Hsize Hnone. rewrite evaluate_gene_cases, Hsize, Nat.eqb_refl. simpl.
  destruct Hnone as [Hmax|Hn].
  - by replace (Z.to_nat (max_episode_length self)) with 0 by lia.
  - rewrite Hn. by destruct (Z.to_nat (max_episode_length self)).
Qed.

(** As long as the environment reports nothing done and the tensors can
    be viewed. *)
Lemma never_done_turns (Inv : Env → Prop) (vo : Obs → option Obs)
    (va : Act → option Act) n (k : nat) env ms obs :
  (∀ a env, Inv env →
     Inv (env_step a env).1
     ∧ is_Some (vo (env_step a env).2.1.1)
     ∧ length (env_step a env).2.1.2 = n
     ∧ (env_step a env).2.2 = replicate n false) →
  (∀ ms shaped, is_Some (va (vmap_state_forward ms shaped).2)) →
  Inv env → is_Some (vo obs) →
  ∃ env' ms' obs' rewards dones,
    turns vo vmap_state_forward va env_step k (env, ms, obs)
                    (env', ms', obs') rewards dones
    ∧ Inv env'
    ∧ Forall (λ r, length r = n) rewards
    ∧ Forall (λ d, d = replicate n false) dones.
Proof.
  intros Hstep Hact. revert env ms obs.
  induction k as [|k IH]; intros env ms obs Henv [shaped Hvo].
  - exists env, ms, obs, [], []. split_and!; [constructor|done..].
  - destruct (vmap_state_forward ms shaped) as [ms1 action] eqn:Hf.
    destruct (Hact ms shaped) as [flat Hva]. rewrite Hf in Hva. simpl in Hva.
    destruct (Hstep flat env Henv) as (Hinv & Hobs & Hr & Hd).
    destruct (env_step flat env) as [env1 [[obs1 reward] done]] eqn:Hs.
    simpl in *.
    destruct (IH env1 ms1 obs1 Hinv Hobs) as (env' & ms' & obs' & rewards & dones
                                               & Hturns & Hinv' & Hrs & Hds).
    exists env', ms', obs', (reward :: rewards), (done :: dones).
    split_and!; [by econstructor|done|by constructor|by constructor].
Qed.

Lemma latched_never_done n dones :
  Forall (λ d, d = replicate n false) dones →
  latched (replicate n false) dones = replicate n false.
Proof.
  unfold latched. induction 1 as [|d dones -> _ IH]; [done|].
  simpl. by rewrite zip_with_replicate.
Qed.

(** X17. With an environment that never reports an instance done (as
    long as it is in states [Inv], which [reset] and [step] keep), with
    observations and actions that can be viewed in the shapes of the
    policy and of the environment, and with at least one instance, the
    rollout is never cut short: it makes exactly [max_episode_length]
    turns and returns. *)
Theorem evaluate_gene_full_length (Inv : Env → Prop) self key first rest env :
  let n := pop_size self * num_episodes self in
  (∀ env, Inv env →
     Inv (env_reset env).1
     ∧ is_Some (view_obs (pop_size self) (num_episodes self) (env_reset env).2)) →
  (∀ a env, Inv env →
     Inv (env_step a env).1
     ∧ is_Some (view_obs (pop_size self) (num_episodes self) (env_step a env).2.1.1)
     ∧ length (env_step a env).2.1.2 = n
     ∧ (env_step a env).2.2 = replicate n false) →
  (∀ ms shaped, is_Some (view_action n (vmap_state_forward ms shaped).2)) →
  Inv env → 0 < n → size0 first = Some (pop_size self) →
  ∃ env' ms' obs' rewards dones,
    turns_of self (Z.to_nat (max_episode_length self))
          ((env_reset env).1, (key, first) :: rest, (env_reset env).2)
          (env', ms', obs') rewards dones
    ∧ _evaluate_gene self ((key, first) :: rest) env
      = (env', inr (ms', view2 (pop_size self) (num_episodes self)
                               (summed add (replicate n zero) rewards))).
Proof.
  intros n Hreset Hstep Hact Henv Hn Hsize. subst n.
  destruct (Hreset env Henv) as [Hinv0 Hobs0].
  destruct (never_done_turns Inv _ _ _ (Z.to_nat (max_episode_length self))
              (env_reset env).1 ((key, first) :: rest) (env_reset env).2 Hstep
              Hact Hinv0 Hobs0)
    as (env' & ms' & obs' & rewards & dones & Hturns & _ & Hrs & Hds).
  exists env', ms', obs', rewards, dones. split; [done|].
  eapply evaluate_gene_made; try done.
  - eapply Forall_impl; [exact Hds|]. intros d ->. apply length_replicate.
  - by left.
  - intros j Hj. rewrite latched_never_done by (by apply Forall_take).
    destruct (pop_size self * num_episodes self); [lia|done].
Qed.

End GenesisFacts.

(** ** [GenesisProblem.evaluate]: the merged model state *)

Section GenesisEvaluate.
Import GenesisProblem.
Context {Env P Obs Act R F : Type}.
Variable env_reset : Env → Env * Obs.
Variable env_step : Act → Env → Env * (Obs * list R * list bool).
Variable vmap_state_forward : odict P → Obs → odict P * Act.
Variable view_obs : nat → nat → Obs → option Obs.
Variable view_action : nat → Act → option Act.
Variable size0 : P → option nat.
Variable zero : R.
Variable add : R → R → R.
Variable reduce_fn : list (list R) → F.

Local Abbreviation _evaluate_gene :=
  (_evaluate_gene env_reset env_step vmap_state_forward view_obs view_action
                  size0 zero add).
Local Abbreviation evaluate :=
  (evaluate env_reset env_step vmap_state_forward view_obs view_action
            size0 zero add reduce_fn).

Implicit Types (self : GenesisProblem.t P) (env : Env).

Lemma merge_nonempty {A} (a b : odict A) : merge a b = [] → a = [] ∧ b = [].
Proof.
  assert (Hkeep : ∀ (d c : odict A), c ≠ [] → merge c d ≠ []).
  { unfold merge. induction d as [|[k v] d IH]; intros c Hc; [done|].
    simpl. apply IH. destruct c as [|[k' v'] c]; [done|].
    simpl. by destruct (String.eqb k' k). }
  destruct a as [|e a].
  - destruct b as [|[k v] b]; [done|]. intros H. exfalso. revert H.
    unfold merge. simpl. by apply (Hkeep b [(k, v)]).
  - intros H. exfalso. revert H. by apply Hkeep.
Qed.

(** The merged dictionary begins with the first key of the left one, under
    which it holds the value of the right one if that has the key. *)
Lemma merge_head {A} k0 (t0 : A) rest pp :
  NoDup pp.*1 →
  ∃ rest', merge ((k0, t0) :: rest) pp
           = (k0, default t0 (odict_get k0 pp)) :: rest'.
Proof.
  revert t0 rest. induction pp as [|[k v] pp IH]; intros t0 rest Hdup.
  - by exists rest.
  - rewrite fmap_cons in Hdup. apply NoDup_cons in Hdup as [Hk Hdup].
    unfold merge. simpl. destruct (String.eqb_spec k0 k) as [->|Hne].
    + destruct (IH v rest Hdup) as [rest' Hrest]. exists rest'.
      unfold merge in Hrest. rewrite Hrest.
      rewrite String.eqb_refl. simpl. by rewrite (odict_get_fresh k pp Hk).
    + destruct (IH t0 (odict_set k v rest) Hdup) as [rest' Hrest]. exists rest'.
      unfold merge in Hrest. rewrite Hrest.
      destruct (String.eqb_spec k k0) as [->|_]; done.
Qed.

Lemma evaluate_gene_not_raised self ms env env' e :
  _evaluate_gene self ms env = (env', inl e) →
  (e = StopIteration → ms = [] ∧ env' = env)
  ∧ (e = Builtin AssertionError →
     ∃ key first rest actual,
       ms = (key, first) :: rest ∧ size0 first = Some actual
       ∧ actual ≠ pop_size self ∧ env' = env).
Proof.
  intros Hrun. unfold GenesisProblem._evaluate_gene in Hrun.
  destruct ms as [|[key first] rest].
  - injection Hrun as <- <-. split; [done|]. discriminate.
  - destruct (size0 first) as [actual|] eqn:Hactual.
    2: { injection Hrun as <- <-. split; discriminate. }
    destruct (Nat.eqb_spec actual (pop_size self)) as [Hsize|Hsize];
      simpl in Hrun.
    + destruct (env_reset env) as [env1 obs].
      destruct (rollout _ _ _ _ _ _ _ _ _ _ _ _) as [env2 [e2|[ms2 total]]] eqn:Hroll;
        [|done].
      injection Hrun as <- <-.
      apply rollout_raises in Hroll as [-> _]. split; discriminate.
    + injection Hrun as <- <-. split; [discriminate|].
      intros _. by exists key, first, rest, actual.
Qed.

(** X18. [evaluate] raises [StopIteration] exactly when the policy has no
    state and no parameter is supplied, and then the environment has not
    been touched. *)
Theorem evaluate_stop_iteration_iff self pop_params env env' :
  evaluate self pop_params env = (env', inl StopIteration)
  ↔ vmap_init_state self = [] ∧ pop_params = [] ∧ env' = env.
Proof.
  unfold GenesisProblem.evaluate. split.
  - destruct (_evaluate_gene self _ env) as [env1 [e|[ms1 rewards]]] eqn:Hrun;
      [|done].
    intros [= <- ->].
    destruct (evaluate_gene_not_raised _ _ _ _ _ Hrun) as [Hstop _].
    destruct (Hstop eq_refl) as [Hnil ->].
    apply merge_nonempty in Hnil as [? ?]. done.
  - intros (Hinit & -> & ->). by rewrite Hinit.
Qed.

(** X19. The size check of [evaluate] depends on one tensor only: the one
    under the first key of the initial model state, taken from
    [pop_params] if it is supplied there.  The call stops with the
    assertion error, the environment untouched, exactly when the leading
    axis of this tensor exists and is not [pop_size]; the sizes of all
    other tensors are not looked at. *)
Theorem evaluate_checks_first_tensor self k0 t0 rest pop_params env :
  vmap_init_state self = (k0, t0) :: rest →
  NoDup pop_params.*1 →
  evaluate self pop_params env = (env, inl (Builtin AssertionError))
  ↔ ∃ actual, size0 (default t0 (odict_get k0 pop_params)) = Some actual
              ∧ actual ≠ pop_size self.
Proof.
  intros Hinit Hdup. unfold GenesisProblem.evaluate. rewrite Hinit.
  destruct (merge_head k0 t0 rest pop_params Hdup) as [rest' ->].
  split.
  - destruct (_evaluate_gene self _ env) as [env1 [e|[ms1 rewards]]] eqn:Hrun;
      [|done].
    intros [= -> ->].
    destruct (evaluate_gene_not_raised _ _ _ _ _ Hrun) as [_ Hassert].
    destruct (Hassert eq_refl)
      as (key & first & rest0 & actual & [= <- <- <-] & Hactual & Hsize & _).
    by exists actual.
  - intros (actual & Hactual & Hsize). unfold GenesisProblem._evaluate_gene.
    by rewrite Hactual, (proj2 (Nat.eqb_neq _ _) Hsize).
Qed.

End GenesisEvaluate.

(** ** [GenesisProblem] on [HoverEnv] *)

Section GenesisOnHover.
Context {Phys P Obs Act R : Type}.
Variable advance : Act → Phys → Phys.
Variable crash_condition : Phys → list bool.
Variable reset_phys : list nat → Phys → Phys.
Variable observe : Phys → Phys.
Variable obs_buf : Phys → Obs.
Variable rew_buf : Phys → list R.
Variable vmap_state_forward : odict P → Obs → odict P * Act.
Variable view_obs : nat → nat → Obs → option Obs.
Variable view_action : nat → Act → option Act.
Variable size0 : P → option nat.
Variable zero : R.
Variable add : R → R → R.

Local Abbreviation hover_step :=
  (HoverEnv.step advance crash_condition reset_phys observe obs_buf rew_buf).
Local Abbreviation hover_reset := (HoverEnv.reset reset_phys obs_buf).
Local Abbreviation hover_call :=
  (HoverEnv.call advance crash_condition reset_phys observe obs_buf rew_buf).

(** X23. A [GenesisProblem] built on the task ["Hover"], whose
    environment has [pop_size * num_episodes] drones, with observations
    and actions that can be viewed in the shapes of the policy and of the
    environment: since [HoverEnv.step] returns a [done] that is never set,
    the rollout of [_evaluate_gene] is never cut short, whichever drones
    crash: it makes exactly [max_episode_length] turns of policy and
    environment, and returns. *)
Theorem hover_rollout_full_length (self : GenesisProblem.t P) scene s0 calls
    key first rest :
  let n := GenesisProblem.pop_size self * GenesisProblem.num_episodes self in
  let env := foldl hover_call s0 calls in
  let vo := view_obs (GenesisProblem.pop_size self) (GenesisProblem.num_episodes self) in
  (∀ p, length (crash_condition p) = n) →
  (∀ p, length (rew_buf p) = n) →
  (∀ p, is_Some (vo (obs_buf p))) →
  (∀ ms shaped, is_Some (view_action n (vmap_state_forward ms shaped).2)) →
  HoverEnv.__init__ reset_phys n scene = Some s0 →
  0 < n →
  size0 first = Some (GenesisProblem.pop_size self) →
  ∃ env' ms' obs' rewards dones,
    turns vo vmap_state_forward (view_action n) hover_step
          (Z.to_nat (GenesisProblem.max_episode_length self))
          ((hover_reset env).1, (key, first) :: rest, (hover_reset env).2)
          (env', ms', obs') rewards dones
    ∧ GenesisProblem._evaluate_gene hover_reset hover_step vmap_state_forward
        view_obs view_action size0 zero add self ((key, first) :: rest) env
      = (env', inr (ms', GenesisProblem.view2 (GenesisProblem.pop_size self)
                           (GenesisProblem.num_episodes self)
                           (summed add (replicate n zero) rewards))).
Proof.
  intros n env vo Hcrash Hrew Hobs Hact Hinit Hn Hsize.
  assert (Henv : hover_inv n env).
  { apply calls_inv; [exact Hcrash|]. by eapply init_inv. }
  assert (Hreset : ∀ e, hover_inv n e → hover_inv n (hover_reset e).1).
  { intros e He. by apply reset_inv. }
  assert (Hstep : ∀ a e, hover_inv n e →
            hover_inv n (hover_step a e).1
            ∧ is_Some (vo (hover_step a e).2.1.1)
            ∧ length (hover_step a e).2.1.2 = n
            ∧ (hover_step a e).2.2 = replicate n false).
  { intros a e He. split; [apply step_inv; [apply Hcrash|exact He]|].
    split; [apply Hobs|].
    pose proof He as (_ & _ & Hd & Hle & _).
    destruct (step_fields advance crash_condition reset_phys observe obs_buf
                rew_buf a e) as (_ & _ & _ & Hret & Hr & _).
    { rewrite Hcrash. symmetry. exact Hle. }
    rewrite Hret, Hr, Hrew. split; [reflexivity|exact Hd]. }
  assert (Hobs0 : is_Some (vo (hover_reset env).2)) by apply Hobs.
  destruct (never_done_turns hover_step vmap_state_forward (hover_inv n) vo
              (view_action n) n
              (Z.to_nat (GenesisProblem.max_episode_length self))
              (hover_reset env).1 ((key, first) :: rest) (hover_reset env).2 Hstep
              Hact (Hreset env Henv) Hobs0)
    as (env' & ms' & obs' & rewards & dones & Hturns & _ & Hrs & Hds).
  exists env', ms', obs', rewards, dones. split; [exact Hturns|].
  eapply evaluate_gene_made; [exact Hsize|reflexivity|exact Hturns|exact Hrs|..].
  - eapply Forall_impl; [exact Hds|]. intros d ->. apply length_replicate.
  - left. reflexivity.
  - intros j Hj. fold n. rewrite latched_never_done by (by apply Forall_take).
    clearbody n. destruct n; [lia|reflexivity].
Qed.

End GenesisOnHover.

(** ** The properties of the rollout on the small examples *)

(** The rollout of the small problem: two turns, after which both
    instances have reported done; the first instance is paid for the second
    turn although it was done after the first. *)
Example demo_rollout :
  GenesisProblem._evaluate_gene RolloutDemo.env_reset RolloutDemo.env_step
    RolloutDemo.forward RolloutDemo.view_obs RolloutDemo.view_action id 0%Z Z.add
    RolloutDemo.problem (GenesisProblem.vmap_init_state RolloutDemo.problem) 7
  = (2, inr (GenesisProblem.vmap_init_state RolloutDemo.problem, [[3]; [2]]%Z)).
Proof. reflexivity. Qed.

(** What the small problem raises: on a first tensor without dimensions,
    before the environment is reset; on actions that cannot be viewed,
    after the reset and before the first step. *)
Example demo_rollout_raises :
  GenesisProblem._evaluate_gene RolloutDemo.env_reset RolloutDemo.env_step
    RolloutDemo.forward RolloutDemo.view_obs RolloutDemo.view_action id 0%Z Z.add
    RolloutDemo.problem [("w", None); ("b", Some 2)] 7
  = (7, inl GenesisProblem.IndexError)
  ∧ GenesisProblem._evaluate_gene RolloutDemo.env_reset RolloutDemo.env_step
      RolloutDemo.forward RolloutDemo.view_obs RolloutDemo.no_view_action id 0%Z
      Z.add RolloutDemo.problem (GenesisProblem.vmap_init_state RolloutDemo.problem) 7
    = (0, inl (GenesisProblem.Builtin RuntimeError)).
Proof. split; reflexivity. Qed.

(** X15 on the environment that returns one reward for two instances. *)
Lemma evaluate_gene_raises_witness :
  ∃ (k : nat) c rewards dones,
    k < 5
    ∧ turns (RolloutDemo.view_obs 2 1) RolloutDemo.forward (RolloutDemo.view_action 2)
        RolloutDemo.short_step k
        (0, GenesisProblem.vmap_init_state RolloutDemo.problem, 0%Z) c rewards dones
    ∧ failed_turn (RolloutDemo.view_obs 2 1) RolloutDemo.forward
        (RolloutDemo.view_action 2) RolloutDemo.short_step 2 c 1.
Proof.
  destruct (evaluate_gene_raises RolloutDemo.env_reset RolloutDemo.short_step
              RolloutDemo.forward RolloutDemo.view_obs RolloutDemo.view_action
              id 0%Z Z.add RolloutDemo.problem
              (GenesisProblem.vmap_init_state RolloutDemo.problem) 7 1
              (GenesisProblem.Builtin RuntimeError) eq_refl)
    as [(Hnil & _)|[(key & first & rest & _ & _ & He & _)
                   |[(key & first & rest & actual & _ & _ & _ & He & _)
                    |(_ & key & first & rest & k & c & rewards & dones & _ & _
                      & Hk & Hturns & Hfailed)]]].
  - discriminate Hnil.
  - discriminate He.
  - discriminate He.
  - exists k, c, rewards, dones. split_and!; [exact Hk|exact Hturns|exact Hfailed].
Defined.

(** X16 on the small problem with [max_episode_length = 0]. *)
Lemma evaluate_gene_without_turns_witness :
  GenesisProblem._evaluate_gene RolloutDemo.env_reset RolloutDemo.env_step
    RolloutDemo.forward RolloutDemo.view_obs RolloutDemo.view_action id 0%Z Z.add
    (GenesisProblem.Build 2 1 0 [("w", Some 2)]) [("w", Some 2)] 7
  = (0, inr ([("w", Some 2)], [[0]; [0]]%Z)).
Proof.
  apply (evaluate_gene_without_turns RolloutDemo.env_reset RolloutDemo.env_step
           RolloutDemo.forward RolloutDemo.view_obs RolloutDemo.view_action
           id 0%Z Z.add
           (GenesisProblem.Build 2 1 0 [("w", Some 2)]) "w" (Some 2) [] 7).
  - reflexivity.
  - left. simpl. lia.
Defined.

(** X17 on the environment that never reports done. *)
Lemma evaluate_gene_full_length_witness :
  ∃ env' ms' obs' rewards dones,
    turns (RolloutDemo.view_obs 2 1) RolloutDemo.forward (RolloutDemo.view_action 2)
      RolloutDemo.quiet_step 5
      (0, [("w", Some 2)], 0%Z) (env', ms', obs') rewards dones
    ∧ GenesisProblem._evaluate_gene RolloutDemo.env_reset RolloutDemo.quiet_step
        RolloutDemo.forward RolloutDemo.view_obs RolloutDemo.view_action id 0%Z
        Z.add RolloutDemo.problem [("w", Some 2)] 7
      = (env', inr (ms', GenesisProblem.view2 2 1
                           (summed Z.add (replicate 2 0%Z) rewards))).
Proof.
  apply (evaluate_gene_full_length RolloutDemo.env_reset RolloutDemo.quiet_step
           RolloutDemo.forward RolloutDemo.view_obs RolloutDemo.view_action
           id 0%Z Z.add (λ _, True) RolloutDemo.problem
           "w" (Some 2) [] 7).
  - intros env _. split; [done|by eexists].
  - intros a env _. split_and!; [done|by eexists|reflexivity..].
  - intros ms shaped. by eexists.
  - done.
  - simpl. lia.
  - reflexivity.
Defined.

(** X19 on the small problem: the tensor under the first key, ["w"], is
    supplied with another size, and separately a tensor under ["b"]. *)
Lemma evaluate_checks_first_tensor_witness :
  (GenesisProblem.evaluate RolloutDemo.env_reset RolloutDemo.env_step
     RolloutDemo.forward RolloutDemo.view_obs RolloutDemo.view_action id 0%Z Z.add
     id RolloutDemo.problem [("w", Some 3)] 7
   = (7, inl (GenesisProblem.Builtin AssertionError)))
  ∧ (GenesisProblem.evaluate RolloutDemo.env_reset RolloutDemo.env_step
       RolloutDemo.forward RolloutDemo.view_obs RolloutDemo.view_action id 0%Z Z.add
       id RolloutDemo.problem [("b", Some 3)] 7
     ≠ (7, inl (GenesisProblem.Builtin AssertionError))).
Proof.
  split.
  - apply (evaluate_checks_first_tensor RolloutDemo.env_reset RolloutDemo.env_step
             RolloutDemo.forward RolloutDemo.view_obs RolloutDemo.view_action
             id 0%Z Z.add id RolloutDemo.problem
             "w" (Some 2) [("b", Some 2)] [("w", Some 3)] 7).
    + reflexivity.
    + apply NoDup_singleton.
    + exists 3. split; [reflexivity|simpl; lia].
  - intros Hraise.
    apply (evaluate_checks_first_tensor RolloutDemo.env_reset RolloutDemo.env_step
             RolloutDemo.forward RolloutDemo.view_obs RolloutDemo.view_action
             id 0%Z Z.add id RolloutDemo.problem
             "w" (Some 2) [("b", Some 2)] [("b", Some 3)] 7) in Hraise.
    + destruct Hraise as (actual & [= <-] & Hne). by apply Hne.
    + reflexivity.
    + apply NoDup_singleton.
Defined.

(** X20 on two drones, after a step, a reset and another step. *)
Lemma hover_flags_and_counters_witness :
  let s := foldl (HoverEnv.call RolloutDemo.advance RolloutDemo.crash_condition
                    RolloutDemo.reset_phys RolloutDemo.observe RolloutDemo.obs_buf
                    RolloutDemo.rew_buf)
                 RolloutDemo.hover [Some 1%Z; None; Some 2%Z] in
  HoverEnv.max_episode_length s = 1500%Z
  ∧ HoverEnv.done s = [false; false]
  ∧ Forall (λ c, 0 ≤ c ≤ 1500)%Z (HoverEnv.episode_length_buf s).
Proof.
  intros s.
  destruct (hover_flags_and_counters RolloutDemo.advance RolloutDemo.crash_condition
              RolloutDemo.reset_phys RolloutDemo.observe RolloutDemo.obs_buf
              RolloutDemo.rew_buf 2 0 RolloutDemo.hover [Some 1%Z; None; Some 2%Z])
    as (Hmax & Hdone & _ & _ & Hrange & _).
  - intros p. reflexivity.
  - reflexivity.
  - by split_and!.
Defined.

(** X21 on two drones whose counters are at 1500 and at 7, at a step in
    which the first one crashes. *)
Lemma hover_step_counters_witness :
  let s := HoverEnv.Build 2 [false; false] 1500 [false; false] [1500; 7]%Z None 2 in
  let s' := (HoverEnv.step RolloutDemo.advance RolloutDemo.crash_condition
               RolloutDemo.reset_phys RolloutDemo.observe RolloutDemo.obs_buf
               RolloutDemo.rew_buf 1%Z s).1 in
  (HoverEnv.episode_length_buf s' !! 0 = Some 0%Z
   ∧ HoverEnv.reset_buf s' !! 0 = Some true
   ∧ (HoverEnv.time_outs s' ≫= (.!! 0)) = Some true)
  ∧ (HoverEnv.episode_length_buf s' !! 1 = Some 8%Z
     ∧ HoverEnv.reset_buf s' !! 1 = Some false
     ∧ (HoverEnv.time_outs s' ≫= (.!! 1)) = Some false).
Proof.
  intros s s'. split.
  - apply (hover_step_counters RolloutDemo.advance RolloutDemo.crash_condition
             RolloutDemo.reset_phys RolloutDemo.observe RolloutDemo.obs_buf
             RolloutDemo.rew_buf 1%Z s 0 1500%Z true); reflexivity.
  - apply (hover_step_counters RolloutDemo.advance RolloutDemo.crash_condition
             RolloutDemo.reset_phys RolloutDemo.observe RolloutDemo.obs_buf
             RolloutDemo.rew_buf 1%Z s 1 7%Z false); reflexivity.
Defined.

(** X22 on two drones that do not crash: three steps after a reset. *)
Lemma hover_episode_period_witness :
  HoverEnv.episode_length_buf
    (foldl (HoverEnv.call RolloutDemo.advance RolloutDemo.no_crash
              RolloutDemo.reset_phys RolloutDemo.observe RolloutDemo.obs_buf
              RolloutDemo.rew_buf)
           RolloutDemo.hover
           ([Some 1%Z] ++ None :: (Some <$> [1; 2; 3]%Z)))
  = replicate 2 (Z.of_nat (length [1; 2; 3]%Z) mod 1501)%Z.
Proof.
  apply (hover_episode_period RolloutDemo.advance RolloutDemo.no_crash
           RolloutDemo.reset_phys RolloutDemo.observe RolloutDemo.obs_buf
           RolloutDemo.rew_buf 2 0 RolloutDemo.hover [Some 1%Z] [1; 2; 3]%Z).
  - intros p. reflexivity.
  - reflexivity.
Defined.

(** X23 on the small problem with two drones, of which one keeps
    crashing: five turns. *)
Lemma hover_rollout_full_length_witness :
  ∃ env' ms' obs' rewards dones,
    turns (RolloutDemo.view_obs 2 1) RolloutDemo.forward (RolloutDemo.view_action 2)
      (HoverEnv.step RolloutDemo.advance RolloutDemo.crash_condition
         RolloutDemo.reset_phys RolloutDemo.observe RolloutDemo.obs_buf
         RolloutDemo.rew_buf)
      5
      ((HoverEnv.reset RolloutDemo.reset_phys RolloutDemo.obs_buf
          RolloutDemo.hover).1,
       [("w", Some 2)],
       (HoverEnv.reset RolloutDemo.reset_phys RolloutDemo.obs_buf
          RolloutDemo.hover).2)
      (env', ms', obs') rewards dones
    ∧ GenesisProblem._evaluate_gene
        (HoverEnv.reset RolloutDemo.reset_phys RolloutDemo.obs_buf)
        (HoverEnv.step RolloutDemo.advance RolloutDemo.crash_condition
           RolloutDemo.reset_phys RolloutDemo.observe RolloutDemo.obs_buf
           RolloutDemo.rew_buf)
        RolloutDemo.forward RolloutDemo.view_obs RolloutDemo.view_action id 0%Z
        Z.add RolloutDemo.problem [("w", Some 2)] RolloutDemo.hover
      = (env', inr (ms', GenesisProblem.view2 2 1
                           (summed Z.add (replicate 2 0%Z) rewards))).
Proof.
  apply (hover_rollout_full_length RolloutDemo.advance RolloutDemo.crash_condition
           RolloutDemo.reset_phys RolloutDemo.observe RolloutDemo.obs_buf
           RolloutDemo.rew_buf RolloutDemo.forward RolloutDemo.view_obs
           RolloutDemo.view_action id 0%Z Z.add
           RolloutDemo.problem 0 RolloutDemo.hover [] "w" (Some 2) []).
  - intros p. reflexivity.
  - intros p. reflexivity.
  - intros p. by eexists.
  - intros ms shaped. by eexists.
  - reflexivity.
  - simpl. lia.
  - reflexivity.
Defined.

(** The same rollout, computed: the drone that crashes at every third step
    is restarted by the environment, and both drones are paid for all five
    turns. *)
Example demo_hover_rollout :
  (GenesisProblem._evaluate_gene
     (HoverEnv.reset RolloutDemo.reset_phys RolloutDemo.obs_buf)
     (HoverEnv.step RolloutDemo.advance RolloutDemo.crash_condition
        RolloutDemo.reset_phys RolloutDemo.observe RolloutDemo.obs_buf
        RolloutDemo.rew_buf)
     RolloutDemo.forward RolloutDemo.view_obs RolloutDemo.view_action id 0%Z
     Z.add RolloutDemo.problem [("w", Some 2)] RolloutDemo.hover).2
  = inr ([("w", Some 2)], [[5]; [10]]%Z).
Proof. reflexivity. Qed.

(** ** The number of calls that [evaluate] makes *)

Section CallCount.
Import HPOProblemWrapper.
Context {V W : Type}.
Variable is_parameter : V → bool.

Lemma sequential_steps_length (f : callable V W (gmap string V)) n c c' inputs :
  sequential_steps f n c c' inputs → length inputs = n.
Proof. induction 1; simpl; congruence. Qed.

(** X24. For an object whose [iterations] and [num_instances] the
    constructor accepts, a call of [evaluate] that returns has called the
    compiled functions of the workflow exactly [iterations] times (the
    first-step function once, the step function [iterations - 1] times)
    and then the fitness function once, and nothing else. *)
Theorem evaluate_makes_iterations_calls (self : t V W) hp w cs m' fit :
  __init__ (iterations self) (num_instances self)
  = Ok (Unconfigured (iterations self) (num_instances self)) →
  evaluate is_parameter self hp (Machine w cs) = (m', Ok fit) →
  ∃ made last,
    calls m' = cs ++ made ++ [(GetMonitorFitness, last)]
    ∧ Z.of_nat (length made) = iterations self
    ∧ Forall (λ c, ∃ m, c.1 = Method m) made.
Proof.
  intros Hinit Heval.
  assert (Hit : (0 < iterations self)%Z).
  { unfold __init__ in Hinit.
    destruct (Z.ltb_spec 0 (iterations self)); [done|discriminate Hinit]. }
  destruct (check_loop_result is_parameter self (map_to_list hp)) as [Hcheck|Hcheck];
    [|by unfold evaluate, bind, lift in Heval; rewrite Hcheck in Heval].
  unfold evaluate in Heval. unfold bind at 1, lift in Heval.
  rewrite Hcheck in Heval. unfold bind at 1, invoke at 1 in Heval. simpl in Heval.
  destruct (run (_workflow_init_step_ self) (hp ∪ init_state self) w)
    as [w1 [s1|e]] eqn:Hfirst; [|done].
  unfold bind at 1 in Heval.
  match type of Heval with context [for_loop ?xs ?b s1 ?m1] =>
    destruct (for_loop_invoke_trace
                (Method (traced_from (_workflow_step_ self)))
                (run (_workflow_step_ self)) xs s1 m1)
      as (n & inputs & w2 & s2 & Hsteps & Hres);
    destruct (for_loop xs b s1 m1) as [m2 [s2'|e]]
  end; [|done].
  destruct Hres as (-> & -> & ->). rewrite length_range in Hsteps.
  apply sequential_steps_length in Hsteps.
  unfold invoke in Heval. simpl in Heval.
  destruct (_get_monitor_fitness_ self s2 w2) as [w3 r].
  injection Heval as <- ->.
  exists ((Method (traced_from (_workflow_init_step_ self)), hp ∪ init_state self)
          :: ((Method (traced_from (_workflow_step_ self)),.) <$> inputs)), s2.
  simpl. split_and!.
  - by rewrite <- !app_assoc.
  - rewrite length_fmap, Hsteps. lia.
  - constructor; [by eexists|]. apply Forall_fmap, Forall_true. intros x. by eexists.
Qed.

End CallCount.

(** X24 on a wrapper with [iterations = 3] whose functions return. *)
Lemma evaluate_makes_iterations_calls_witness :
  let ok : HPOProblemWrapper.callable bool unit (gmap string bool) :=
    λ x w, (w, Ok x) in
  let self :=
    HPOProblemWrapper.Build 3 1 {["lb" := true]}
      (HPOProblemWrapper.Compiled step ok) (HPOProblemWrapper.Compiled init_step ok)
      (λ x w, (w, Ok true)) in
  ∃ m' made last,
    HPOProblemWrapper.evaluate id self ∅ (HPOProblemWrapper.Machine () [])
    = (m', Ok true)
    ∧ HPOProblemWrapper.calls m' = [] ++ made ++ [(GetMonitorFitness, last)]
    ∧ Z.of_nat (length made) = 3%Z.
Proof.
  intros ok self.
  assert (Heval : HPOProblemWrapper.evaluate id self ∅ (HPOProblemWrapper.Machine () [])
                  = (HPOProblemWrapper.Machine ()
                       [(Method init_step, {["lb" := true]});
                        (Method step, {["lb" := true]});
                        (Method step, {["lb" := true]});
                        (GetMonitorFitness, {["lb" := true]})],
                     Ok true))
    by reflexivity.
  destruct (evaluate_makes_iterations_calls id self ∅ () [] _ true eq_refl Heval)
    as (made & last & Hcalls & Hlen & _).
  eexists _, made, last. split_and!; [exact Heval|exact Hcalls|exact Hlen].
Defined.
